(** * B-tree map (btree/cpp/btree_map.h): shallow embedding and properties

    The C++ container [btree_map::BTreeMap<K, V, B>] is embedded with the
    key type instantiated to [int] (modelled as [Z], with [DefaultCompare]),
    an arbitrary value type [V] and an arbitrary branching parameter [B].

    A node owns three fixed-size arrays of [std::unique_ptr]:
    [keys[2B]], [values[2B]] and [children[2B+1]].  An array of unique
    pointers is a list of options ([None] is [nullptr]); [std::move] out of
    a slot leaves [None] behind.  Every loop of the source is a recursive
    function over its counter.

    Dereferencing a null pointer is undefined behaviour in C++; the
    operations that can do so return in the monad [M] ([None] stands for
    undefined behaviour).  All array indices of the source are within the
    declared bounds once [1 <= B], so list accesses are total. *)

From Stdlib Require Import List ZArith Lia Bool Arith.
From Stdlib Require String DecimalString.
Import ListNotations.

(** ** Undefined-behaviour monad *)

Definition M (A : Type) : Type := option A.

Definition ret {A : Type} (a : A) : M A := Some a.

Definition bind {A C : Type} (m : M A) (f : A -> M C) : M C :=
  match m with
  | Some a => f a
  | None => None
  end.

Notation "x <- m ;; k" := (bind m (fun x => k))
  (at level 61, m at next level, right associativity).
Notation "' p <- m ;; k" := (bind m (fun x => match x with p => k end))
  (at level 61, p pattern, m at next level, right associativity).

(** ** Arrays of unique pointers *)

(** [a[i]], as a possibly-null pointer. *)
Definition get {A : Type} (a : list (option A)) (i : nat) : option A :=
  nth i a None.

(** [a[i] = x] *)
Fixpoint set {A : Type} (a : list A) (i : nat) (x : A) : list A :=
  match a with
  | [] => []
  | h :: t =>
      match i with
      | O => x :: t
      | S i' => h :: set t i' x
      end
  end.

(** [a[dst] = std::move(a[src])] *)
Definition move_slot {A : Type} (a : list (option A)) (dst src : nat)
  : list (option A) :=
  set (set a dst (get a src)) src None.

(** [for (i = ...; i > index; i--) a[i] = std::move(a[i-1])], entered with
    the counter at [i]. *)
Fixpoint shift_slots {A : Type} (i index : nat) (a : list (option A))
  : list (option A) :=
  match i with
  | O => a
  | S i' => if index <? i then shift_slots i' index (move_slot a i i') else a
  end.

Definition is_some {A : Type} (o : option A) : bool :=
  match o with
  | Some _ => true
  | None => false
  end.

(** [DefaultCompare<int>::operator()] *)
Definition Compare (lhs rhs : Z) : Z :=
  if (lhs >? rhs)%Z then 1%Z
  else if (lhs <? rhs)%Z then (-1)%Z
  else 0%Z.

(** [Element<K, V>]: a pair of unique pointers. *)
Definition Element (V : Type) : Type := (option Z * option V)%type.

(** [TreeNode<K, V>]: the snapshot of one node, freshly allocated copies. *)
Definition TreeNode (V : Type) : Type := list (Z * V).

(** ** struct Node *)

Module Node.

#[warnings="-register-all"]
Inductive t (V : Type) : Type :=
  mk { keys : list (option Z);
       values : list (option V);
       children : list (option (t V)) }.

Arguments mk {V} _ _ _.
Arguments keys {V} _.
Arguments values {V} _.
Arguments children {V} _.

(** Apply [f] to [children[i]] when it is not null, else [d]. *)
Definition on_child {V A : Type} (f : t V -> A) (d : A)
  : list (option (t V)) -> nat -> A :=
  fix go (cs : list (option (t V))) (i : nat) {struct cs} : A :=
    match cs with
    | [] => d
    | c :: cs' =>
        match i with
        | O => match c with Some n => f n | None => d end
        | S i' => go cs' i'
        end
    end.

(** The loop over the children in [bfs],
    [for (i = ...; i < 2B; i++) { if (!children[i]) break; children[i]->bfs(..) }],
    with [n] iterations left and [cs] the slots from [i] on; [f] is the
    recursive call. *)
Definition bfs_children {V R : Type} (f : t V -> R -> M R)
  : nat -> list (option (t V)) -> R -> M R :=
  fix visit (n : nat) (cs : list (option (t V))) (result : R) {struct cs}
    : M R :=
    match n, cs with
    | S n', Some c :: cs' => result' <- f c result ;; visit n' cs' result'
    | _, _ => ret result
    end.

(** The loop of [preorder],
    [for (i = ...; i < 2B; i++) { if (children[i]) children[i]->preorder(..);
       if (keys[i]) result.push_back({*keys[i], *values[i]}); }],
    with [n] iterations left and [cs] the child slots from [i] on; [f] is
    the recursive call. *)
Definition preorder_slots {V : Type}
  (f : t V -> list (Z * V) -> M (list (Z * V)))
  (ks : list (option Z)) (vs : list (option V))
  : nat -> nat -> list (option (t V)) -> list (Z * V) -> M (list (Z * V)) :=
  fix visit (n i : nat) (cs : list (option (t V))) (result : list (Z * V))
    {struct cs} : M (list (Z * V)) :=
    match n, cs with
    | S n', c :: cs' =>
        r1 <- match c with
              | Some c => f c result
              | None => ret result
              end ;;
        r2 <- match get ks i with
              | Some k =>
                  match get vs i with
                  | Some v => ret (r1 ++ [(k, v)])
                  | None => None
                  end
              | None => ret r1
              end ;;
        visit n' (S i) cs' r2
    | _, _ => ret result
    end.

Section WithB.
Context {V : Type}.
Variable B : nat.

(** [std::make_unique<Node>()]: every slot is null. *)
Definition empty : t V :=
  mk (repeat None (2 * B)) (repeat None (2 * B)) (repeat None (2 * B + 1)).

Definition set_children (u : t V) (cs : list (option (t V))) : t V :=
  mk (keys u) (values u) cs.

(** One step of [keys[dst] = move(keys[src]); values[dst] = move(values[src])]. *)
Definition move_entry (u : t V) (dst src : nat) : t V :=
  mk (move_slot (keys u) dst src) (move_slot (values u) dst src) (children u).

(** [for (j = 2B-1; j > i; j--) { keys[j] = move(keys[j-1]); ... }],
    entered with the counter at [j]. *)
Fixpoint shift_right (j i : nat) (u : t V) : t V :=
  match j with
  | O => u
  | S j' => if i <? j then shift_right j' i (move_entry u j j') else u
  end.

(** The body of [insert] once slot [i] is chosen. *)
Definition place (k : option Z) (v : option V) (i : nat) (u : t V) : t V :=
  let u' := shift_right (2 * B - 1) i u in
  mk (set (keys u') i k) (set (values u') i v) (children u').

(** [for (i = ...; i < 2B; i++)] of [insert], with [n] iterations left. *)
Fixpoint insert_from (n i : nat) (k : option Z) (v : option V) (u : t V)
  : M (t V) :=
  match n with
  | O => ret u
  | S n' =>
      match get (keys u) i with
      | Some ki =>
          match k with
          | Some kk =>
              if (Compare kk ki >? 0)%Z
              then insert_from n' (S i) k v u
              else ret (place k v i u)
          | None => None
          end
      | None => ret (place k v i u)
      end
  end.

(** [void insert(std::unique_ptr<K> k, std::unique_ptr<V> v)] *)
Definition insert (k : option Z) (v : option V) (u : t V) : M (t V) :=
  insert_from (2 * B) 0 k v u.

(** [void add_child(std::unique_ptr<Node> child, const size_t index)] *)
Definition add_child (child : option (t V)) (index : nat) (u : t V) : t V :=
  set_children u (set (shift_slots (2 * B) index (children u)) index child).

(** [for (i = index; i < 2B-1 && keys[i+1] != nullptr; i++)] of [remove]. *)
Fixpoint remove_from (n i : nat) (u : t V) : t V :=
  match n with
  | O => u
  | S n' =>
      if (i <? 2 * B - 1) && is_some (get (keys u) (i + 1))
      then remove_from n' (S i) (move_entry u i (i + 1))
      else u
  end.

(** [Element<K, V> remove(const size_t index)] *)
Definition remove (index : nat) (u : t V) : Element V * t V :=
  let e := (get (keys u) index, get (values u) index) in
  let u' := mk (set (keys u) index None) (set (values u) index None)
               (children u) in
  (e, remove_from (2 * B) index u').

(** First loop of [split]: slot [i] of [u] moves into slot [i] of the new
    node, for [n] more iterations. *)
Fixpoint split_out (n i : nat) (nu : t V * t V) : t V * t V :=
  match n with
  | O => nu
  | S n' =>
      let (new_child, u) := nu in
      split_out n' (S i)
        (mk (set (keys new_child) i (get (keys u) i))
            (set (values new_child) i (get (values u) i))
            (set (children new_child) i (get (children u) i)),
         mk (set (keys u) i None) (set (values u) i None)
            (set (children u) i None))
  end.

(** Second loop of [split]: slot [i + B] moves down to slot [i]. *)
Fixpoint split_down (n i : nat) (u : t V) : t V :=
  match n with
  | O => u
  | S n' =>
      split_down n' (S i)
        (mk (move_slot (keys u) i (i + B))
            (move_slot (values u) i (i + B))
            (move_slot (children u) i (i + B)))
  end.

(** [std::unique_ptr<Node> split()]: the new node (or null) and the
    receiver afterwards. *)
Definition split (u : t V) : option (t V) * t V :=
  match get (keys u) (2 * B - 1) with
  | None => (None, u)
  | Some _ =>
      let (new_child, u1) := split_out B 0 (empty, u) in
      let new_child' := set_children new_child (set (children new_child) B None) in
      let u2 := split_down B 0 u1 in
      (Some new_child', set_children u2 (move_slot (children u2) B (2 * B)))
  end.

(** [bool is_leaf() const] *)
Definition is_leaf (u : t V) : bool :=
  negb (is_some (get (children u) 0)).

(** [for (i = ...; i > 0; i--) if (keys[i-1] != nullptr) return i;] *)
Fixpoint size_from (i : nat) (ks : list (option Z)) : nat :=
  match i with
  | O => O
  | S i' => if is_some (get ks i') then i else size_from i' ks
  end.

(** [size_t size() const] *)
Definition size (u : t V) : nat := size_from (2 * B) (keys u).

(** The snapshot loop of [bfs]: copies of the entries up to the first null
    key, at most [2B-1] of them. *)
Fixpoint snapshot (n i : nat) (u : t V) : M (TreeNode V) :=
  match n with
  | O => ret []
  | S n' =>
      match get (keys u) i with
      | None => ret []
      | Some k =>
          match get (values u) i with
          | None => None
          | Some v => rest <- snapshot n' (S i) u ;; ret ((k, v) :: rest)
          end
      end
  end.

(** [if (result.size() > layer) result[layer].push_back(node);
     else result.push_back({node});] *)
Definition push_layer (layer : nat) (node : TreeNode V)
  (result : list (list (TreeNode V))) : list (list (TreeNode V)) :=
  if layer <? length result
  then set result layer (nth layer result [] ++ [node])
  else result ++ [[node]].

(** [void bfs(int layer, result&) const] *)
Fixpoint bfs (u : t V) (layer : nat) (result : list (list (TreeNode V)))
  : M (list (list (TreeNode V))) :=
  match get (keys u) 0 with
  | None => ret result
  | Some _ =>
      node <- snapshot (2 * B - 1) 0 u ;;
      bfs_children (fun c r => bfs c (S layer) r) (2 * B) (children u)
        (push_layer layer node result)
  end.

(** [void preorder(result&) const] *)
Fixpoint preorder (u : t V) (result : list (Z * V)) : M (list (Z * V)) :=
  preorder_slots (fun c r => preorder c r) (keys u) (values u)
    (2 * B) 0 (children u) result.

End WithB.
End Node.

(** ** class BTreeMap *)

Module BTreeMap.

(** The only data member: [std::unique_ptr<Node> root], never null. *)
Record t (V : Type) : Type := mk { root : Node.t V }.

Arguments mk {V} _.
Arguments root {V} _.

(** Dereference of a [unique_ptr<Node>]. *)
Definition deref {V : Type} (p : option (Node.t V)) : M (Node.t V) := p.

Section WithB.
Context {V : Type}.
Variable B : nat.

(** [BTreeMap() : root(std::make_unique<Node>())] *)
Definition new : t V := mk (Node.empty B).

(** The [while (hi != lo)] loop of [find_it]; [fuel] bounds [hi - lo]. *)
Fixpoint find_it_loop (fuel lo hi : nat) (keys : list (option Z)) (k : Z) : Z :=
  match fuel with
  | O => Z.of_nat lo
  | S fuel' =>
      if hi =? lo then Z.of_nat lo
      else
        let m := (hi + lo) / 2 in
        let cmp := match get keys m with
                   | None => (-1)%Z
                   | Some km => Compare k km
                   end in
        if (cmp <? 0)%Z then find_it_loop fuel' lo m keys k
        else if (cmp >? 0)%Z then find_it_loop fuel' (m + 1) hi keys k
        else (- (Z.of_nat m + 1))%Z
  end.

(** [int find_it(const std::unique_ptr<K> keys[], size_t length, k) const] *)
Definition find_it (keys : list (option Z)) (length : nat) (k : Z) : Z :=
  find_it_loop length 0 length keys k.

(** [find_recursive(k, u)]; the result is the copy [*u->values[m]]. *)
Fixpoint find_recursive (k : Z) (u : Node.t V) : M (option V) :=
  let i := find_it (Node.keys u) (2 * B - 1) k in
  if (i <? 0)%Z
  then
    match get (Node.values u) (Z.to_nat (- (i + 1))) with
    | Some v => ret (Some v)
    | None => None
    end
  else
    Node.on_child (fun c => find_recursive k c) (ret None)
      (Node.children u) (Z.to_nat i).

(** What [add_recursive] does to [u] once the child at [i] has returned the
    split-off sibling [w] (possibly null). *)
Definition promote (w : option (Node.t V)) (i : nat) (u : Node.t V)
  : M (Node.t V) :=
  match w with
  | Some w =>
      let (x, w') := Node.remove B (B - 1) w in
      u' <- Node.insert B (fst x) (snd x) u ;;
      ret (Node.add_child B (Some w') i u')
  | None => ret u
  end.

(** [add_recursive(k, v, u)]: the node split off [u] (or null) and [u]
    afterwards. *)
Fixpoint add_recursive (k : Z) (v : V) (u : Node.t V)
  : M (option (Node.t V) * Node.t V) :=
  let i := find_it (Node.keys u) (2 * B - 1) k in
  if (i <? 0)%Z
  then ret (None, u)
  else
    Node.on_child
      (fun c =>
         '(w, c') <- add_recursive k v c ;;
         u' <- promote w (Z.to_nat i)
                 (Node.set_children u
                    (set (Node.children u) (Z.to_nat i) (Some c'))) ;;
         ret (Node.split B u'))
      (u' <- Node.insert B (Some k) (Some v) u ;; ret (Node.split B u'))
      (Node.children u) (Z.to_nat i).

(** [bool insert(const K& key, const V& value)] *)
Definition insert (key : Z) (value : V) (m : t V) : M (bool * t V) :=
  '(w, root') <- add_recursive key value (root m) ;;
  match w with
  | None => ret (false, mk root')
  | Some w =>
      let new_root := Node.empty B in
      let (x, w') := Node.remove B (B - 1) w in
      ret (true,
           mk (Node.mk (set (Node.keys new_root) 0 (fst x))
                       (set (Node.values new_root) 0 (snd x))
                       (set (set (Node.children new_root) 0 (Some w'))
                            1 (Some root'))))
  end.

(** [std::optional<std::unique_ptr<V>> find(const K& key) const] *)
Definition find (key : Z) (m : t V) : M (option V) :=
  find_recursive key (root m).

(** [void bfs(result&) const] *)
Definition bfs (m : t V) (result : list (list (TreeNode V)))
  : M (list (list (TreeNode V))) :=
  Node.bfs B (root m) 0 result.

(** [void preorder(result&) const] *)
Definition preorder (m : t V) (result : list (Z * V)) : M (list (Z * V)) :=
  Node.preorder B (root m) result.

(** The first loop of [merge]: entry and child [j] of [right_child] move to
    slot [i] of [left_child], for [n] more iterations. *)
Fixpoint merge_loop (n i j : nat) (lr : Node.t V * Node.t V)
  : Node.t V * Node.t V :=
  match n with
  | O => lr
  | S n' =>
      let (l, r) := lr in
      merge_loop n' (S i) (S j)
        (Node.mk (set (Node.keys l) i (get (Node.keys r) j))
                 (set (Node.values l) i (get (Node.values r) j))
                 (set (Node.children l) i (get (Node.children r) j)),
         Node.mk (set (Node.keys r) j None)
                 (set (Node.values r) j None)
                 (set (Node.children r) j None))
  end.

(** [for (i = ...; i < 2B; i++) children[i] = move(children[i+1])], with
    [n] iterations left. *)
Fixpoint close_gap (n i : nat) (cs : list (option (Node.t V)))
  : list (option (Node.t V)) :=
  match n with
  | O => cs
  | S n' => close_gap n' (S i) (move_slot cs i (i + 1))
  end.

(** [merge(parent, merge_to_idx, left_child, right_child)]; the two
    references are the slots [li] and [ri] of [parent->children]. *)
Definition merge (parent : Node.t V) (merge_to_idx li ri : nat)
  : M (Node.t V) :=
  let (e, parent1) := Node.remove B merge_to_idx parent in
  left_child <- deref (get (Node.children parent1) li) ;;
  left1 <- Node.insert B (fst e) (snd e) left_child ;;
  right_child <- deref (get (Node.children parent1) ri) ;;
  let right_child_size := Node.size B right_child in
  let (left2, right2) :=
    merge_loop right_child_size (Node.size B left1) 0 (left1, right_child) in
  let left3 :=
    Node.set_children left2
      (set (Node.children left2) (Node.size B left2)
           (get (Node.children right2) right_child_size)) in
  let right3 :=
    Node.set_children right2
      (set (Node.children right2) right_child_size None) in
  let cs := set (set (Node.children parent1) li (Some left3)) ri (Some right3) in
  ret (Node.set_children parent1
         (close_gap (2 * B - (merge_to_idx + 1)) (merge_to_idx + 1) cs)).

(** [borrow_from_right(parent, child_idx, child, right_sibling)]; the two
    references are the slots [ci] and [ri] of [parent->children]. *)
Definition borrow_from_right (parent : Node.t V) (child_idx ci ri : nat)
  : M (Node.t V) :=
  right_sibling <- deref (get (Node.children parent) ri) ;;
  let (e, right1) := Node.remove B 0 right_sibling in
  let (p, parent1) := Node.remove B child_idx parent in
  parent2 <- Node.insert B (fst e) (snd e) parent1 ;;
  child <- deref (get (Node.children parent) ci) ;;
  child1 <- Node.insert B (fst p) (snd p) child ;;
  ret (Node.set_children parent2
         (set (set (Node.children parent2) ri (Some right1)) ci (Some child1))).

(** [borrow_from_left(parent, child_idx, child, left_sibling)]; the two
    references are the slots [ci] and [li] of [parent->children].
    [left_sibling->size() - 1] wraps around when the size is 0, and the
    index is then outside the array. *)
Definition borrow_from_left (parent : Node.t V) (child_idx ci li : nat)
  : M (Node.t V) :=
  left_sibling <- deref (get (Node.children parent) li) ;;
  match Node.size B left_sibling with
  | O => None
  | S last =>
      let (e, left1) := Node.remove B last left_sibling in
      let (p, parent1) := Node.remove B (child_idx - 1) parent in
      parent2 <- Node.insert B (fst e) (snd e) parent1 ;;
      child <- deref (get (Node.children parent) ci) ;;
      child1 <- Node.insert B (fst p) (snd p) child ;;
      ret (Node.set_children parent2
             (set (set (Node.children parent2) li (Some left1)) ci (Some child1)))
  end.

(** The size test on a sibling, evaluated only when the sibling is said to
    exist: [has_sibling && parent->children[idx]->size() <= B]. *)
Definition sibling_small (has_sibling : bool) (parent : Node.t V) (idx : nat)
  : M bool :=
  if has_sibling
  then s <- deref (get (Node.children parent) idx) ;; ret (Node.size B s <=? B)
  else ret false.

(** [check_child_underflow(parent, child, child_idx)], where [child] is the
    slot [child_idx] of [parent->children]. *)
Definition check_child_underflow (parent : Node.t V) (child_idx : nat)
  : M (Node.t V) :=
  match get (Node.children parent) child_idx with
  | None => ret parent
  | Some child =>
      if Node.size B child <? B - 1
      then
        let has_left_sibling := negb (child_idx =? 0) in
        let has_right_sibling :=
          (child_idx <? 2 * B)
          && is_some (get (Node.children parent) (child_idx + 1)) in
        left_small <- sibling_small has_left_sibling parent (child_idx - 1) ;;
        if left_small
        then merge parent (child_idx - 1) (child_idx - 1) child_idx
        else
          right_small <- sibling_small has_right_sibling parent (child_idx + 1) ;;
          if right_small
          then merge parent child_idx child_idx (child_idx + 1)
          else if has_left_sibling
          then borrow_from_left parent child_idx child_idx (child_idx - 1)
          else if has_right_sibling
          then borrow_from_right parent child_idx child_idx (child_idx + 1)
          else ret parent
      else ret parent
  end.

(** [remove_smallest(u)]: the removed element and [u] afterwards. *)
Fixpoint remove_smallest (u : Node.t V) : M (Element V * Node.t V) :=
  Node.on_child
    (fun c =>
       '(e, c') <- remove_smallest c ;;
       u' <- check_child_underflow
               (Node.set_children u (set (Node.children u) 0 (Some c'))) 0 ;;
       ret (e, u'))
    (ret (Node.remove B 0 u))
    (Node.children u) 0.

(** The branch of [erase_recursive] taken when the key is found in [u], at
    index [i]. *)
Definition erase_here (i : nat) (u : Node.t V)
  : M (option (option V) * Node.t V) :=
  let (e, u1) := Node.remove B i u in
  if negb (Node.is_leaf u1)
  then
    c <- deref (get (Node.children u1) (i + 1)) ;;
    '(borrow, c') <- remove_smallest c ;;
    let u2 := Node.set_children u1 (set (Node.children u1) (i + 1) (Some c')) in
    u3 <- Node.insert B (fst borrow) (snd borrow) u2 ;;
    u4 <- check_child_underflow u3 (i + 1) ;;
    ret (Some (snd e), u4)
  else ret (Some (snd e), u1).

(** [erase_recursive(k, u)]: the optional removed value (a unique pointer)
    and [u] afterwards. *)
Fixpoint erase_recursive (k : Z) (u : Node.t V)
  : M (option (option V) * Node.t V) :=
  let i := find_it (Node.keys u) (2 * B - 1) k in
  if (i <? 0)%Z
  then erase_here (Z.to_nat (- (i + 1))) u
  else
    Node.on_child
      (fun c =>
         '(r, c') <- erase_recursive k c ;;
         let u1 :=
           Node.set_children u
             (set (Node.children u) (Z.to_nat i) (Some c')) in
         match r with
         | Some _ => u2 <- check_child_underflow u1 (Z.to_nat i) ;; ret (r, u2)
         | None => ret (None, u1)
         end)
      (ret (None, u))
      (Node.children u) (Z.to_nat i).

(** [std::optional<std::unique_ptr<V>> erase(const K& key)] *)
Definition erase (key : Z) (m : t V) : M (option (option V) * t V) :=
  '(r, root1) <- erase_recursive key (root m) ;;
  if (Node.size B root1 =? 0) && is_some (get (Node.children root1) 0)
  then root2 <- deref (get (Node.children root1) 0) ;; ret (r, mk root2)
  else ret (r, mk root1).

End WithB.
End BTreeMap.

(** ** Driving the public interface *)

(** One call of the public interface, as the demonstration program and the
    test harness issue them. *)
Inductive Op (V : Type) : Type :=
  | Insert (key : Z) (value : V)
  | Erase (key : Z).

Arguments Insert {V} _ _.
Arguments Erase {V} _.

(** Perform one call, dropping its result. *)
Definition step {V : Type} (B : nat) (o : Op V) (m : BTreeMap.t V)
  : M (BTreeMap.t V) :=
  match o with
  | Insert k v => '(_, m') <- BTreeMap.insert B k v m ;; ret m'
  | Erase k => '(_, m') <- BTreeMap.erase B k m ;; ret m'
  end.

(** Perform a sequence of calls, left to right. *)
Fixpoint run {V : Type} (B : nat) (ops : list (Op V)) (m : BTreeMap.t V)
  : M (BTreeMap.t V) :=
  match ops with
  | [] => ret m
  | o :: ops' => m' <- step B o m ;; run B ops' m'
  end.

(** [std::to_string] on an [int]. *)
Definition to_string (z : Z) : String.string :=
  DecimalString.NilZero.string_of_int (Z.to_int z).

(** The keys of a breadth-first snapshot, layer by layer, as
    [check_btree_correctness] compares them. *)
Definition layer_keys {V : Type} (result : list (list (TreeNode V)))
  : list (list (list Z)) :=
  map (map (map fst)) result.

(** ** algorithm_coverage_tests (btree_map_test.cpp) *)

Module Test.

Definition B_FACTOR : nat := 3.

(** The inner loop, [for (i = ...; i < 10; i++) map.insert(i*5 + j, ...)],
    with [n] iterations left. *)
Fixpoint fill_row (n : nat) (i j : Z) : list (Op String.string) :=
  match n with
  | O => []
  | S n' =>
      Insert (i * (Z.of_nat B_FACTOR * 2 - 1) + j)
             (to_string (i * (Z.of_nat B_FACTOR * 2 - 1) + j + 1))
      :: fill_row n' (i + 1) j
  end%Z.

(** The outer loop, [for (j = ...; j < B_FACTOR * 2; j++)]. *)
Fixpoint fill (n : nat) (j : Z) : list (Op String.string) :=
  match n with
  | O => []
  | S n' => fill_row 10 0 j ++ fill n' (j + 1)%Z
  end.

(** The map once both loops have run. *)
Definition filled : M (BTreeMap.t String.string) :=
  run B_FACTOR (fill (B_FACTOR * 2) 0) (BTreeMap.new B_FACTOR).

Definition expected_keys : list (list (list Z)) :=
  [ [ [15; 31] ];
    [ [2; 5; 10]; [18; 21; 25]; [35; 40; 43; 46] ];
    [ [0; 1]; [3; 4]; [6; 7; 8; 9]; [11; 12; 13; 14]; [16; 17]; [19; 20];
      [22; 23; 24]; [26; 27; 28; 29; 30]; [32; 33; 34]; [36; 37; 38; 39];
      [41; 42]; [44; 45]; [47; 48; 49; 50] ] ]%Z.

Definition expected_keys_1 : list (list (list Z)) :=
  [ [ [15; 31] ];
    [ [2; 5; 10]; [18; 21; 25]; [35; 40; 46] ];
    [ [0; 1]; [3; 4]; [6; 7; 8; 9]; [11; 12; 13; 14]; [16; 17]; [19; 20];
      [22; 23; 24]; [26; 27; 28; 29; 30]; [32; 33; 34]; [36; 37; 38; 39];
      [41; 42; 43; 45]; [47; 48; 49; 50] ] ]%Z.

End Test.

(** ** A short script with B = 2 *)

Module Script.

Definition B_FACTOR : nat := 2.

Definition put (k : Z) : Op String.string := Insert k (to_string (k + 1)).

(** Twelve insertions in ascending order, then one erase of the smallest
    key. *)
Definition ops : list (Op String.string) :=
  map put [10; 20; 30; 40; 50; 60; 70; 80; 90; 100; 110; 120]%Z
  ++ [Erase 10%Z].

Definition before_erase : M (BTreeMap.t String.string) :=
  run B_FACTOR (map put [10; 20; 30; 40; 50; 60; 70; 80; 90; 100; 110; 120]%Z)
    (BTreeMap.new B_FACTOR).

Definition after_erase : M (BTreeMap.t String.string) :=
  run B_FACTOR ops (BTreeMap.new B_FACTOR).

(** Three more insertions on top of [ops]. *)
Definition more : list (Op String.string) :=
  ops ++ map put [41; 42; 43]%Z.

Definition after_more : M (BTreeMap.t String.string) :=
  run B_FACTOR more (BTreeMap.new B_FACTOR).

(** Listing of the keys, as [check_btree_sanity] reads it. *)
Definition listing (m : M (BTreeMap.t String.string)) : M (list Z) :=
  t <- m ;; l <- BTreeMap.preorder B_FACTOR t [] ;; ret (map fst l).

End Script.

(** ** Specification vocabulary *)

(** An array of [n] unique pointers whose first slots hold [l], the rest
    being null. *)
Definition pad {A : Type} (n : nat) (l : list A) : list (option A) :=
  map Some l ++ repeat None (n - length l).

(** The effect on one pair of arrays of a loop that runs [n] times
    [dst[i] = std::move(src[j]); i++; j++]. *)
Fixpoint hand_over {A : Type} (n i j : nat) (ds : list (option A) * list (option A))
  : list (option A) * list (option A) :=
  match n with
  | O => ds
  | S n' =>
      hand_over n' (S i) (S j)
        (set (fst ds) i (get (snd ds) j), set (snd ds) j None)
  end.

(** The effect on one array of a loop that runs [n] times
    [a[i] = std::move(a[i + d]); i++]. *)
Fixpoint slide {A : Type} (n i d : nat) (a : list (option A))
  : list (option A) :=
  match n with
  | O => a
  | S n' => slide n' (S i) d (move_slot a i (i + d))
  end.

(** The node whose populated entries are [es] and whose populated child
    slots are [cs], in this order, for branching parameter [B]. *)
Definition node_of {V : Type} (B : nat) (es : list (Z * V))
  (cs : list (Node.t V)) : Node.t V :=
  Node.mk (pad (2 * B) (map fst es)) (pad (2 * B) (map snd es))
          (pad (2 * B + 1) cs).

(** Ordered insertion into a list of entries: before the first entry whose
    key is not smaller than [k]. *)
Fixpoint ins {V : Type} (k : Z) (v : V) (es : list (Z * V)) : list (Z * V) :=
  match es with
  | [] => [(k, v)]
  | e :: r => if (fst e <? k)%Z then e :: ins k v r else (k, v) :: es
  end.

(** Number of leading keys smaller than [k]. *)
Fixpoint lead (k : Z) (ks : list Z) : nat :=
  match ks with
  | [] => 0
  | x :: r => if (x <? k)%Z then S (lead k r) else 0
  end.

(** What the binary search answers on the ascending keys [ks]: the
    encoded slot of [k] when it is there, else the number of smaller keys. *)
Definition located (k : Z) (ks : list Z) : Z :=
  match nth_error ks (lead k ks) with
  | Some x => if (x =? k)%Z then (- (Z.of_nat (lead k ks) + 1))%Z
              else Z.of_nat (lead k ks)
  | None => Z.of_nat (lead k ks)
  end.

(** The value stored under [k] in a list of entries. *)
Fixpoint lookup {V : Type} (k : Z) (es : list (Z * V)) : option V :=
  match es with
  | [] => None
  | e :: r => if (fst e =? k)%Z then Some (snd e) else lookup k r
  end.

(** In-order listing of a node from the listings [ls] of its children and
    its own entries [es]: child, entry, child, entry, ... *)
Fixpoint interleave {E : Type} (ls : list (list E)) (es : list E) : list E :=
  match ls with
  | [] => es
  | l :: ls' =>
      l ++ match es with
           | [] => interleave ls' []
           | e :: es' => e :: interleave ls' es'
           end
  end.

(** Strictly ascending, no duplicates. *)
Fixpoint ascending (l : list Z) : Prop :=
  match l with
  | [] => True
  | x :: r => Forall (fun y => (x < y)%Z) r /\ ascending r
  end.

(** Entries ascending in their keys. *)
Definition asc {V : Type} (l : list (Z * V)) : Prop := ascending (map fst l).

(** The check of [check_btree_sanity]: every element is smaller than its
    successor. *)
Fixpoint sanity (l : list Z) : bool :=
  match l with
  | x :: (y :: _) as r => (x <? y)%Z && sanity r
  | _ => true
  end.

(** [bt B h m u l]: [u] is the root of a subtree of height [h] in which all
    leaves are [h] levels down, every node below [u] holds between [B-1]
    and [2B-1] entries, [u] itself between [m] and [2B-1], every internal
    node has one child more than entries, and [l] is the in-order
    listing. *)
Fixpoint bt {V : Type} (B h m : nat) (u : Node.t V) (l : list (Z * V))
  {struct h} : Prop :=
  match h with
  | O => m <= length l <= 2 * B - 1 /\ u = node_of B l []
  | S h' =>
      exists es cs ls,
        u = node_of B es cs /\ l = interleave ls es /\
        m <= length es <= 2 * B - 1 /\ length cs = S (length es) /\
        Forall2 (bt B h' (B - 1)) cs ls
  end.

(** What [add_recursive] returns on a subtree [u] of height [h] with
    listing [l]: nothing changes when [k] is listed; otherwise either [u]
    has grown into a subtree listing [ins k v l], or it has been split in
    two subtrees around an entry [x], which is still the last entry of the
    new node. *)
Definition added {V : Type} (B h m : nat) (k : Z) (v : V) (u : Node.t V)
  (l : list (Z * V)) (r : option (Node.t V) * Node.t V) : Prop :=
  (In k (map fst l) /\ r = (None, u)) \/
  (~ In k (map fst l) /\
   ((exists u', r = (None, u') /\ bt B h m u' (ins k v l)) \/
    (exists es1 x es2 cs1 cs2 l1 l2,
       r = (Some (node_of B (es1 ++ [x]) cs1), node_of B es2 cs2) /\
       length es1 = B - 1 /\ length cs1 <= 2 * B + 1 /\
       bt B h (B - 1) (node_of B es1 cs1) l1 /\
       bt B h (B - 1) (node_of B es2 cs2) l2 /\
       ins k v l = l1 ++ x :: l2))).

(** A well-formed map: a B-tree whose in-order listing [l] is strictly
    ascending in the keys. *)
Definition wf {V : Type} (B : nat) (m : BTreeMap.t V) (l : list (Z * V))
  : Prop :=
  exists h, bt B h 0 (BTreeMap.root m) l /\ asc l.

(** Number of levels below [u] along the first child slots. *)
Fixpoint height {V : Type} (u : Node.t V) : nat :=
  Node.on_child (fun c => S (height c)) 0 (Node.children u) 0.

(** Number of populated slots. *)
Definition populated {A : Type} (a : list (option A)) : nat :=
  length (filter is_some a).

(** Occupancy of the subtree at [u]: a non-root node holds between [B-1]
    and [2B-1] keys, and between [B] and [2B] children if it is internal;
    the root holds at most [2B-1] keys. *)
Fixpoint occupancy {V : Type} (B : nat) (is_root : bool) (u : Node.t V)
  : bool :=
  (Node.size B u <=? 2 * B - 1)
  && (is_root || (B - 1 <=? Node.size B u))
  && (is_root || Node.is_leaf u
      || ((B <=? populated (Node.children u))
          && (populated (Node.children u) <=? 2 * B)))
  && forallb (fun c => match c with
                       | Some c => occupancy B false c
                       | None => true
                       end) (Node.children u).

(** Depths of the leaves of the subtree at [u], itself at depth [d]. *)
Fixpoint leaf_depths {V : Type} (d : nat) (u : Node.t V) : list nat :=
  if Node.is_leaf u then [d]
  else flat_map (fun c => match c with
                          | Some c => leaf_depths (S d) c
                          | None => []
                          end) (Node.children u).

(** All leaves at one depth. *)
Definition balanced {V : Type} (u : Node.t V) : Prop :=
  exists d, Forall (fun x => x = d) (leaf_depths 0 u).

(** [key] is stored under some node of the tree, reachable or not by the
    search. *)
Definition stored {V : Type} (B : nat) (key : Z) (m : BTreeMap.t V) : Prop :=
  exists l, BTreeMap.preorder B m [] = Some l /\ In key (map fst l).

(** [add_recursive] up to its final call of [split]: the state of [u] on
    which [split] is called, or nothing when the key is found in [u]. *)
Definition add_no_split {V : Type} (B : nat) (k : Z) (v : V) (u : Node.t V)
  : M (option (Node.t V)) :=
  let i := BTreeMap.find_it (Node.keys u) (2 * B - 1) k in
  if (i <? 0)%Z then ret None
  else
    match get (Node.children u) (Z.to_nat i) with
    | Some c =>
        '(w, c') <- BTreeMap.add_recursive B k v c ;;
        u' <- BTreeMap.promote B w (Z.to_nat i)
                (Node.set_children u
                   (set (Node.children u) (Z.to_nat i) (Some c'))) ;;
        ret (Some u')
    | None => u' <- Node.insert B (Some k) (Some v) u ;; ret (Some u')
    end.

(** The receiver of [split] holds [2B] keys: the transient overflow. *)
Definition overflowed {V : Type} (B : nat) (u : Node.t V) : Prop :=
  Node.size B u = 2 * B.

(** The populated slots of an array, in order. *)
Definition somes {A : Type} (a : list (option A)) : list A :=
  flat_map (fun o => match o with Some x => [x] | None => [] end) a.

(** The entries and the children a node holds. *)
Definition entries {V : Type} (u : Node.t V) : list (Z * V) :=
  combine (somes (Node.keys u)) (somes (Node.values u)).

Definition kids {V : Type} (u : Node.t V) : list (Node.t V) :=
  somes (Node.children u).

(** A node of one level of a B-tree: its slots are filled from the front,
    it holds at most [2B-1] entries, and no child if the level is the leaf
    level, else one child more than entries. *)
Definition packed {V : Type} (B : nat) (leaf_level : bool) (u : Node.t V)
  : Prop :=
  u = node_of B (entries u) (kids u) /\
  length (entries u) <= 2 * B - 1 /\
  if leaf_level then kids u = [] else length (kids u) = S (length (entries u)).

(** Two siblings merged around their separator [p]. *)
Definition merged {V : Type} (B : nat) (l : Node.t V) (p : Z * V)
  (r : Node.t V) : Node.t V :=
  node_of B (entries l ++ p :: entries r) (kids l ++ kids r).

(** [rebalanced B pes pcs idx child parent']: the node that
    [check_child_underflow] makes of the parent with entries [pes] and
    children [pcs] when its child number [idx], [child], has underflowed,
    slot for slot.  One constructor per branch of the code, each with the
    condition under which the code takes it.  [merge] moves the children
    of the node it empties along with its entries.  [borrow_from_left] and
    [borrow_from_right] move one entry through the parent and no child:
    between leaves there is none to move; between internal nodes the
    lender keeps a child more than a node of its entries has, and the
    borrower one fewer. *)
Inductive rebalanced {V : Type} (B : nat) (pes : list (Z * V))
  (pcs : list (Node.t V)) (idx : nat) (child : Node.t V)
  : Node.t V -> Prop :=
  | by_merge_left E1 p E2 C1 l C2 :
      pes = E1 ++ p :: E2 -> pcs = C1 ++ l :: child :: C2 ->
      length E1 = length C1 -> idx = S (length C1) ->
      length (entries l) <= B ->
      rebalanced B pes pcs idx child
        (node_of B (E1 ++ E2) (C1 ++ merged B l p child :: C2))
  | by_merge_right E1 p E2 C1 r C2 :
      pes = E1 ++ p :: E2 -> pcs = C1 ++ child :: r :: C2 ->
      length E1 = length C1 -> idx = length C1 ->
      (forall C0 l, C1 = C0 ++ [l] -> B < length (entries l)) ->
      length (entries r) <= B ->
      rebalanced B pes pcs idx child
        (node_of B (E1 ++ E2) (C1 ++ merged B child p r :: C2))
  | by_borrow_left E1 p E2 C1 l C2 e les :
      pes = E1 ++ p :: E2 -> pcs = C1 ++ l :: child :: C2 ->
      length E1 = length C1 -> idx = S (length C1) ->
      B < length (entries l) ->
      (forall r C3, C2 = r :: C3 -> B < length (entries r)) ->
      entries l = les ++ [e] ->
      rebalanced B pes pcs idx child
        (node_of B (E1 ++ e :: E2)
           (C1 ++ node_of B les (kids l)
               :: node_of B (p :: entries child) (kids child) :: C2))
  | by_borrow_right p E2 r C2 e res :
      pes = p :: E2 -> pcs = child :: r :: C2 -> idx = 0 ->
      B < length (entries r) ->
      entries r = e :: res ->
      rebalanced B pes pcs idx child
        (node_of B (e :: E2)
           (node_of B (entries child ++ [p]) (kids child)
              :: node_of B res (kids r) :: C2)).

(** [rule_applied B pes pcs idx child parent']: the rule the parent with
    entries [pes] and children [pcs] has applied to its underflowed child
    number [idx], [child], and where the keys and values have gone.  One
    constructor per rule, each with the condition under which it is the
    first that applies: the left sibling is looked at before the right
    one, and merging comes before borrowing.  A merge is given whole: the
    two siblings become one node around their separator.  Of a borrowing
    rule the relation gives the key/value movement only: the lender keeps
    its entries but the one lent, the parent has the lent entry in the
    place of the separator, the borrower has the separator at the end that
    faces the lender; the children [lk] and [ck] of the two nodes are left
    open. *)
Inductive rule_applied {V : Type} (B : nat) (pes : list (Z * V))
  (pcs : list (Node.t V)) (idx : nat) (child : Node.t V)
  : Node.t V -> Prop :=
  | rule_merge_left E1 p E2 C1 l C2 :
      pes = E1 ++ p :: E2 -> pcs = C1 ++ l :: child :: C2 ->
      length E1 = length C1 -> idx = S (length C1) ->
      length (entries l) <= B ->
      rule_applied B pes pcs idx child
        (node_of B (E1 ++ E2) (C1 ++ merged B l p child :: C2))
  | rule_merge_right E1 p E2 C1 r C2 :
      pes = E1 ++ p :: E2 -> pcs = C1 ++ child :: r :: C2 ->
      length E1 = length C1 -> idx = length C1 ->
      (forall C0 l, C1 = C0 ++ [l] -> B < length (entries l)) ->
      length (entries r) <= B ->
      rule_applied B pes pcs idx child
        (node_of B (E1 ++ E2) (C1 ++ merged B child p r :: C2))
  | rule_borrow_left E1 p E2 C1 l C2 e les lk ck :
      pes = E1 ++ p :: E2 -> pcs = C1 ++ l :: child :: C2 ->
      length E1 = length C1 -> idx = S (length C1) ->
      B < length (entries l) ->
      (forall r C3, C2 = r :: C3 -> B < length (entries r)) ->
      entries l = les ++ [e] ->
      rule_applied B pes pcs idx child
        (node_of B (E1 ++ e :: E2)
           (C1 ++ node_of B les lk
               :: node_of B (p :: entries child) ck :: C2))
  | rule_borrow_right p E2 r C2 e res ck rk :
      pes = p :: E2 -> pcs = child :: r :: C2 -> idx = 0 ->
      B < length (entries r) ->
      entries r = e :: res ->
      rule_applied B pes pcs idx child
        (node_of B (e :: E2)
           (node_of B (entries child ++ [p]) ck
              :: node_of B res rk :: C2)).

(** The node {35, 40, 46} of [algorithm_coverage_tests] with its four
    leaves, at the moment [erase(45)] has taken key 45 out of the leaf
    {41, 45}: the third child has underflowed, and both its neighbours hold
    four entries. *)
Definition row (ks : list Z) : list (Z * String.string) :=
  map (fun k => (k, to_string (k + 1))) ks.

Definition squeezed_leaves : list (Node.t String.string) :=
  map (fun ks => node_of 3 (row ks) [])
    [ [32; 33; 34]; [36; 37; 38; 39]; [41]; [47; 48; 49; 50] ]%Z.

Definition squeezed : Node.t String.string :=
  node_of 3 (row [35; 40; 46]%Z) squeezed_leaves.

(** A root leaf that holds [2B - 1 = 3] entries, for B = 2, and the map
    made of it. *)
Definition full_leaf_entries : list (Z * String.string) :=
  [(10, to_string 11); (20, to_string 21); (30, to_string 31)]%Z.

Definition full_leaf : BTreeMap.t String.string :=
  BTreeMap.mk (node_of 2 full_leaf_entries []).

(** ** Vocabulary of the further properties *)

(** What one call [insert(k, v)] makes of the listing [l]: nothing when
    [k] is listed already. *)
Definition ins_new {V : Type} (l : list (Z * V)) (e : Z * V)
  : list (Z * V) :=
  match lookup (fst e) l with
  | Some _ => l
  | None => ins (fst e) (snd e) l
  end.

(** The calls [insert(k, v)] for the pairs of [kvs], in this order. *)
Definition inserts {V : Type} (kvs : list (Z * V)) : list (Op V) :=
  map (fun e => Insert (fst e) (snd e)) kvs.

(** The listing without its first entry of key [k]. *)
Fixpoint del {V : Type} (k : Z) (l : list (Z * V)) : list (Z * V) :=
  match l with
  | [] => []
  | e :: r => if (fst e =? k)%Z then r else e :: del k r
  end.

(** The nodes [d] levels below [u], from left to right, each as the list
    of its entries. *)
Fixpoint nodes_at {V : Type} (d : nat) (u : Node.t V) : list (TreeNode V) :=
  match d with
  | O => [entries u]
  | S d' => flat_map (nodes_at d') (kids u)
  end.

(** The layers [0 .. h] of the subtree at [u]. *)
Definition levels {V : Type} (h : nat) (u : Node.t V)
  : list (list (TreeNode V)) :=
  map (fun d => nodes_at d u) (seq 0 (S h)).

(** Layer by layer concatenation; the longer list keeps its tail. *)
Fixpoint zip_app {A : Type} (R lv : list (list A)) : list (list A) :=
  match R, lv with
  | r :: R', x :: lv' => (r ++ x) :: zip_app R' lv'
  | [], _ => lv
  | _, [] => R
  end.

(** [check_btree_sanity(map)] of the stress test: the listing is read with
    [preorder] and every element compared with its successor; the result
    is whether all its assertions hold. *)
Definition check_btree_sanity {V : Type} (B : nat) (m : BTreeMap.t V)
  : M bool :=
  l <- BTreeMap.preorder B m [] ;; ret (sanity (map fst l)).

(** The least number of entries in the root of a tree of height [h] that
    insertions have built: none for a leaf, one for an internal node. *)
Definition root_min (h : nat) : nat :=
  match h with
  | O => 0
  | S _ => 1
  end.

(** [f] on the children [cs], from left to right, threading the result. *)
Fixpoint each {V R : Type} (f : Node.t V -> R -> M R) (cs : list (Node.t V))
  (result : R) : M R :=
  match cs with
  | [] => ret result
  | c :: cs' => result' <- f c result ;; each f cs' result'
  end.

(** The layers [lv] added to the layers [layer], [layer + 1], ... of
    [result]. *)
Definition deposit {A : Type} (layer : nat) (lv result : list (list A))
  : list (list A) :=
  firstn layer result ++ zip_app (skipn layer result) lv.

(** What one call makes of the listing [l]. *)
Definition apply_op {V : Type} (l : list (Z * V)) (o : Op V)
  : list (Z * V) :=
  match o with
  | Insert k v => ins_new l (k, v)
  | Erase k => del k l
  end.

(** The length of the longest listing along a run of calls. *)
Fixpoint peak {V : Type} (ops : list (Op V)) (l : list (Z * V)) : nat :=
  match ops with
  | [] => length l
  | o :: ops' => Nat.max (length l) (peak ops' (apply_op l o))
  end.

(** A map of height [h] as the calls build it: a B-tree whose root holds
    an entry unless it is a leaf, with the ascending listing [l]. *)
Definition grown {V : Type} (B h : nat) (m : BTreeMap.t V)
  (l : list (Z * V)) : Prop :=
  bt B h (root_min h) (BTreeMap.root m) l /\ asc l.

(** A leaf that holds between [B - 1] and [2B - 1] entries. *)
Definition leaf_ok {V : Type} (B : nat) (c : Node.t V) : Prop :=
  c = node_of B (entries c) [] /\ B - 1 <= length (entries c) <= 2 * B - 1.

(** The layers below the children [cs], each child [h] levels high. *)
Fixpoint below {V : Type} (h : nat) (cs : list (Node.t V))
  : list (list (TreeNode V)) :=
  match cs with
  | [] => []
  | c :: cs' => zip_app (levels h c) (below h cs')
  end.

(** A map of two levels for B = 2: the root {20} over the leaves {10} and
    {30, 40}. *)
Definition two_level : BTreeMap.t String.string :=
  BTreeMap.mk
    (node_of 2 (row [20]%Z)
       [node_of 2 (row [10]%Z) []; node_of 2 (row [30; 40]%Z) []]).

(** [holds u k v]: some node of the subtree at [u] has the key [k] in a
    slot and the value [v] in the slot of the same index. *)
Inductive holds {V : Type} : Node.t V -> Z -> V -> Prop :=
  | holds_here u i k v :
      get (Node.keys u) i = Some k -> get (Node.values u) i = Some v ->
      holds u k v
  | holds_below u i c k v :
      get (Node.children u) i = Some c -> holds c k v -> holds u k v.

(** The map the script of twelve insertions and one erase leaves, with
    B = 2. *)
Definition damaged : BTreeMap.t String.string :=
  match Script.after_erase with
  | Some m => m
  | None => BTreeMap.new 2
  end.

(** * Proofs *)

#[local] Arguments Nat.mul : simpl never.
#[local] Arguments Nat.sub : simpl never.

(** ** Arrays *)

Lemma length_set {A : Type} (a : list A) (i : nat) (x : A) :
  length (set a i x) = length a.
Proof.
  revert i; induction a as [|h t IH]; intros [|i]; simpl; auto.
Qed.

Lemma nth_set {A : Type} (a : list A) (i j : nat) (x d : A) :
  nth j (set a i x) d = if (i =? j) && (i <? length a) then x else nth j a d.
Proof.
  revert i j; induction a as [|h t IH]; intros i j; simpl.
  - destruct i, j; simpl; try rewrite andb_false_r; auto.
  - destruct i as [|i], j as [|j]; simpl; auto.
Qed.

Lemma get_set {A : Type} (a : list (option A)) (i j : nat) (x : option A) :
  get (set a i x) j = if (i =? j) && (i <? length a) then x else get a j.
Proof. apply nth_set. Qed.

Lemma get_set_eq {A : Type} (a : list (option A)) (i : nat) (x : option A) :
  i < length a -> get (set a i x) i = x.
Proof.
  intros H. rewrite get_set, Nat.eqb_refl.
  destruct (Nat.ltb_spec i (length a)); [reflexivity | lia].
Qed.

Lemma get_set_ne {A : Type} (a : list (option A)) (i j : nat) (x : option A) :
  i <> j -> get (set a i x) j = get a j.
Proof.
  intros H. rewrite get_set.
  destruct (Nat.eqb_spec i j); [contradiction | reflexivity].
Qed.

Lemma get_beyond {A : Type} (a : list (option A)) (i : nat) :
  length a <= i -> get a i = None.
Proof. intros H. apply nth_overflow; exact H. Qed.

Lemma length_move_slot {A : Type} (a : list (option A)) (dst src : nat) :
  length (move_slot a dst src) = length a.
Proof. unfold move_slot. now rewrite !length_set. Qed.

Lemma get_move_slot {A : Type} (a : list (option A)) (dst src j : nat) :
  dst < length a -> src < length a -> dst <> src ->
  get (move_slot a dst src) j =
  if j =? src then None else if j =? dst then get a src else get a j.
Proof.
  intros Hd Hs Hne. unfold move_slot.
  rewrite get_set, length_set.
  destruct (Nat.eqb_spec src j) as [->|Hsj].
  - rewrite Nat.eqb_refl.
    destruct (Nat.ltb_spec j (length a)); [reflexivity | lia].
  - simpl. destruct (Nat.eqb_spec j src); [congruence|].
    rewrite get_set.
    destruct (Nat.eqb_spec dst j) as [->|Hdj].
    + rewrite Nat.eqb_refl.
      destruct (Nat.ltb_spec j (length a)); [reflexivity | lia].
    + simpl. destruct (Nat.eqb_spec j dst); [congruence | reflexivity].
Qed.

(** Two arrays of the same length with the same slots are equal. *)
Lemma arr_ext {A : Type} (a b : list (option A)) :
  length a = length b -> (forall i, i < length a -> get a i = get b i) -> a = b.
Proof.
  intros Hl H. apply nth_ext with (d := None) (d' := None); assumption.
Qed.

Lemma length_pad {A : Type} (n : nat) (l : list A) :
  length l <= n -> length (pad n l) = n.
Proof.
  intros H. unfold pad. rewrite length_app, length_map, repeat_length. lia.
Qed.

Lemma get_some_nones {A : Type} (l : list A) (r i : nat) :
  get (map Some l ++ repeat None r) i = nth_error l i.
Proof.
  unfold get. revert i.
  induction l as [|x l IH]; intros i; simpl.
  - destruct (Nat.lt_ge_cases i r) as [H|H].
    + rewrite nth_repeat_lt by exact H. now destruct i.
    + rewrite nth_overflow by (rewrite repeat_length; exact H). now destruct i.
  - destruct i; simpl; [reflexivity | apply IH].
Qed.

Lemma get_pad {A : Type} (n : nat) (l : list A) (i : nat) :
  get (pad n l) i = nth_error l i.
Proof. apply get_some_nones. Qed.

Lemma get_pad_lt {A : Type} (n : nat) (l : list A) (i : nat) (d : A) :
  i < length l -> get (pad n l) i = Some (nth i l d).
Proof.
  intros H. rewrite get_pad. apply nth_error_nth'. exact H.
Qed.

Lemma get_pad_ge {A : Type} (n : nat) (l : list A) (i : nat) :
  length l <= i -> get (pad n l) i = None.
Proof.
  intros H. rewrite get_pad. apply nth_error_None. exact H.
Qed.

(** An array is a padded list as soon as its slots say so. *)
Lemma pad_intro {A : Type} (n : nat) (l : list A) (a : list (option A)) :
  length a = n -> length l <= n ->
  (forall i, i < n -> get a i = nth_error l i) -> a = pad n l.
Proof.
  intros Ha Hl H. apply arr_ext.
  - rewrite length_pad; assumption.
  - intros i Hi. rewrite get_pad. apply H. lia.
Qed.

Lemma Compare_gt (a b : Z) : (Compare a b >? 0)%Z = (b <? a)%Z.
Proof.
  unfold Compare.
  destruct (Z.gtb_spec a b), (Z.ltb_spec a b), (Z.ltb_spec b a);
    simpl; try reflexivity; lia.
Qed.

Lemma Compare_lt (a b : Z) : (Compare a b <? 0)%Z = (a <? b)%Z.
Proof.
  unfold Compare.
  destruct (Z.gtb_spec a b), (Z.ltb_spec a b);
    simpl; try reflexivity; lia.
Qed.

(** The shifting loop, slot by slot. *)
Lemma shift_slots_spec {A : Type} (j i : nat) :
  forall (a : list (option A)),
  j < length a ->
  length (shift_slots j i a) = length a /\
  forall x,
    get (shift_slots j i a) x =
    if (i <? x) && (x <=? j) then get a (x - 1)
    else if (x =? i) && (i <? j) then None
    else get a x.
Proof.
  induction j as [|j IH]; intros a Hj; simpl.
  - split; [reflexivity|]. intros x.
    destruct (Nat.ltb_spec i x), (Nat.leb_spec x 0), (Nat.eqb_spec x i),
      (Nat.ltb_spec i 0); simpl; try reflexivity; lia.
  - destruct (Nat.ltb_spec i (S j)) as [Hi|Hi].
    + destruct (IH (move_slot a (S j) j)) as [Hl Hg].
      { rewrite length_move_slot. lia. }
      split; [rewrite Hl; apply length_move_slot|].
      intros x. rewrite Hg.
      rewrite !get_move_slot by lia.
      destruct (Nat.ltb_spec i x), (Nat.leb_spec x j), (Nat.leb_spec x (S j)),
        (Nat.eqb_spec x i), (Nat.ltb_spec i j), (Nat.eqb_spec (x - 1) j),
        (Nat.eqb_spec (x - 1) (S j)), (Nat.eqb_spec x j),
        (Nat.eqb_spec x (S j)); simpl; try reflexivity; try lia;
        subst; try (f_equal; lia).
    + split; [reflexivity|]. intros x.
      destruct (Nat.ltb_spec i x), (Nat.leb_spec x (S j)), (Nat.eqb_spec x i);
        simpl; try reflexivity; lia.
Qed.

Lemma nth_error_ins_nth {A : Type} (l : list A) (i x : nat) (e : A) :
  i <= length l ->
  nth_error (firstn i l ++ e :: skipn i l) x =
  if x <? i then nth_error l x
  else if x =? i then Some e
  else nth_error l (x - 1).
Proof.
  intros Hi.
  assert (Hf : length (firstn i l) = i) by (rewrite length_firstn; lia).
  destruct (Nat.ltb_spec x i) as [H|H].
  - rewrite nth_error_app1 by lia. rewrite nth_error_firstn.
    destruct (Nat.ltb_spec x i); [reflexivity | lia].
  - rewrite nth_error_app2 by lia. rewrite Hf.
    destruct (Nat.eqb_spec x i) as [->|Hne].
    + now rewrite Nat.sub_diag.
    + destruct (x - i) as [|d] eqn:Hd; [lia|]. simpl.
      rewrite nth_error_skipn. f_equal. lia.
Qed.

(** Making room at slot [i] of an array that is not full, and filling it. *)
Lemma place_slots {A : Type} (n : nat) (l : list A) (i : nat) (e : A) :
  length l < n -> i <= length l ->
  set (shift_slots (n - 1) i (pad n l)) i (Some e) =
  pad n (firstn i l ++ e :: skipn i l).
Proof.
  intros Hl Hi.
  destruct (shift_slots_spec (n - 1) i (pad n l)) as [Hlen Hget].
  { rewrite length_pad; lia. }
  rewrite length_pad in Hlen by lia.
  apply pad_intro.
  - now rewrite length_set.
  - rewrite length_app. simpl. rewrite length_firstn, length_skipn. lia.
  - intros x Hx. rewrite get_set, Hlen, Hget, !get_pad.
    rewrite nth_error_ins_nth by exact Hi.
    destruct (Nat.eqb_spec i x), (Nat.ltb_spec i n), (Nat.ltb_spec x i),
      (Nat.eqb_spec x i), (Nat.ltb_spec i x), (Nat.leb_spec x (n - 1)),
      (Nat.ltb_spec i (n - 1)); simpl; try reflexivity; try lia.
Qed.

Lemma map_ins_nth {A C : Type} (f : A -> C) (l : list A) (i : nat) (e : A) :
  map f (firstn i l ++ e :: skipn i l) =
  firstn i (map f l) ++ f e :: skipn i (map f l).
Proof. now rewrite map_app, firstn_map, skipn_map. Qed.

Lemma ins_lead {V : Type} (k : Z) (v : V) (es : list (Z * V)) :
  ins k v es =
  firstn (lead k (map fst es)) es ++ (k, v) :: skipn (lead k (map fst es)) es.
Proof.
  induction es as [|e r IH]; simpl; [reflexivity|].
  destruct (fst e <? k)%Z; simpl; [now rewrite IH | reflexivity].
Qed.

Lemma lead_le (k : Z) (ks : list Z) : lead k ks <= length ks.
Proof.
  induction ks as [|x r IH]; simpl; [lia|].
  destruct (x <? k)%Z; simpl; lia.
Qed.

Lemma length_ins {V : Type} (k : Z) (v : V) (es : list (Z * V)) :
  length (ins k v es) = S (length es).
Proof.
  induction es as [|e r IH]; simpl; [reflexivity|].
  destruct (fst e <? k)%Z; simpl; [now rewrite IH | reflexivity].
Qed.

Lemma lead_stop (k : Z) (ks : list Z) (i : nat) :
  Forall (fun x => (x < k)%Z) (firstn i ks) -> i <= length ks ->
  match nth_error ks i with
  | Some x => (k <= x)%Z
  | None => True
  end ->
  lead k ks = i.
Proof.
  revert i. induction ks as [|x r IH]; intros i Hf Hi Hn; simpl in *.
  - lia.
  - destruct i as [|i]; simpl in *.
    + destruct (Z.ltb_spec x k); [lia | reflexivity].
    + inversion Hf; subst.
      destruct (Z.ltb_spec x k); [|lia]. f_equal. apply IH; auto. lia.
Qed.

Lemma firstn_S_snoc {A : Type} (l : list A) (i : nat) (x : A) :
  nth_error l i = Some x -> firstn (S i) l = firstn i l ++ [x].
Proof.
  revert i. induction l as [|h t IH]; intros [|i] H; simpl in *;
    try discriminate.
  - now inversion H.
  - f_equal. now apply IH.
Qed.

Section NodeInsert.
Context {V : Type}.
Variable B : nat.

Lemma shift_right_arrays (j i : nat) (u : Node.t V) :
  Node.shift_right j i u =
  Node.mk (shift_slots j i (Node.keys u)) (shift_slots j i (Node.values u))
          (Node.children u).
Proof.
  revert u. induction j as [|j IH]; intros u; simpl.
  - now destruct u.
  - destruct (i <? S j); [|now destruct u]. now rewrite IH.
Qed.

Lemma length_keys_node_of (es : list (Z * V)) (cs : list (Node.t V)) :
  length es <= 2 * B -> length (Node.keys (node_of B es cs)) = 2 * B.
Proof. intros H. simpl. apply length_pad. now rewrite length_map. Qed.

Lemma length_values_node_of (es : list (Z * V)) (cs : list (Node.t V)) :
  length es <= 2 * B -> length (Node.values (node_of B es cs)) = 2 * B.
Proof. intros H. simpl. apply length_pad. now rewrite length_map. Qed.

Lemma place_node_of (es : list (Z * V)) (cs : list (Node.t V))
  (i : nat) (k : Z) (v : V) :
  length es < 2 * B -> i <= length es ->
  Node.place B (Some k) (Some v) i (node_of B es cs) =
  node_of B (firstn i es ++ (k, v) :: skipn i es) cs.
Proof.
  intros Hl Hi. unfold Node.place. rewrite shift_right_arrays.
  unfold node_of. simpl.
  rewrite !place_slots by (rewrite length_map; assumption).
  now rewrite !map_ins_nth.
Qed.

Lemma insert_from_node_of (es : list (Z * V)) (cs : list (Node.t V))
  (k : Z) (v : V) (n : nat) :
  forall i,
  length es < 2 * B -> i + n = 2 * B -> i <= length es ->
  Forall (fun x => (x < k)%Z) (firstn i (map fst es)) ->
  Node.insert_from B n i (Some k) (Some v) (node_of B es cs) =
  Some (node_of B (ins k v es) cs).
Proof.
  induction n as [|n IH]; intros i Hl Hn Hi Hf; [lia|].
  simpl Node.insert_from.
  change (Node.keys (node_of B es cs)) with (pad (2 * B) (map fst es)).
  rewrite get_pad.
  destruct (nth_error (map fst es) i) as [ki|] eqn:Hk.
  - rewrite Compare_gt.
    assert (Hlt : i < length (map fst es))
      by (apply nth_error_Some; congruence).
    rewrite length_map in Hlt.
    destruct (Z.ltb_spec ki k) as [Hc|Hc].
    + apply IH; try lia.
      rewrite (firstn_S_snoc _ _ _ Hk). apply Forall_app. split; auto.
    + unfold ret. rewrite place_node_of by lia.
      rewrite ins_lead. rewrite (lead_stop k (map fst es) i); auto.
      * rewrite length_map; lia.
      * now rewrite Hk.
  - unfold ret. rewrite place_node_of by lia.
    rewrite ins_lead. rewrite (lead_stop k (map fst es) i); auto.
    * rewrite length_map; lia.
    * now rewrite Hk.
Qed.

(** Ordered insertion into a node that is not full. *)
Lemma insert_node_of (es : list (Z * V)) (cs : list (Node.t V))
  (k : Z) (v : V) :
  length es < 2 * B ->
  Node.insert B (Some k) (Some v) (node_of B es cs) =
  Some (node_of B (ins k v es) cs).
Proof.
  intros Hl. unfold Node.insert.
  apply insert_from_node_of; simpl; auto; lia.
Qed.

End NodeInsert.

Lemma set_app_mid {A : Type} (X R : list A) (y z : A) :
  set (X ++ y :: R) (length X) z = X ++ z :: R.
Proof. induction X as [|x X IH]; simpl; [reflexivity | now rewrite IH]. Qed.

Lemma set_app_at {A : Type} (X R : list A) (y z : A) (i : nat) :
  i = length X -> set (X ++ y :: R) i z = X ++ z :: R.
Proof. intros ->. apply set_app_mid. Qed.

Lemma get_app_mid {A : Type} (X R : list (option A)) (n : nat) :
  get (X ++ R) (length X + n) = get R n.
Proof.
  unfold get. rewrite app_nth2 by lia. f_equal. lia.
Qed.

Lemma move_slot_adjacent {A : Type} (X R : list (option A)) (y z : option A) :
  move_slot (X ++ y :: z :: R) (length X) (length X + 1) = X ++ z :: None :: R.
Proof.
  unfold move_slot.
  rewrite (get_app_mid X (y :: z :: R) 1). unfold get at 1. simpl nth.
  rewrite (set_app_mid X (z :: R) y z).
  replace (length X + 1) with (length (X ++ [z])) by (rewrite length_app; simpl; lia).
  replace (X ++ z :: z :: R) with ((X ++ [z]) ++ z :: R) by (now rewrite <- app_assoc).
  rewrite set_app_mid. now rewrite <- app_assoc.
Qed.

Lemma pad_exact {A : Type} (n r : nat) (l : list A) :
  length l + r = n -> pad n l = map Some l ++ repeat None r.
Proof. intros H. unfold pad. do 2 f_equal. lia. Qed.

Section NodeRemove.
Context {V : Type}.
Variable B : nat.

Lemma remove_from_hole (C : list (Z * V)) :
  forall (KA : list (option Z)) (VA : list (option V)) (n r : nat)
         (cs : list (option (Node.t V))),
  length KA = length VA ->
  length KA + S (length C) + r = 2 * B -> length C <= n ->
  Node.remove_from B n (length KA)
    (Node.mk (KA ++ None :: map Some (map fst C) ++ repeat None r)
             (VA ++ None :: map Some (map snd C) ++ repeat None r) cs) =
  Node.mk (KA ++ map Some (map fst C) ++ repeat None (S r))
          (VA ++ map Some (map snd C) ++ repeat None (S r)) cs.
Proof.
  induction C as [|c C IH]; intros KA VA n r cs Hkv Hlen Hn.
  - simpl. destruct n as [|n]; simpl; [reflexivity|].
    rewrite (get_app_mid KA (None :: repeat None r) 1).
    replace (get (None :: repeat None r) 1) with (@None Z)
      by (unfold get; destruct r; reflexivity).
    now rewrite andb_false_r.
  - destruct n as [|n]; [simpl in Hn; lia|].
    simpl Node.remove_from. simpl Node.keys. simpl in Hlen.
    rewrite (get_app_mid KA _ 1).
    unfold get at 1. simpl nth.
    destruct (Nat.ltb_spec (length KA) (2 * B - 1)); [|lia]. simpl andb.
    unfold Node.move_entry. simpl Node.keys. simpl Node.values.
    simpl Node.children. simpl map. rewrite <- !app_comm_cons.
    rewrite move_slot_adjacent.
    rewrite Hkv. rewrite move_slot_adjacent. rewrite <- Hkv.
    specialize (IH (KA ++ [Some (fst c)]) (VA ++ [Some (snd c)]) n r cs).
    rewrite !length_app in IH. simpl in IH.
    rewrite <- !app_assoc in IH. simpl in IH.
    replace (S (length KA)) with (length KA + 1) by lia.
    apply IH; simpl in Hn; lia.
Qed.

(** Removing the entry at [i]. *)
Lemma remove_node_of (es : list (Z * V)) (cs : list (Node.t V))
  (i : nat) (e : Z * V) :
  nth_error es i = Some e -> length es <= 2 * B ->
  Node.remove B i (node_of B es cs) =
  ((Some (fst e), Some (snd e)),
   node_of B (firstn i es ++ skipn (S i) es) cs).
Proof.
  intros He Hl.
  destruct (nth_error_split es i He) as (A & C & -> & <-).
  rewrite firstn_app, Nat.sub_diag, firstn_all. simpl firstn. rewrite app_nil_r.
  replace (skipn (S (length A)) (A ++ e :: C)) with C.
  2:{ replace (S (length A)) with (length (A ++ [e]))
        by (rewrite length_app; simpl; lia).
      replace (A ++ e :: C) with ((A ++ [e]) ++ C) by (now rewrite <- app_assoc).
      rewrite skipn_app, skipn_all, Nat.sub_diag. reflexivity. }
  rewrite length_app in Hl. simpl in Hl.
  unfold Node.remove, node_of. simpl Node.keys. simpl Node.values.
  simpl Node.children.
  rewrite !get_pad, !nth_error_map.
  replace (nth_error (A ++ e :: C) (length A)) with (Some e)
    by (rewrite nth_error_app2, Nat.sub_diag by lia; reflexivity).
  simpl option_map. f_equal.
  rewrite (pad_exact (2 * B) (2 * B - length A - S (length C)) (map fst (A ++ e :: C)))
    by (rewrite length_map, length_app; simpl; lia).
  rewrite (pad_exact (2 * B) (2 * B - length A - S (length C)) (map snd (A ++ e :: C)))
    by (rewrite length_map, length_app; simpl; lia).
  rewrite !map_app. simpl map. rewrite <- !app_assoc. simpl app.
  assert (Hk : length (map Some (map fst A)) = length A)
    by (now rewrite !length_map).
  assert (Hv : length (map Some (map snd A)) = length A)
    by (now rewrite !length_map).
  rewrite !set_app_at by (now rewrite !length_map).
  rewrite <- Hk at 1.
  rewrite remove_from_hole by (rewrite ?length_map; lia).
  rewrite !(pad_exact (2 * B) (S (2 * B - length A - S (length C))))
    by (rewrite length_app, !length_map; lia).
  now rewrite !map_app, <- !app_assoc.
Qed.

End NodeRemove.

Ltac cases_nat :=
  repeat match goal with
  | |- context [Nat.eqb ?a ?b] => destruct (Nat.eqb_spec a b)
  | |- context [Nat.ltb ?a ?b] => destruct (Nat.ltb_spec a b)
  | |- context [Nat.leb ?a ?b] => destruct (Nat.leb_spec a b)
  end; cbn [andb orb negb].

Lemma hand_over_spec {A : Type} (n : nat) :
  forall (i j : nat) (d s : list (option A)),
  i + n <= length d ->
  length (fst (hand_over n i j (d, s))) = length d /\
  length (snd (hand_over n i j (d, s))) = length s /\
  (forall x, get (fst (hand_over n i j (d, s))) x =
             if (i <=? x) && (x <? i + n) then get s (x - i + j) else get d x) /\
  (forall x, get (snd (hand_over n i j (d, s))) x =
             if (j <=? x) && (x <? j + n) then None else get s x).
Proof.
  induction n as [|n IH]; intros i j d s Hl; simpl.
  - repeat split; auto; intros x; cases_nat; try reflexivity; lia.
  - destruct (IH (S i) (S j) (set d i (get s j)) (set s j None))
      as (H1 & H2 & H3 & H4).
    { rewrite length_set. lia. }
    rewrite length_set in H1, H2.
    repeat split; auto; intros x.
    + rewrite H3, !get_set.
      cases_nat; try reflexivity; try lia; subst;
        try (f_equal; lia).
    + rewrite H4, get_set.
      cases_nat; try reflexivity; try lia.
      apply get_beyond. lia.
Qed.

Lemma slide_spec {A : Type} (n : nat) :
  forall (i d : nat) (a : list (option A)),
  1 <= d -> i + n + d <= length a ->
  length (slide n i d a) = length a /\
  forall x, get (slide n i d a) x =
            if (i <=? x) && (x <? i + n) then get a (x + d)
            else if (i + d <=? x) && (x <? i + n + d) then None
            else get a x.
Proof.
  induction n as [|n IH]; intros i d a Hd Hl; simpl.
  - split; auto. intros x. cases_nat; try reflexivity; lia.
  - destruct (IH (S i) d (move_slot a i (i + d))) as (H1 & H2); auto.
    { rewrite length_move_slot. lia. }
    rewrite length_move_slot in H1.
    split; auto. intros x. rewrite H2.
    rewrite !get_move_slot by lia.
    cases_nat; try reflexivity; try lia; subst; try (f_equal; lia).
Qed.

Lemma set_same {A : Type} (a : list (option A)) (i : nat) :
  set a i (get a i) = a.
Proof.
  apply arr_ext; [apply length_set|].
  intros x _. rewrite get_set. cases_nat; subst; reflexivity.
Qed.

Lemma nth_error_skipn' {A : Type} (l : list A) (n x : nat) :
  nth_error (skipn n l) x = nth_error l (n + x).
Proof. apply nth_error_skipn. Qed.

Lemma nth_error_firstn' {A : Type} (l : list A) (n x : nat) :
  nth_error (firstn n l) x = if x <? n then nth_error l x else None.
Proof. apply nth_error_firstn. Qed.

(** Overwriting a populated child slot. *)
Lemma set_child_pad {A : Type} (n : nat) (l : list A) (i : nat) (c : A) :
  i < length l -> length l <= n ->
  set (pad n l) i (Some c) = pad n (firstn i l ++ c :: skipn (S i) l).
Proof.
  intros Hi Hl. apply pad_intro.
  - rewrite length_set. now apply length_pad.
  - rewrite length_app, length_firstn. cbn [length]. rewrite length_skipn. lia.
  - intros x Hx. rewrite get_set, length_pad, get_pad by lia.
    assert (Hf : length (firstn i l) = i) by (rewrite length_firstn; lia).
    cases_nat; try lia; subst.
    + rewrite nth_error_app2, Hf, Nat.sub_diag by lia. reflexivity.
    + destruct (Nat.lt_ge_cases x i).
      * rewrite nth_error_app1 by lia. rewrite nth_error_firstn'.
        cases_nat; [reflexivity | lia].
      * rewrite nth_error_app2 by lia. rewrite Hf.
        destruct (x - i) as [|y] eqn:Hy; [lia|]. cbn [nth_error].
        rewrite nth_error_skipn'. f_equal. lia.
Qed.

Section NodeSplit.
Context {V : Type}.
Variable B : nat.

Lemma split_out_arrays (n : nat) :
  forall (i : nat) (nw u : Node.t V),
  Node.split_out n i (nw, u) =
  (Node.mk (fst (hand_over n i i (Node.keys nw, Node.keys u)))
           (fst (hand_over n i i (Node.values nw, Node.values u)))
           (fst (hand_over n i i (Node.children nw, Node.children u))),
   Node.mk (snd (hand_over n i i (Node.keys nw, Node.keys u)))
           (snd (hand_over n i i (Node.values nw, Node.values u)))
           (snd (hand_over n i i (Node.children nw, Node.children u)))).
Proof.
  induction n as [|n IH]; intros i nw u; simpl.
  - now destruct nw, u.
  - now rewrite IH.
Qed.

Lemma split_down_arrays (n : nat) :
  forall (i : nat) (u : Node.t V),
  Node.split_down B n i u =
  Node.mk (slide n i B (Node.keys u)) (slide n i B (Node.values u))
          (slide n i B (Node.children u)).
Proof.
  induction n as [|n IH]; intros i u; simpl.
  - now destruct u.
  - now rewrite IH.
Qed.

(** One array through [split], when all of its [2B] first slots count. *)
Lemma split_slots_new {A : Type} (n : nat) (l : list A) :
  length l <= n -> B <= n ->
  fst (hand_over B 0 0 (repeat None n, pad n l)) = pad n (firstn B l).
Proof.
  intros Hl Hn.
  destruct (hand_over_spec B 0 0 (repeat None n) (pad n l)) as (H1 & _ & H3 & _).
  { rewrite repeat_length. lia. }
  rewrite repeat_length in H1.
  apply pad_intro; auto.
  - rewrite length_firstn. lia.
  - intros x Hx. rewrite H3, nth_error_firstn', get_pad.
    cases_nat; try lia.
    + f_equal. lia.
    + unfold get. apply nth_repeat.
Qed.

Lemma split_slots_old {A : Type} (n : nat) (l : list A) :
  1 <= B -> length l <= n -> 2 * B <= n ->
  length (slide B 0 B (snd (hand_over B 0 0 (repeat None n, pad n l)))) = n /\
  forall x,
    get (slide B 0 B (snd (hand_over B 0 0 (repeat None n, pad n l)))) x =
    if x <? B then nth_error l (x + B)
    else if x <? 2 * B then None
    else nth_error l x.
Proof.
  intros HB Hl Hn.
  destruct (hand_over_spec B 0 0 (repeat None n) (pad n l)) as (_ & H2 & _ & H4).
  { rewrite repeat_length. lia. }
  rewrite length_pad in H2 by exact Hl.
  destruct (slide_spec B 0 B (snd (hand_over B 0 0 (repeat None n, pad n l))))
    as (H5 & H6); try lia.
  split; [lia|].
  intros x. rewrite H6, !H4, !get_pad.
  cases_nat; try reflexivity; lia.
Qed.

(** [split] on a node that holds fewer than [2B] entries. *)
Lemma split_node_of_small (es : list (Z * V)) (cs : list (Node.t V)) :
  length es < 2 * B ->
  Node.split B (node_of B es cs) = (None, node_of B es cs).
Proof.
  intros Hl. unfold Node.split.
  change (Node.keys (node_of B es cs)) with (pad (2 * B) (map fst es)).
  rewrite get_pad_ge by (rewrite length_map; lia). reflexivity.
Qed.

(** [split] on a node that holds [2B] entries. *)
Lemma split_node_of_full (es : list (Z * V)) (cs : list (Node.t V)) :
  1 <= B -> length es = 2 * B -> length cs <= 2 * B + 1 ->
  Node.split B (node_of B es cs) =
  (Some (node_of B (firstn B es) (firstn B cs)),
   node_of B (skipn B es) (skipn B cs)).
Proof.
  intros HB Hl Hc. unfold Node.split.
  change (Node.keys (node_of B es cs)) with (pad (2 * B) (map fst es)).
  rewrite get_pad.
  destruct (nth_error (map fst es) (2 * B - 1)) eqn:Hk.
  2:{ apply nth_error_None in Hk. rewrite length_map in Hk. lia. }
  rewrite split_out_arrays.
  unfold Node.empty, node_of, Node.set_children.
  cbn [Node.keys Node.values Node.children].
  rewrite split_down_arrays.
  cbn [Node.keys Node.values Node.children].
  rewrite !split_slots_new by (rewrite ?length_map; lia).
  assert (Hsame :
    set (pad (2 * B + 1) (firstn B cs)) B None = pad (2 * B + 1) (firstn B cs)).
  { rewrite <- (set_same (pad (2 * B + 1) (firstn B cs)) B) at 2.
    rewrite get_pad_ge by (rewrite length_firstn; lia). reflexivity. }
  rewrite Hsame.
  rewrite <- !firstn_map. f_equal. 
  destruct (split_slots_old (2 * B) (map fst es)) as (Lk & Gk);
    try (rewrite ?length_map; lia).
  destruct (split_slots_old (2 * B) (map snd es)) as (Lv & Gv);
    try (rewrite ?length_map; lia).
  destruct (split_slots_old (2 * B + 1) cs) as (Lc & Gc); try lia.
  rewrite <- !skipn_map. f_equal.
  - apply pad_intro; auto.
    + rewrite length_skipn, length_map. lia.
    + intros x Hx. rewrite Gk, nth_error_skipn'.
      cases_nat; try lia.
      * f_equal. lia.
      * symmetry. apply nth_error_None. rewrite length_map. lia.
  - apply pad_intro; auto.
    + rewrite length_skipn, length_map. lia.
    + intros x Hx. rewrite Gv, nth_error_skipn'.
      cases_nat; try lia.
      * f_equal. lia.
      * symmetry. apply nth_error_None. rewrite length_map. lia.
  - apply pad_intro.
    + rewrite length_move_slot. exact Lc.
    + rewrite length_skipn. lia.
    + intros x Hx. rewrite get_move_slot by lia.
      rewrite !Gc, nth_error_skipn'.
      cases_nat; try lia; subst.
      * symmetry. apply nth_error_None. lia.
      * f_equal. lia.
      * f_equal. lia.
      * symmetry. apply nth_error_None. lia.
Qed.

Lemma size_from_pad (ks : list Z) (n i : nat) :
  Node.size_from i (pad n ks) = Nat.min i (length ks).
Proof.
  induction i as [|i IH]; cbn [Node.size_from]; [reflexivity|].
  rewrite get_pad.
  destruct (nth_error ks i) eqn:Hk; cbn [is_some].
  - assert (i < length ks) by (apply nth_error_Some; congruence). lia.
  - apply nth_error_None in Hk. rewrite IH. lia.
Qed.

(** [size] counts the populated entries. *)
Lemma size_node_of (es : list (Z * V)) (cs : list (Node.t V)) :
  length es <= 2 * B -> Node.size B (node_of B es cs) = length es.
Proof.
  intros Hl. unfold Node.size. simpl Node.keys.
  rewrite size_from_pad, length_map. lia.
Qed.

Lemma is_leaf_node_of (es : list (Z * V)) (cs : list (Node.t V)) :
  Node.is_leaf (node_of B es cs) = match cs with [] => true | _ => false end.
Proof.
  unfold Node.is_leaf. simpl Node.children. rewrite get_pad.
  now destruct cs.
Qed.

Lemma on_child_get {A : Type} (f : Node.t V -> A) (d : A)
  (cs : list (option (Node.t V))) (i : nat) :
  Node.on_child f d cs i = match get cs i with Some c => f c | None => d end.
Proof.
  revert i. induction cs as [|c cs IH]; intros [|i]; simpl; auto.
Qed.

(** Adding a child at slot [i] of a node with a free child slot. *)
Lemma add_child_node_of (es : list (Z * V)) (cs : list (Node.t V))
  (i : nat) (c : Node.t V) :
  length cs <= 2 * B -> i <= length cs ->
  Node.add_child B (Some c) i (node_of B es cs) =
  node_of B es (firstn i cs ++ c :: skipn i cs).
Proof.
  intros Hl Hi. unfold Node.add_child, node_of, Node.set_children.
  cbn [Node.keys Node.values Node.children]. f_equal.
  replace (2 * B) with (2 * B + 1 - 1) at 1 by lia.
  apply place_slots; lia.
Qed.

End NodeSplit.

(** ** Ascending lists and [lead] *)

Lemma ascending_app (a b : list Z) :
  ascending (a ++ b) <->
  ascending a /\ ascending b /\
  forall x y, In x a -> In y b -> (x < y)%Z.
Proof.
  induction a as [|h a IH]; simpl.
  - split; [intros H; repeat split; auto; intros ? ? [] | tauto].
  - rewrite IH, Forall_app, !Forall_forall. split.
    + intros ((Ha & Hb) & Hsa & Hsb & Hab). repeat split; auto.
      intros x y [<-|Hx] Hy; auto.
    + intros ((Ha & Hsa) & Hsb & Hab). repeat split; auto.
Qed.

Lemma lead_upper (k : Z) (ks : list Z) (m : nat) (km : Z) :
  nth_error ks m = Some km -> (k <= km)%Z -> lead k ks <= m.
Proof.
  revert m. induction ks as [|x r IH]; intros [|m] H Hk; simpl in *;
    try discriminate; try lia.
  - inversion H; subst. destruct (Z.ltb_spec km k); lia.
  - destruct (x <? k)%Z; [|lia]. apply le_n_S. now apply IH.
Qed.

Lemma lead_lower (k : Z) (ks : list Z) (m : nat) (km : Z) :
  ascending ks -> nth_error ks m = Some km -> (km < k)%Z -> m < lead k ks.
Proof.
  revert m. induction ks as [|x r IH]; intros [|m] Hs H Hk; simpl in *;
    try discriminate.
  - inversion H; subst. destruct (Z.ltb_spec km k); lia.
  - destruct Hs as (Hx & Hs).
    assert (x < km)%Z.
    { rewrite Forall_forall in Hx. apply Hx. eapply nth_error_In; eauto. }
    destruct (Z.ltb_spec x k); [|lia]. apply -> Nat.succ_lt_mono. now apply IH.
Qed.

Lemma lead_found (k : Z) (ks : list Z) :
  ascending ks -> In k ks -> nth_error ks (lead k ks) = Some k.
Proof.
  induction ks as [|x r IH]; intros Hs Hin; simpl in *; [contradiction|].
  destruct Hs as (Hx & Hs). destruct (Z.ltb_spec x k) as [Hlt|Hge].
  - simpl. apply IH; auto. destruct Hin; [lia | assumption].
  - destruct Hin as [->|Hin]; [reflexivity|].
    rewrite Forall_forall in Hx. specialize (Hx _ Hin). lia.
Qed.

Lemma lead_prefix (k : Z) (ks : list Z) :
  Forall (fun x => (x < k)%Z) (firstn (lead k ks) ks).
Proof.
  induction ks as [|x r IH]; simpl; [constructor|].
  destruct (Z.ltb_spec x k); simpl; constructor; auto.
Qed.

Lemma lead_next (k : Z) (ks : list Z) (x : Z) :
  nth_error ks (lead k ks) = Some x -> (k <= x)%Z.
Proof.
  induction ks as [|y r IH]; simpl; [discriminate|].
  destruct (Z.ltb_spec y k); simpl; auto.
  intros H'; inversion H'; subst; lia.
Qed.

(** ** The binary search *)

Section Search.
Variable B : nat.

Lemma find_it_loop_spec (n : nat) (ks : list Z) (k : Z) :
  ascending ks ->
  forall fuel lo hi,
  hi - lo <= fuel -> lo <= lead k ks ->
  lead k ks < hi \/ (lead k ks = hi /\ nth_error ks hi <> Some k) ->
  BTreeMap.find_it_loop fuel lo hi (pad n ks) k = located k ks.
Proof.
  intros Hs. induction fuel as [|fuel IH]; intros lo hi Hf Hlo Hhi.
  - simpl. destruct Hhi as [|[Heq Hne]]; [lia|].
    assert (lo = hi) by lia. subst lo. unfold located. rewrite Heq.
    destruct (nth_error ks hi) as [x|] eqn:Hx; [|reflexivity].
    destruct (Z.eqb_spec x k); [congruence | reflexivity].
  - cbn [BTreeMap.find_it_loop]. destruct (Nat.eqb_spec hi lo) as [->|Hne].
    + assert (Hl : lead k ks = lo) by lia.
      destruct Hhi as [|[_ Hnk]]; [lia|]. unfold located. rewrite Hl.
      destruct (nth_error ks lo) as [x|] eqn:Hx; [|reflexivity].
      destruct (Z.eqb_spec x k); [congruence | reflexivity].
    + assert (Hm : lo <= (hi + lo) / 2 < hi).
      { assert (lo < hi) by lia.
        split; [apply Nat.div_le_lower_bound | apply Nat.Div0.div_lt_upper_bound]; lia. }
      set (m := (hi + lo) / 2) in *.
      rewrite get_pad.
      destruct (nth_error ks m) as [km|] eqn:Hkm.
      * rewrite Compare_lt, Compare_gt.
        destruct (Z.ltb_spec k km) as [Hlt|Hge].
        -- apply IH; try lia.
           assert (lead k ks <= m) by (eapply lead_upper; eauto; lia).
           destruct (Nat.eq_dec (lead k ks) m) as [He|He]; [|left; lia].
           right. split; auto. rewrite Hkm. intros H'. inversion H'. lia.
        -- destruct (Z.ltb_spec km k) as [Hlt'|Hge'].
           ++ assert (m < lead k ks) by (eapply lead_lower; eauto).
              apply IH; try lia. exact Hhi.
           ++ assert (km = k) by lia. subst km.
              assert (lead k ks <= m) by (eapply lead_upper; eauto; lia).
              assert (lead k ks = m).
              { destruct (Nat.eq_dec (lead k ks) m); auto.
                assert (Hlt2 : lead k ks < length ks).
                { assert (m < length ks) by (apply nth_error_Some; congruence). lia. }
                apply nth_error_Some in Hlt2.
                destruct (nth_error ks (lead k ks)) as [y|] eqn:Hy; [|congruence].
                pose proof (lead_next _ _ _ Hy) as Hky.
                assert (Hsplit := nth_error_split ks _ Hy).
                destruct Hsplit as (l1 & l2 & Hks & Hl1).
                assert (In k l2).
                { rewrite Hks in Hkm. rewrite nth_error_app2 in Hkm by lia.
                  destruct (m - length l1) as [|d] eqn:Hd; [lia|]. simpl in Hkm.
                  eapply nth_error_In; eauto. }
                rewrite Hks in Hs. apply ascending_app in Hs.
                destruct Hs as (_ & (Hy2 & _) & _).
                rewrite Forall_forall in Hy2. specialize (Hy2 _ H0). lia. }
              unfold located. rewrite H0, Hkm, Z.eqb_refl. reflexivity.
      * destruct (Z.ltb_spec (-1) 0); [|lia]. apply nth_error_None in Hkm.
        pose proof (lead_le k ks).
        apply IH; try lia.
        destruct (Nat.eq_dec (lead k ks) m) as [He|He]; [|left; lia].
        right. split; auto.
        assert (Hn : nth_error ks m = None) by (apply nth_error_None; lia).
        rewrite Hn. discriminate.
Qed.

(** [find_it] over the first [2B-1] slots of the padded ascending keys. *)
Lemma find_it_spec (n : nat) (ks : list Z) (k : Z) :
  ascending ks -> length ks <= 2 * B - 1 ->
  BTreeMap.find_it (pad n ks) (2 * B - 1) k = located k ks.
Proof.
  intros Hs Hl. unfold BTreeMap.find_it.
  apply find_it_loop_spec; auto; try lia.
  pose proof (lead_le k ks).
  destruct (Nat.eq_dec (lead k ks) (2 * B - 1)) as [He|He]; [|left; lia].
  right. split; auto.
  assert (Hn : nth_error ks (2 * B - 1) = None) by (apply nth_error_None; lia).
  rewrite Hn. discriminate.
Qed.

Lemma located_found (k : Z) (ks : list Z) :
  ascending ks -> In k ks ->
  located k ks = (- (Z.of_nat (lead k ks) + 1))%Z /\
  nth_error ks (lead k ks) = Some k.
Proof.
  intros Hs Hin. unfold located.
  rewrite (lead_found k ks Hs Hin), Z.eqb_refl. auto.
Qed.

Lemma located_absent (k : Z) (ks : list Z) :
  ~ In k ks -> located k ks = Z.of_nat (lead k ks).
Proof.
  intros Hin. unfold located.
  destruct (nth_error ks (lead k ks)) as [x|] eqn:Hx; auto.
  destruct (Z.eqb_spec x k); auto. subst.
  exfalso. apply Hin. eapply nth_error_In; eauto.
Qed.

End Search.

(** ** In-order listings *)

Section Listings.
Context {V : Type}.
Implicit Types (l es : list (Z * V)) (ls : list (list (Z * V))).

Lemma asc_app l1 l2 :
  asc (l1 ++ l2) <->
  asc l1 /\ asc l2 /\ forall x y, In x l1 -> In y l2 -> (fst x < fst y)%Z.
Proof.
  unfold asc. rewrite map_app, ascending_app. split.
  - intros (H1 & H2 & H3). repeat split; auto.
    intros x y Hx Hy. apply H3; apply in_map; assumption.
  - intros (H1 & H2 & H3). repeat split; auto.
    intros x y Hx Hy. apply in_map_iff in Hx, Hy.
    destruct Hx as (x' & <- & Hx), Hy as (y' & <- & Hy). auto.
Qed.

Lemma asc_cons e l :
  asc (e :: l) <-> (forall y, In y l -> (fst e < fst y)%Z) /\ asc l.
Proof.
  unfold asc. simpl. rewrite Forall_forall. split.
  - intros (H1 & H2). split; auto. intros y Hy. apply H1. now apply in_map.
  - intros (H1 & H2). split; auto. intros y Hy. apply in_map_iff in Hy.
    destruct Hy as (y' & <- & Hy). auto.
Qed.

Lemma interleave_app ls1 :
  forall es1 ls es,
  length ls1 = length es1 ->
  interleave (ls1 ++ ls) (es1 ++ es) = interleave ls1 es1 ++ interleave ls es.
Proof.
  induction ls1 as [|l0 ls1 IH]; intros [|e0 es1] ls es Hl; simpl in *;
    try discriminate; auto.
  rewrite IH by lia. now rewrite <- app_assoc.
Qed.

Lemma interleave_snoc ls :
  forall es x,
  length ls = S (length es) ->
  interleave ls (es ++ [x]) = interleave ls es ++ [x].
Proof.
  induction ls as [|l0 ls IH]; intros es x Hl; simpl in *; [discriminate|].
  destruct es as [|e es]; simpl in *.
  - destruct ls; [|discriminate]. simpl. now rewrite app_nil_r.
  - rewrite IH by lia. now rewrite <- app_assoc.
Qed.

Lemma interleave_nil ls : interleave ls [] = concat ls.
Proof. induction ls as [|l0 ls IH]; simpl; [reflexivity | now rewrite IH]. Qed.

Lemma in_interleave_entry ls :
  forall es e, length ls = length es \/ length ls = S (length es) ->
  In e es -> In e (interleave ls es).
Proof.
  induction ls as [|l0 ls IH]; intros es e Hl He; simpl; auto.
  destruct es as [|e0 es]; [contradiction|].
  apply in_or_app. right. destruct He as [->|He]; [now left|].
  right. apply IH; auto. simpl in Hl. lia.
Qed.

Lemma ins_app_left k v l1 l2 :
  Forall (fun e => (fst e < k)%Z) l1 -> ins k v (l1 ++ l2) = l1 ++ ins k v l2.
Proof.
  induction l1 as [|e l1 IH]; intros H; simpl; auto.
  inversion H; subst. destruct (Z.ltb_spec (fst e) k); [|lia].
  now rewrite IH.
Qed.

Lemma ins_app_right k v l1 l2 :
  match l2 with [] => True | e :: _ => (k <= fst e)%Z end ->
  ins k v (l1 ++ l2) = ins k v l1 ++ l2.
Proof.
  intros H. induction l1 as [|e l1 IH]; simpl.
  - destruct l2 as [|e l2]; simpl; auto.
    destruct (Z.ltb_spec (fst e) k); [lia | reflexivity].
  - destruct (fst e <? k)%Z; simpl; [now rewrite IH | reflexivity].
Qed.

Lemma in_ins k v l e : In e (ins k v l) <-> e = (k, v) \/ In e l.
Proof.
  induction l as [|e0 l IH]; simpl.
  - intuition.
  - destruct (fst e0 <? k)%Z; simpl; rewrite ?IH; intuition.
Qed.

Lemma asc_ins k v l : asc l -> ~ In k (map fst l) -> asc (ins k v l).
Proof.
  induction l as [|e l IH]; intros Hs Hn; simpl.
  - unfold asc. simpl. auto.
  - apply asc_cons in Hs. destruct Hs as (He & Hs). simpl in Hn.
    destruct (Z.ltb_spec (fst e) k).
    + apply asc_cons. split; [|apply IH; tauto].
      intros y Hy. apply in_ins in Hy. destruct Hy as [->|Hy]; simpl; auto.
    + apply asc_cons. split.
      * intros y [<-|Hy]; simpl; [lia|]. specialize (He _ Hy). lia.
      * apply asc_cons. auto.
Qed.

Lemma lookup_ins k v l : asc l -> ~ In k (map fst l) -> lookup k (ins k v l) = Some v.
Proof.
  induction l as [|e l IH]; intros Hs Hn; simpl.
  - now rewrite Z.eqb_refl.
  - simpl in Hn. apply asc_cons in Hs.
    destruct (Z.ltb_spec (fst e) k); simpl.
    + destruct (Z.eqb_spec (fst e) k); [lia|]. apply IH; tauto.
    + now rewrite Z.eqb_refl.
Qed.

(** Every key of the part of a listing that precedes child [i] is below
    [k], when the entries before it are. *)
Lemma prefix_below k ls :
  forall es rest,
  length ls = length es ->
  asc (interleave ls es ++ rest) ->
  Forall (fun e => (fst e < k)%Z) es ->
  Forall (fun e => (fst e < k)%Z) (interleave ls es).
Proof.
  induction ls as [|l0 ls IH]; intros [|e0 es] rest Hl Hs Hf; simpl in *;
    try discriminate; auto.
  inversion Hf; subst.
  rewrite <- app_assoc in Hs. apply asc_app in Hs.
  destruct Hs as (_ & Hs & Hlt). simpl in Hs.
  apply Forall_app. split.
  - apply Forall_forall. intros y Hy.
    specialize (Hlt y e0 Hy (or_introl eq_refl)). lia.
  - constructor; auto. apply asc_cons in Hs.
    apply (IH es rest); auto; tauto.
Qed.

(** Every key of a listing that starts at an entry above [k] is above [k]. *)
Lemma suffix_above k e l :
  asc (e :: l) -> (k < fst e)%Z -> Forall (fun y => (k < fst y)%Z) (e :: l).
Proof.
  intros Hs Hk. apply asc_cons in Hs. destruct Hs as (He & _).
  constructor; auto. apply Forall_forall. intros y Hy.
  specialize (He _ Hy). lia.
Qed.

End Listings.

Lemma firstn_exact {A : Type} (a b : list A) : firstn (length a) (a ++ b) = a.
Proof. now rewrite firstn_app, Nat.sub_diag, firstn_all, app_nil_r. Qed.

Lemma skipn_exact {A : Type} (a b : list A) : skipn (length a) (a ++ b) = b.
Proof. now rewrite skipn_app, Nat.sub_diag, skipn_all. Qed.

Lemma nth_error_exact {A : Type} (a b : list A) (x : A) :
  nth_error (a ++ x :: b) (length a) = Some x.
Proof. now rewrite nth_error_app2, Nat.sub_diag by lia. Qed.

Lemma asc_interleave_entries {V : Type} (ls : list (list (Z * V))) :
  forall es, length ls = S (length es) -> asc (interleave ls es) -> asc es.
Proof.
  induction ls as [|l0 ls IH]; intros es Hl Hs; simpl in *; [discriminate|].
  destruct es as [|e es]; [unfold asc; simpl; auto|].
  apply asc_app in Hs. destruct Hs as (_ & Hs & _).
  apply asc_cons in Hs. destruct Hs as (He & Hs).
  apply asc_cons. split.
  - intros y Hy. apply He. apply in_interleave_entry; auto.
  - apply IH; auto.
Qed.

Section InsertionSteps.
Context {V : Type}.
Variable B : nat.

Lemma add_recursive_eq (k : Z) (v : V) (u : Node.t V) :
  BTreeMap.add_recursive B k v u =
  let i := BTreeMap.find_it (Node.keys u) (2 * B - 1) k in
  if (i <? 0)%Z then ret (None, u)
  else
    match get (Node.children u) (Z.to_nat i) with
    | Some c =>
        '(w, c') <- BTreeMap.add_recursive B k v c ;;
        u' <- BTreeMap.promote B w (Z.to_nat i)
                (Node.set_children u
                   (set (Node.children u) (Z.to_nat i) (Some c'))) ;;
        ret (Node.split B u')
    | None => u' <- Node.insert B (Some k) (Some v) u ;; ret (Node.split B u')
    end.
Proof.
  destruct u as [ks vs cs]. cbn [BTreeMap.add_recursive].
  rewrite on_child_get. reflexivity.
Qed.

Lemma set_child_exact (n : nat) (C1 C2 : list (Node.t V)) (c c' : Node.t V) :
  length (C1 ++ c :: C2) <= n ->
  set (pad n (C1 ++ c :: C2)) (length C1) (Some c') = pad n (C1 ++ c' :: C2).
Proof.
  intros Hl. rewrite set_child_pad; auto.
  - rewrite firstn_exact.
    replace (C1 ++ c :: C2) with ((C1 ++ [c]) ++ C2) by (now rewrite <- app_assoc).
    replace (S (length C1)) with (length (C1 ++ [c]))
      by (rewrite length_app; simpl; lia).
    now rewrite skipn_exact.
  - rewrite length_app. simpl. lia.
Qed.

Lemma add_child_exact (es : list (Z * V)) (C1 C2 : list (Node.t V))
  (w : Node.t V) :
  length (C1 ++ C2) <= 2 * B ->
  Node.add_child B (Some w) (length C1) (node_of B es (C1 ++ C2)) =
  node_of B es (C1 ++ w :: C2).
Proof.
  intros Hl. rewrite add_child_node_of; auto.
  - now rewrite firstn_exact, skipn_exact.
  - rewrite length_app. lia.
Qed.

Lemma insert_exact (E1 E2 : list (Z * V)) (cs : list (Node.t V))
  (k : Z) (v : V) :
  length (E1 ++ E2) < 2 * B ->
  Forall (fun e => (fst e < k)%Z) E1 ->
  match E2 with [] => True | e :: _ => (k <= fst e)%Z end ->
  Node.insert B (Some k) (Some v) (node_of B (E1 ++ E2) cs) =
  Some (node_of B (E1 ++ (k, v) :: E2) cs).
Proof.
  intros Hl H1 H2. rewrite insert_node_of by exact Hl.
  rewrite ins_app_left by exact H1. do 3 f_equal.
  destruct E2 as [|e E2]; simpl; auto.
  destruct (Z.ltb_spec (fst e) k); [lia | reflexivity].
Qed.

(** The two halves of a full node. *)
Lemma split_halves (h m : nat) (es : list (Z * V)) (cs : list (Node.t V))
  (ls : list (list (Z * V))) :
  1 <= B -> length es = 2 * B ->
  (h = 0 /\ cs = [] /\ ls = [] \/
   exists h', h = S h' /\ length cs = S (length es) /\
              Forall2 (bt B h' (B - 1)) cs ls) ->
  exists es1 x l1 l2,
    firstn B es = es1 ++ [x] /\ length es1 = B - 1 /\
    bt B h (B - 1) (node_of B es1 (firstn B cs)) l1 /\
    bt B h (B - 1) (node_of B (skipn B es) (skipn B cs)) l2 /\
    interleave ls es = l1 ++ x :: l2.
Proof.
  intros HB Hl Hshape.
  assert (HlB : length (firstn B es) = B) by (rewrite length_firstn; lia).
  destruct (firstn B es) as [|e0 fe] eqn:Hfe using rev_ind;
    [simpl in HlB; lia|]. clear IHfe.
  rewrite length_app in HlB. simpl in HlB.
  assert (Hes : es = fe ++ e0 :: skipn B es).
  { rewrite <- (firstn_skipn B es) at 1. rewrite Hfe, <- app_assoc. reflexivity. }
  assert (Hsk : length (skipn B es) = B) by (rewrite length_skipn; lia).
  destruct Hshape as [(-> & -> & ->) | (h' & -> & Hcs & Hall)].
  - exists fe, e0, fe, (skipn B es).
    rewrite firstn_nil, skipn_nil. simpl.
    repeat split; auto; lia.
  - pose proof (Forall2_length Hall) as Hlen.
    rewrite <- (firstn_skipn B cs), <- (firstn_skipn B ls) in Hall.
    apply Forall2_app_inv_l in Hall.
    destruct Hall as (la & lb & Ha & Hb & Hab).
    assert (Hla : length la = B).
    { apply Forall2_length in Ha. rewrite length_firstn in Ha. lia. }
    rewrite firstn_skipn in Hab. subst ls.
    exists fe, e0, (interleave la fe), (interleave lb (skipn B es)).
    repeat split; auto; try lia.
    + exists fe, (firstn B cs), la. repeat split; auto; try lia.
      rewrite length_firstn. lia.
    + exists (skipn B es), (skipn B cs), lb.
      repeat split; auto; try lia.
      rewrite length_skipn. lia.
    + rewrite Hes at 1.
      replace (fe ++ e0 :: skipn B es) with ((fe ++ [e0]) ++ skipn B es)
        by (now rewrite <- app_assoc).
      rewrite interleave_app by (rewrite length_app; simpl; lia).
      rewrite interleave_snoc by lia.
      now rewrite <- app_assoc.
Qed.

End InsertionSteps.

Section Insertion.
Context {V : Type}.
Variable B : nat.

(** The final [split] of [add_recursive] on a node that has grown by at
    most one entry. *)
Lemma split_grown (h m : nat) (k : Z) (v : V) (u : Node.t V)
  (l : list (Z * V)) (es : list (Z * V)) (cs : list (Node.t V))
  (ls : list (list (Z * V))) :
  1 <= B -> ~ In k (map fst l) ->
  m <= length es <= 2 * B ->
  ins k v l = interleave ls es ->
  (h = 0 /\ cs = [] /\ ls = [] \/
   exists h', h = S h' /\ length cs = S (length es) /\
              Forall2 (bt B h' (B - 1)) cs ls) ->
  added B h m k v u l (Node.split B (node_of B es cs)).
Proof.
  intros HB Hn Hlen Hins Hshape. right. split; auto.
  destruct (Nat.eq_dec (length es) (2 * B)) as [Hfull|Hsmall].
  - right. rewrite split_node_of_full; auto.
    2:{ destruct Hshape as [(_ & -> & _)|(h' & _ & Hc & _)]; simpl; lia. }
    destruct (split_halves B h m es cs ls HB Hfull Hshape)
      as (es1 & x & l1 & l2 & Hf & Hl1 & Hb1 & Hb2 & Hi).
    exists es1, x, (skipn B es), (firstn B cs), (skipn B cs), l1, l2.
    rewrite Hf. repeat split; auto.
    + rewrite length_firstn. lia.
    + congruence.
  - left. rewrite split_node_of_small by lia.
    exists (node_of B es cs). split; auto.
    rewrite Hins.
    destruct Hshape as [(-> & -> & ->)|(h' & -> & Hc & Hall)].
    + simpl. split; auto. lia.
    + exists es, cs, ls. repeat split; auto; lia.
Qed.

Lemma bind_some {A C : Type} (a : A) (f : A -> M C) :
  bind (Some a) f = f a.
Proof. reflexivity. Qed.

Lemma add_recursive_leaf (m : nat) (l : list (Z * V)) (k : Z) (v : V) :
  1 <= B -> m <= length l <= 2 * B - 1 -> asc l ->
  exists r, BTreeMap.add_recursive B k v (node_of B l []) = Some r /\
            added B 0 m k v (node_of B l []) l r.
Proof.
  intros HB Hl Hs. rewrite add_recursive_eq.
  cbn [node_of Node.keys Node.children]. cbv zeta.
  rewrite find_it_spec by (auto; rewrite length_map; lia).
  destruct (in_dec Z.eq_dec k (map fst l)) as [Hin|Hin].
  - destruct (located_found k (map fst l) Hs Hin) as (-> & _).
    destruct (Z.ltb_spec (- (Z.of_nat (lead k (map fst l)) + 1)) 0); [|lia].
    exists (None, node_of B l []). split; [reflexivity|]. left. auto.
  - rewrite (located_absent k (map fst l) Hin).
    destruct (Z.ltb_spec (Z.of_nat (lead k (map fst l))) 0); [lia|].
    rewrite Nat2Z.id, get_pad.
    replace (nth_error (@nil (Node.t V)) (lead k (map fst l))) with (@None (Node.t V))
      by (now destruct (lead k (map fst l))).
    change (Node.mk (pad (2 * B) (map fst l)) (pad (2 * B) (map snd l))
                    (pad (2 * B + 1) [])) with (node_of B l (@nil (Node.t V))).
    rewrite insert_node_of by lia. rewrite bind_some.
    eexists. split; [reflexivity|].
    apply split_grown with (ls := []); auto.
    rewrite length_ins. lia.
Qed.

Lemma set_children_node_of (es : list (Z * V)) (cs cs' : list (Node.t V)) :
  Node.set_children (node_of B es cs) (pad (2 * B + 1) cs') = node_of B es cs'.
Proof. reflexivity. Qed.

(** The listing of a node around its child number [length L1]. *)
Lemma interleave_around (L1 L2 : list (list (Z * V))) (li : list (Z * V))
  (E1 E2 : list (Z * V)) :
  length L1 = length E1 ->
  interleave (L1 ++ li :: L2) (E1 ++ E2) =
  interleave L1 E1 ++ li ++ match E2 with
                            | [] => interleave L2 []
                            | e :: E2' => e :: interleave L2 E2'
                            end.
Proof. intros Hl. now rewrite interleave_app by exact Hl. Qed.

Lemma add_recursive_node (h' : nat) (m : nat) (es : list (Z * V))
  (cs : list (Node.t V)) (ls : list (list (Z * V))) (k : Z) (v : V) :
  (forall m u l, bt B h' m u l -> asc l ->
     exists r, BTreeMap.add_recursive B k v u = Some r /\
               added B h' m k v u l r) ->
  1 <= B -> m <= length es <= 2 * B - 1 -> length cs = S (length es) ->
  Forall2 (bt B h' (B - 1)) cs ls -> asc (interleave ls es) ->
  exists r, BTreeMap.add_recursive B k v (node_of B es cs) = Some r /\
            added B (S h') m k v (node_of B es cs) (interleave ls es) r.
Proof.
  intros IH HB Hm Hcs Hall Hs.
  pose proof (Forall2_length Hall) as Hls.
  assert (Hes : asc es) by (apply (asc_interleave_entries ls); auto; lia).
  rewrite add_recursive_eq.
  cbn [node_of Node.keys Node.children]. cbv zeta.
  rewrite find_it_spec by (auto; rewrite length_map; lia).
  destruct (in_dec Z.eq_dec k (map fst es)) as [Hin|Hin].
  { destruct (located_found k (map fst es) Hes Hin) as (-> & _).
    destruct (Z.ltb_spec (- (Z.of_nat (lead k (map fst es)) + 1)) 0); [|lia].
    exists (None, node_of B es cs). split; [reflexivity|]. left. split; auto.
    apply in_map_iff in Hin. destruct Hin as (e & <- & He).
    apply in_map. apply in_interleave_entry; auto. right. lia. }
  rewrite (located_absent k (map fst es) Hin).
  destruct (Z.ltb_spec (Z.of_nat (lead k (map fst es))) 0); [lia|].
  rewrite Nat2Z.id, get_pad.
  change (Node.mk (pad (2 * B) (map fst es)) (pad (2 * B) (map snd es))
                  (pad (2 * B + 1) cs)) with (node_of B es cs).
  (* the entries and children around the slot found *)
  pose proof (lead_le k (map fst es)) as Hi. rewrite length_map in Hi.
  pose proof (lead_prefix k (map fst es)) as Hpre.
  set (i := lead k (map fst es)) in *.
  assert (HE : es = firstn i es ++ skipn i es) by (now rewrite firstn_skipn).
  remember (firstn i es) as E1 eqn:HeqE1.
  remember (skipn i es) as E2 eqn:HeqE2.
  assert (HE1 : length E1 = i) by (rewrite HeqE1, length_firstn; lia).
  assert (Hlow : Forall (fun e => (fst e < k)%Z) E1).
  { rewrite HeqE1. rewrite firstn_map in Hpre.
    apply Forall_map in Hpre. exact Hpre. }
  assert (Hhigh : match E2 with [] => True | e :: _ => (k < fst e)%Z end).
  { destruct E2 as [|e E2']; auto.
    assert (Hnth : nth_error (map fst es) i = Some (fst e)).
    { rewrite nth_error_map, HE, <- HE1, nth_error_exact. reflexivity. }
    pose proof (lead_next _ _ _ Hnth).
    assert (fst e <> k).
    { intros <-. apply Hin. eapply nth_error_In; eauto. }
    lia. }
  destruct (nth_error cs i) as [ci|] eqn:Hci.
  2:{ apply nth_error_None in Hci. lia. }
  destruct (nth_error_split cs i Hci) as (C1 & C2 & HC & HC1).
  rewrite HC in Hall. apply Forall2_app_inv_l in Hall.
  destruct Hall as (L1 & L2' & HL1 & HL2 & HL).
  destruct L2' as [|li L2]; [inversion HL2|].
  apply Forall2_cons_iff in HL2. destruct HL2 as (Hbi & HL2'').
  pose proof (Forall2_length HL1) as HlL1.
  assert (Hlist : interleave ls es =
                  interleave L1 E1 ++ li ++
                  match E2 with
                  | [] => interleave L2 []
                  | e :: E2' => e :: interleave L2 E2'
                  end).
  { rewrite HL, HE at 1. apply interleave_around. lia. }
  remember (interleave L1 E1) as P eqn:HeqP.
  remember (match E2 with
            | [] => interleave L2 []
            | e :: E2' => e :: interleave L2 E2'
            end) as T eqn:HeqT.
  rewrite Hlist in Hs.
  assert (HsP := Hs). apply asc_app in HsP. destruct HsP as (HaP & HaR & HPR).
  assert (HsR := HaR). apply asc_app in HsR. destruct HsR as (Hali & HaT & HliT).
  assert (HPlow : Forall (fun e => (fst e < k)%Z) P).
  { rewrite HeqP in *. apply (prefix_below k L1 E1 (li ++ T)); auto. lia. }
  assert (HThigh : Forall (fun e => (k < fst e)%Z) T).
  { assert (HL2E2 : length L2 = length E2).
    { apply Forall2_length in HL2''. rewrite <- HL2''.
      rewrite HC, length_app in Hcs. simpl in Hcs.
      rewrite HE, length_app in Hcs. lia. }
    clear HeqE2. destruct E2 as [|e E2'].
    - destruct L2; [subst T; constructor | discriminate].
    - rewrite HeqT in *. apply suffix_above; auto. }
  assert (HTge : match T with [] => True | e :: _ => (k <= fst e)%Z end).
  { destruct T; auto. inversion HThigh; subst. lia. }
  assert (Hmem : In k (map fst (interleave ls es)) <-> In k (map fst li)).
  { rewrite Hlist, !map_app, !in_app_iff. split; [|tauto].
    intros [H'|[H'|H']]; auto; exfalso; apply in_map_iff in H';
      destruct H' as (e & He & Hine).
    - rewrite Forall_forall in HPlow. specialize (HPlow _ Hine). lia.
    - rewrite Forall_forall in HThigh. specialize (HThigh _ Hine). lia. }
  destruct (IH (B - 1) ci li Hbi Hali) as (r & Hr & Hadded).
  rewrite Hr, bind_some.
  destruct Hadded as [(Hk & ->) | (Hk & [(c' & -> & Hb') | Hsplit])].
  - (* the key is below *)
    cbn [BTreeMap.promote]. unfold ret. rewrite bind_some.
    cbn [Node.set_children node_of Node.keys Node.values Node.children].
    replace (set (pad (2 * B + 1) cs) i (Some ci)) with (pad (2 * B + 1) cs).
    2:{ rewrite <- (set_same (pad (2 * B + 1) cs) i) at 1.
        rewrite get_pad, Hci. reflexivity. }
    rewrite set_children_node_of.
    rewrite split_node_of_small by lia.
    eexists. split; [reflexivity|]. left. split; auto. now apply Hmem.
  - (* the child has grown without splitting *)
    cbn [BTreeMap.promote]. unfold ret. rewrite bind_some.
    cbn [Node.set_children node_of Node.keys Node.values Node.children].
    rewrite HC, <- HC1, set_child_exact by (rewrite <- HC; lia).
    rewrite set_children_node_of.
    rewrite split_node_of_small by lia.
    eexists. split; [reflexivity|]. right. split; [now rewrite Hmem|].
    left. eexists. split; [reflexivity|].
    exists es, (C1 ++ c' :: C2), (L1 ++ ins k v li :: L2).
    repeat split; auto; try lia.
    + rewrite Hlist. rewrite ins_app_left by exact HPlow.
      rewrite ins_app_right by exact HTge.
      rewrite HE, HeqP, HeqT. symmetry. apply interleave_around. lia.
    + rewrite HC, length_app in Hcs. cbn [length] in Hcs.
      rewrite length_app. cbn [length]. lia.
    + apply Forall2_app; auto.
  - (* the child was split *)
    destruct Hsplit as (es1 & x & es2 & cs1 & cs2 & l1 & l2 &
                        -> & Hes1 & Hcs1 & Hb1 & Hb2 & Hins).
    cbn [BTreeMap.promote].
    rewrite (remove_node_of B (es1 ++ [x]) cs1 (B - 1) x)
      by (rewrite <- ?Hes1, ?nth_error_exact, ?length_app; simpl; auto; lia).
    rewrite <- Hes1, firstn_exact.
    replace (skipn (S (length es1)) (es1 ++ [x])) with (@nil (Z * V)).
    2:{ rewrite skipn_all2; auto. rewrite length_app. simpl. lia. }
    rewrite app_nil_r. cbn [fst snd].
    cbn [Node.set_children node_of Node.keys Node.values Node.children].
    rewrite HC, <- HC1, set_child_exact by (rewrite <- HC; lia).
    rewrite set_children_node_of.
    (* the promoted entry lies between the entries around slot [i] *)
    assert (Hnew : asc (P ++ (l1 ++ x :: l2) ++ T)).
    { rewrite <- Hins, <- ins_app_right by exact HTge.
      rewrite <- ins_app_left by exact HPlow.
      apply asc_ins; [exact Hs|]. rewrite <- Hlist. now rewrite Hmem. }
    assert (Hx1 : Forall (fun e => (fst e < fst x)%Z) E1).
    { apply Forall_forall. intros e He.
      apply asc_app in Hnew. destruct Hnew as (_ & _ & Hnew).
      apply Hnew.
      - rewrite HeqP. apply in_interleave_entry; auto. left. lia.
      - apply in_or_app. left. apply in_or_app. right. now left. }
    assert (Hx2 : match E2 with [] => True | e :: _ => (fst x <= fst e)%Z end).
    { clear HeqE2. destruct E2 as [|e E2']; auto.
      apply asc_app in Hnew. destruct Hnew as (_ & Hnew & _).
      apply asc_app in Hnew. destruct Hnew as (_ & _ & Hnew).
      assert (fst x < fst e)%Z; [|lia].
      apply Hnew.
      - apply in_or_app. right. now left.
      - rewrite HeqT. now left. }
    assert (Hinsert :
      Node.insert B (Some (fst x)) (Some (snd x))
        (node_of B es (C1 ++ node_of B es2 cs2 :: C2)) =
      Some (node_of B (E1 ++ x :: E2) (C1 ++ node_of B es2 cs2 :: C2))).
    { rewrite HE at 1. destruct x as [xk xv]. cbn [fst snd] in *.
      apply insert_exact; auto. rewrite <- HE. lia. }
    rewrite Hinsert. destruct x as [xk xv]. cbn [fst snd] in *.
    rewrite !bind_some. unfold ret.
    rewrite add_child_exact.
    2:{ rewrite HC in Hcs. rewrite !length_app in *. simpl in *. lia. }
    eexists. split; [reflexivity|].
    apply split_grown with (ls := L1 ++ l1 :: l2 :: L2); auto.
    + now rewrite Hmem.
    + rewrite length_app. simpl. rewrite HE, length_app in Hm. lia.
    + rewrite Hlist. rewrite ins_app_left by exact HPlow.
      rewrite ins_app_right by exact HTge. rewrite Hins.
      replace (L1 ++ l1 :: l2 :: L2) with ((L1 ++ [l1]) ++ l2 :: L2)
        by (now rewrite <- app_assoc).
      replace (E1 ++ (xk, xv) :: E2) with ((E1 ++ [(xk, xv)]) ++ E2)
        by (now rewrite <- app_assoc).
      rewrite interleave_around by (rewrite !length_app; simpl; lia).
      replace (interleave (L1 ++ [l1]) (E1 ++ [(xk, xv)]))
        with (P ++ l1 ++ [(xk, xv)]).
      2:{ rewrite interleave_app by lia. rewrite HeqP. reflexivity. }
      rewrite <- HeqT, <- !app_assoc. reflexivity.
    + right. exists h'. split; auto. split.
      * rewrite HC, HE in Hcs. rewrite !length_app in *. simpl in *. lia.
      * apply Forall2_app; auto.
Qed.

(** [add_recursive] on a B-tree with an ascending listing. *)
Lemma add_recursive_bt (h : nat) :
  1 <= B ->
  forall (m : nat) (u : Node.t V) (l : list (Z * V)) (k : Z) (v : V),
  bt B h m u l -> asc l ->
  exists r, BTreeMap.add_recursive B k v u = Some r /\ added B h m k v u l r.
Proof.
  intros HB. induction h as [|h IH]; intros m u l k v Hb Hs.
  - destruct Hb as (Hl & ->). now apply add_recursive_leaf.
  - destruct Hb as (es & cs & ls & -> & -> & Hm & Hcs & Hall).
    apply add_recursive_node; auto.
Qed.

End Insertion.

Section Traversal.
Context {V : Type}.
Variable B : nat.

Lemma preorder_eq (u : Node.t V) (result : list (Z * V)) :
  Node.preorder B u result =
  Node.preorder_slots (fun c r => Node.preorder B c r)
    (Node.keys u) (Node.values u) (2 * B) 0 (Node.children u) result.
Proof. destruct u. reflexivity. Qed.

(** The loop of [preorder] from slot [i] on, over the populated children
    [cs] (with listings [ls]) followed by [r] null slots, and the entries
    [skipn i ES]. *)
Lemma preorder_slots_spec (f : Node.t V -> list (Z * V) -> M (list (Z * V)))
  (ES : list (Z * V)) (N : nat) (n : nat) :
  forall (i r : nat) (cs : list (Node.t V)) (ls : list (list (Z * V)))
         (acc : list (Z * V)),
  Forall2 (fun c l => forall acc, f c acc = Some (acc ++ l)) cs ls ->
  length (skipn i ES) <= n -> length cs <= n ->
  length (skipn i ES) <= length cs + r ->
  Node.preorder_slots f (pad N (map fst ES)) (pad N (map snd ES)) n i
    (map Some cs ++ repeat None r) acc =
  Some (acc ++ interleave ls (skipn i ES)).
Proof.
  induction n as [|n IH]; intros i r cs ls acc Hall He Hc Hr.
  - destruct cs; [|simpl in Hc; lia]. inversion Hall; subst.
    destruct (skipn i ES); [|simpl in He; lia].
    simpl. destruct (repeat None r); now rewrite app_nil_r.
  - assert (Hsk : skipn i ES = match nth_error ES i with
                               | Some e => e :: skipn (S i) ES
                               | None => []
                               end).
    { clear. revert i. induction ES as [|e ES IHE]; intros [|i]; simpl; auto. }
    destruct cs as [|c cs].
    + inversion Hall; subst. simpl app.
      destruct r as [|r].
      * simpl in Hr. destruct (skipn i ES); [|simpl in Hr; lia].
        simpl. now rewrite app_nil_r.
      * cbn [repeat Node.preorder_slots]. unfold ret at 1. rewrite bind_some.
        rewrite !get_pad, !nth_error_map. rewrite Hsk in *.
        destruct (nth_error ES i) as [e|] eqn:Hn; cbn [option_map].
        -- unfold ret at 1. rewrite bind_some.
           pose proof (IH (S i) r [] [] (acc ++ [(fst e, snd e)])) as IH'.
           cbn [map app] in IH'. rewrite IH'; simpl in *; auto; try lia.
           rewrite <- app_assoc. destruct e. reflexivity.
        -- unfold ret at 1. rewrite bind_some.
           assert (Hnil : skipn (S i) ES = []).
           { apply skipn_all2. apply nth_error_None in Hn. lia. }
           pose proof (IH (S i) r [] [] acc) as IH'.
           cbn [map app] in IH'.
           rewrite IH'; rewrite ?Hnil; simpl; auto; lia.
    + inversion Hall as [|? l0 ? ls' Hf Hall']; subst.
      cbn [map app Node.preorder_slots]. rewrite Hf, bind_some.
      rewrite !get_pad, !nth_error_map. rewrite Hsk in *.
      destruct (nth_error ES i) as [e|] eqn:Hn; cbn [option_map].
      * unfold ret at 1. rewrite bind_some.
        rewrite (IH (S i) r cs ls' ((acc ++ l0) ++ [(fst e, snd e)]));
          simpl in *; auto; try lia.
        rewrite <- !app_assoc. destruct e. reflexivity.
      * unfold ret at 1. rewrite bind_some.
        assert (Hnil : skipn (S i) ES = []).
        { apply skipn_all2. apply nth_error_None in Hn. lia. }
        rewrite (IH (S i) r cs ls' (acc ++ l0)); rewrite ?Hnil;
          simpl in *; auto; try lia.
        now rewrite <- app_assoc.
Qed.

(** [preorder] appends the in-order listing. *)
Lemma preorder_bt (h : nat) :
  1 <= B ->
  forall (m : nat) (u : Node.t V) (l acc : list (Z * V)),
  bt B h m u l -> Node.preorder B u acc = Some (acc ++ l).
Proof.
  intros HB. induction h as [|h IH]; intros m u l acc Hb.
  - destruct Hb as (Hl & ->). rewrite preorder_eq.
    cbn [node_of Node.keys Node.values Node.children].
    unfold pad at 3. cbn [map app].
    rewrite (preorder_slots_spec _ l (2 * B) (2 * B) 0
               (2 * B + 1 - length (@nil (Node.t V))) [] [] acc);
      simpl; auto; lia.
  - destruct Hb as (es & cs & ls & -> & -> & Hm & Hcs & Hall).
    rewrite preorder_eq.
    cbn [node_of Node.keys Node.values Node.children].
    unfold pad at 3.
    rewrite (preorder_slots_spec _ es (2 * B) (2 * B) 0
               (2 * B + 1 - length cs) cs ls acc); simpl; auto; try lia.
    eapply Forall2_impl; [|exact Hall].
    intros c l Hc acc'. eapply IH; eauto.
Qed.

Lemma height_eq (u : Node.t V) :
  height u = match get (Node.children u) 0 with
             | Some c => S (height c)
             | None => 0
             end.
Proof. destruct u. cbn [height]. now rewrite on_child_get. Qed.

(** The height of a B-tree is the index of [bt]. *)
Lemma height_bt (h : nat) :
  forall (m : nat) (u : Node.t V) (l : list (Z * V)),
  bt B h m u l -> height u = h.
Proof.
  induction h as [|h IH]; intros m u l Hb; rewrite height_eq.
  - destruct Hb as (Hl & ->). cbn [node_of Node.children].
    now rewrite get_pad.
  - destruct Hb as (es & cs & ls & -> & -> & Hm & Hcs & Hall).
    cbn [node_of Node.children]. rewrite get_pad.
    destruct cs as [|c cs]; [simpl in Hcs; lia|].
    inversion Hall; subst. simpl. f_equal. eapply IH; eauto.
Qed.

End Traversal.

Section PublicInsert.
Context {V : Type}.
Variable B : nat.

(** [add_recursive] is [add_no_split] followed by [split]. *)
Lemma add_recursive_split (k : Z) (v : V) (u : Node.t V) :
  BTreeMap.add_recursive B k v u =
  o <- add_no_split B k v u ;;
  match o with
  | None => ret (None, u)
  | Some u' => ret (Node.split B u')
  end.
Proof.
  rewrite add_recursive_eq. unfold add_no_split. cbv zeta.
  destruct (BTreeMap.find_it (Node.keys u) (2 * B - 1) k <? 0)%Z; [reflexivity|].
  destruct (get (Node.children u) _) as [c|].
  - destruct (BTreeMap.add_recursive B k v c) as [[w c']|]; [|reflexivity].
    rewrite !bind_some.
    destruct (BTreeMap.promote B w _ _); reflexivity.
  - destruct (Node.insert B (Some k) (Some v) u); reflexivity.
Qed.

Lemma size_from_le (i : nat) (ks : list (option Z)) : Node.size_from i ks <= i.
Proof.
  induction i as [|i IH]; cbn [Node.size_from]; [lia|].
  destruct (is_some (get ks i)); lia.
Qed.

(** [split] hands out a node exactly when its receiver holds [2B] keys. *)
Lemma split_iff_overflowed (u : Node.t V) :
  1 <= B -> (fst (Node.split B u) <> None <-> overflowed B u).
Proof.
  intros HB. unfold overflowed, Node.size, Node.split.
  replace (2 * B) with (S (2 * B - 1)) at 2 3 by lia.
  cbn [Node.size_from].
  destruct (get (Node.keys u) (2 * B - 1)) as [x|]; cbn [is_some].
  - destruct (Node.split_out B 0 (Node.empty B, u)). cbn [fst].
    split; [reflexivity | discriminate].
  - cbn [fst]. pose proof (size_from_le (2 * B - 1) (Node.keys u)).
    split; [congruence | lia].
Qed.

(** The node that [insert] builds over the two halves of a split root. *)
Lemma new_root_node_of (x : Z * V) (w r : Node.t V) :
  1 <= B ->
  Node.mk (set (Node.keys (@Node.empty V B)) 0 (Some (fst x)))
          (set (Node.values (@Node.empty V B)) 0 (Some (snd x)))
          (set (set (Node.children (@Node.empty V B)) 0 (Some w)) 1 (Some r)) =
  node_of B [x] [w; r].
Proof.
  intros HB. unfold Node.empty, node_of, pad.
  cbn [Node.keys Node.values Node.children map length app].
  destruct B as [|b]; [lia|].
  replace (2 * S b) with (S (S (2 * b))) by lia.
  replace (S (S (2 * b)) + 1) with (S (S (S (2 * b)))) by lia.
  replace (S (S (2 * b)) - 1) with (S (2 * b)) by lia.
  replace (S (S (S (2 * b))) - 2) with (S (2 * b)) by lia.
  reflexivity.
Qed.

(** [insert] on a B-tree with an ascending listing. *)
Lemma insert_bt (h : nat) (t : BTreeMap.t V) (l : list (Z * V))
  (k : Z) (v : V) :
  1 <= B -> bt B h 0 (BTreeMap.root t) l -> asc l ->
  (In k (map fst l) /\ BTreeMap.insert B k v t = Some (false, t)) \/
  (~ In k (map fst l) /\
   exists b t',
     BTreeMap.insert B k v t = Some (b, t') /\
     bt B (if b then S h else h) 0 (BTreeMap.root t') (ins k v l)).
Proof.
  intros HB Hb Hs.
  destruct (add_recursive_bt B h HB 0 (BTreeMap.root t) l k v Hb Hs)
    as (r & Hr & Hadded).
  unfold BTreeMap.insert. rewrite Hr, bind_some.
  destruct Hadded as [(Hin & ->) | (Hin & [(u' & -> & Hb') | Hsplit])].
  - left. split; auto. now destruct t.
  - right. split; auto. exists false, (BTreeMap.mk u'). split; auto.
  - right. split; auto.
    destruct Hsplit as (es1 & x & es2 & cs1 & cs2 & l1 & l2 &
                        -> & Hes1 & Hcs1 & Hb1 & Hb2 & Hins).
    rewrite (remove_node_of B (es1 ++ [x]) cs1 (B - 1) x)
      by (rewrite <- ?Hes1, ?nth_error_exact, ?length_app; simpl; auto; lia).
    rewrite <- Hes1, firstn_exact.
    replace (skipn (S (length es1)) (es1 ++ [x])) with (@nil (Z * V)).
    2:{ rewrite skipn_all2; auto. rewrite length_app. simpl. lia. }
    rewrite app_nil_r. cbn [fst snd].
    rewrite new_root_node_of by exact HB.
    exists true, (BTreeMap.mk (node_of B [x] [node_of B es1 cs1; node_of B es2 cs2])).
    split; [reflexivity|]. cbn [BTreeMap.root].
    exists [x], [node_of B es1 cs1; node_of B es2 cs2], [l1; l2].
    repeat split; auto.
    + rewrite Hins. simpl. now rewrite app_nil_r.
    + simpl. lia.
    + simpl. lia.
Qed.

(** [insert] answers true exactly when the root has overflowed. *)
Lemma insert_true_iff (t t' : BTreeMap.t V) (k : Z) (v : V) (b : bool) :
  1 <= B -> BTreeMap.insert B k v t = Some (b, t') ->
  (b = true <->
   exists u', add_no_split B k v (BTreeMap.root t) = Some (Some u') /\
              overflowed B u').
Proof.
  intros HB. unfold BTreeMap.insert. rewrite add_recursive_split.
  destruct (add_no_split B k v (BTreeMap.root t)) as [[u'|]|];
    rewrite ?bind_some; unfold ret; rewrite ?bind_some; try discriminate.
  - pose proof (split_iff_overflowed u' HB) as Hiff.
    destruct (Node.split B u') as [[w|] r]; cbn [fst] in Hiff.
    + destruct (Node.remove B (B - 1) w). intros H; inversion H; subst.
      split; [|reflexivity]. intros _. exists u'. split; auto.
      apply Hiff. discriminate.
    + intros H; inversion H; subst. split; [discriminate|].
      intros (u'' & Hu & Ho). inversion Hu; subst u''.
      apply Hiff in Ho. congruence.
  - intros H; inversion H; subst.
    split; [discriminate|]. intros (u'' & Hu & _). discriminate.
Qed.

End PublicInsert.

(** ** [split] on any node *)

Section SplitAnyNode.
Context {V : Type}.
Variable B : nat.

(** The new node's array after the first loop of [split]. *)
Lemma split_new_slots {A : Type} (n : nat) (a : list (option A)) (x : nat) :
  B <= n ->
  get (fst (hand_over B 0 0 (repeat None n, a))) x =
  if x <? B then get a x else None.
Proof.
  intros Hl.
  destruct (hand_over_spec B 0 0 (repeat None n) a) as (_ & _ & H3 & _).
  { rewrite repeat_length. lia. }
  rewrite H3. cases_nat; try lia.
  - f_equal. lia.
  - unfold get. apply nth_repeat.
Qed.

(** The receiver's array after both loops of [split]. *)
Lemma split_old_slots {A : Type} (n : nat) (a : list (option A)) (x : nat) :
  1 <= B -> 2 * B <= n -> length a = n ->
  length (slide B 0 B (snd (hand_over B 0 0 (repeat None n, a)))) = n /\
  get (slide B 0 B (snd (hand_over B 0 0 (repeat None n, a)))) x =
  if x <? B then get a (x + B)
  else if x <? 2 * B then None
  else get a x.
Proof.
  intros HB Hl Hn.
  destruct (hand_over_spec B 0 0 (repeat None n) a) as (_ & H2 & _ & H4).
  { rewrite repeat_length. lia. }
  destruct (slide_spec B 0 B (snd (hand_over B 0 0 (repeat None n, a))))
    as (H5 & H6); try lia.
  split; [lia|].
  rewrite H6, !H4. cases_nat; try reflexivity; lia.
Qed.

(** C9. On a node with the declared array sizes, [split] returns null and
    leaves the node as it is when it holds fewer than [2B] keys.  When it
    holds [2B] keys, the node returned holds the slots [0 .. B-1] of the
    keys, values and children (so its key at index [B-1] is the median, the
    one the caller promotes) and nothing else; the receiver keeps the
    slots [B .. 2B-1] of the keys and values and [B .. 2B] of the children,
    moved down to its front, and nothing else. *)
Theorem split_moves_first_half (u : Node.t V) :
  1 <= B ->
  length (Node.keys u) = 2 * B -> length (Node.values u) = 2 * B ->
  length (Node.children u) = 2 * B + 1 ->
  (Node.size B u < 2 * B -> Node.split B u = (None, u)) /\
  (Node.size B u = 2 * B ->
   exists new_child u',
     Node.split B u = (Some new_child, u') /\
     (forall i, i < B ->
        get (Node.keys new_child) i = get (Node.keys u) i /\
        get (Node.values new_child) i = get (Node.values u) i /\
        get (Node.children new_child) i = get (Node.children u) i) /\
     (forall i, B <= i ->
        get (Node.keys new_child) i = None /\
        get (Node.values new_child) i = None /\
        get (Node.children new_child) i = None) /\
     (forall i, i < B ->
        get (Node.keys u') i = get (Node.keys u) (i + B) /\
        get (Node.values u') i = get (Node.values u) (i + B)) /\
     (forall i, i <= B ->
        get (Node.children u') i = get (Node.children u) (i + B)) /\
     (forall i, B <= i ->
        get (Node.keys u') i = None /\ get (Node.values u') i = None) /\
     (forall i, B < i -> get (Node.children u') i = None)).
Proof.
  intros HB Hk Hv Hc.
  pose proof (split_iff_overflowed B u HB) as Hiff.
  unfold overflowed in Hiff.
  split.
  - intros Hs. unfold Node.split in *.
    destruct (get (Node.keys u) (2 * B - 1)); [|reflexivity].
    exfalso. destruct (Node.split_out B 0 (Node.empty B, u)).
    cbn [fst] in Hiff. assert (Node.size B u = 2 * B); [|lia].
    apply Hiff. discriminate.
  - intros Hs. apply Hiff in Hs. unfold Node.split in *.
    destruct (get (Node.keys u) (2 * B - 1)); [|now cbn [fst] in Hs].
    clear Hs Hiff. rewrite split_out_arrays.
    unfold Node.empty, Node.set_children.
    cbn [Node.keys Node.values Node.children].
    rewrite split_down_arrays.
    cbn [Node.keys Node.values Node.children].
    eexists. eexists. split; [reflexivity|].
    cbn [Node.keys Node.values Node.children].
    destruct (hand_over_spec B 0 0 (repeat None (2 * B + 1))
                (Node.children u)) as (Hln & _ & _ & _).
    { rewrite repeat_length. lia. }
    rewrite repeat_length in Hln.
    repeat match goal with |- _ /\ _ => split end; intros i Hi;
      repeat match goal with |- _ /\ _ => split end.
    + rewrite split_new_slots by lia. cases_nat; [reflexivity | lia].
    + rewrite split_new_slots by lia. cases_nat; [reflexivity | lia].
    + rewrite get_set, split_new_slots by lia.
      cases_nat; try reflexivity; lia.
    + rewrite split_new_slots by lia. cases_nat; [lia | reflexivity].
    + rewrite split_new_slots by lia. cases_nat; [lia | reflexivity].
    + rewrite get_set, split_new_slots by lia.
      cases_nat; try reflexivity; lia.
    + destruct (split_old_slots (2 * B) (Node.keys u) i) as (_ & ->); try lia.
      cases_nat; try reflexivity; lia.
    + destruct (split_old_slots (2 * B) (Node.values u) i) as (_ & ->); try lia.
      cases_nat; try reflexivity; lia.
    + destruct (split_old_slots (2 * B + 1) (Node.children u) B) as (Hl' & _); try lia.
      rewrite get_move_slot by lia.
      destruct (split_old_slots (2 * B + 1) (Node.children u) i) as (_ & ->); try lia.
      destruct (split_old_slots (2 * B + 1) (Node.children u) (2 * B)) as (_ & ->); try lia.
      cases_nat; try lia; subst; f_equal; lia.
    + destruct (split_old_slots (2 * B) (Node.keys u) i) as (_ & ->); try lia.
      cases_nat; try reflexivity; try lia.
      apply get_beyond. lia.
    + destruct (split_old_slots (2 * B) (Node.values u) i) as (_ & ->); try lia.
      cases_nat; try reflexivity; try lia.
      apply get_beyond. lia.
    + destruct (split_old_slots (2 * B + 1) (Node.children u) B) as (Hl' & _); try lia.
      rewrite get_move_slot by lia.
      destruct (split_old_slots (2 * B + 1) (Node.children u) i) as (_ & ->); try lia.
      cases_nat; try reflexivity; try lia.
      apply get_beyond. lia.
Qed.

End SplitAnyNode.

Lemma split_moves_first_half_witness :
  let u := node_of 2 (full_leaf_entries ++ [(40%Z, to_string 41)]) [] in
  (Node.size 2 u < 2 * 2 -> Node.split 2 u = (None, u)) /\
  (Node.size 2 u = 2 * 2 ->
   exists new_child u',
     Node.split 2 u = (Some new_child, u') /\
     (forall i, i < 2 ->
        get (Node.keys new_child) i = get (Node.keys u) i /\
        get (Node.values new_child) i = get (Node.values u) i /\
        get (Node.children new_child) i = get (Node.children u) i) /\
     (forall i, 2 <= i ->
        get (Node.keys new_child) i = None /\
        get (Node.values new_child) i = None /\
        get (Node.children new_child) i = None) /\
     (forall i, i < 2 ->
        get (Node.keys u') i = get (Node.keys u) (i + 2) /\
        get (Node.values u') i = get (Node.values u) (i + 2)) /\
     (forall i, i <= 2 ->
        get (Node.children u') i = get (Node.children u) (i + 2)) /\
     (forall i, 2 <= i ->
        get (Node.keys u') i = None /\ get (Node.values u') i = None) /\
     (forall i, 2 < i -> get (Node.children u') i = None)).
Proof.
  exact (split_moves_first_half 2
           (node_of 2 (full_leaf_entries ++ [(40%Z, to_string 41)]) [])
           (le_S 1 1 (le_n 1)) eq_refl eq_refl eq_refl).
Defined.

(** ** Rebalancing after a removal *)

Lemma somes_pad {A : Type} (n : nat) (l : list A) : somes (pad n l) = l.
Proof.
  unfold somes, pad. rewrite flat_map_app.
  replace (flat_map (fun o : option A => match o with Some x => [x] | None => [] end)
             (repeat None (n - length l))) with (@nil A).
  2:{ induction (n - length l); simpl; auto. }
  rewrite app_nil_r. induction l as [|x l IH]; simpl; [reflexivity | now rewrite IH].
Qed.

Lemma entries_node_of {V : Type} (B : nat) (es : list (Z * V))
  (cs : list (Node.t V)) : entries (node_of B es cs) = es.
Proof.
  unfold entries, node_of. cbn [Node.keys Node.values].
  rewrite !somes_pad. induction es as [|[k v] es IH]; simpl; [reflexivity|].
  now rewrite IH.
Qed.

Lemma kids_node_of {V : Type} (B : nat) (es : list (Z * V))
  (cs : list (Node.t V)) : kids (node_of B es cs) = cs.
Proof. unfold kids, node_of. cbn [Node.children]. apply somes_pad. Qed.

Lemma close_gap_slide {V : Type} (n : nat) :
  forall (i : nat) (cs : list (option (Node.t V))),
  BTreeMap.close_gap n i cs = slide n i 1 cs.
Proof.
  induction n as [|n IH]; intros i cs; simpl; [reflexivity | apply IH].
Qed.

Lemma merge_loop_arrays {V : Type} (n : nat) :
  forall (i j : nat) (l r : Node.t V),
  BTreeMap.merge_loop n i j (l, r) =
  (Node.mk (fst (hand_over n i j (Node.keys l, Node.keys r)))
           (fst (hand_over n i j (Node.values l, Node.values r)))
           (fst (hand_over n i j (Node.children l, Node.children r))),
   Node.mk (snd (hand_over n i j (Node.keys l, Node.keys r)))
           (snd (hand_over n i j (Node.values l, Node.values r)))
           (snd (hand_over n i j (Node.children l, Node.children r)))).
Proof.
  induction n as [|n IH]; intros i j l r; simpl.
  - now destruct l, r.
  - now rewrite IH.
Qed.

(** The populated slots of the right array, appended to the left one. *)
Lemma merged_slots {A : Type} (n : nat) (l1 l2 : list A) :
  length l1 + length l2 <= n ->
  fst (hand_over (length l2) (length l1) 0 (pad n l1, pad n l2)) =
  pad n (l1 ++ l2).
Proof.
  intros Hl.
  destruct (hand_over_spec (length l2) (length l1) 0 (pad n l1) (pad n l2))
    as (H1 & _ & H3 & _).
  { rewrite length_pad; lia. }
  rewrite length_pad in H1 by lia.
  apply pad_intro; auto.
  - rewrite length_app. lia.
  - intros x Hx. rewrite H3, !get_pad.
    destruct (Nat.lt_ge_cases x (length l1)) as [Hlt|Hge];
      [|destruct (Nat.lt_ge_cases x (length l1 + length l2)) as [Hlt|Hge']];
      cases_nat; try lia.
    + now rewrite nth_error_app1 by lia.
    + rewrite nth_error_app2 by lia. f_equal. lia.
    + rewrite nth_error_app2 by lia.
      transitivity (@None A); [|symmetry]; apply nth_error_None; lia.
Qed.

(** The children of the left node once [merge] has moved those of the
    right node behind them. *)
Lemma merged_children {A : Type} (n : nat) (c1 c2 : list A) (n1 n2 : nat) :
  n1 + n2 < n ->
  (c1 = [] /\ c2 = [] \/ length c1 = n1 /\ length c2 = S n2) ->
  set (fst (hand_over n2 n1 0 (pad n c1, pad n c2))) (n1 + n2)
      (get (snd (hand_over n2 n1 0 (pad n c1, pad n c2))) n2) =
  pad n (c1 ++ c2).
Proof.
  intros Hn Hshape.
  assert (Hc1 : length c1 <= n) by (destruct Hshape as [(-> & _)|(? & ?)]; simpl; lia).
  assert (Hc2 : length c2 <= n) by (destruct Hshape as [(_ & ->)|(? & ?)]; simpl; lia).
  destruct (hand_over_spec n2 n1 0 (pad n c1) (pad n c2)) as (H1 & H2 & H3 & H4).
  { rewrite length_pad; lia. }
  rewrite length_pad in H1, H2 by lia.
  apply pad_intro.
  - now rewrite length_set.
  - rewrite length_app. destruct Hshape as [(-> & ->)|(? & ?)]; simpl; lia.
  - intros x Hx. rewrite get_set, H1, H3, H4, !get_pad.
    destruct Hshape as [(-> & ->)|(Hl1 & Hl2)].
    + simpl. cases_nat; try lia; now destruct (x - n1 + 0), n2, x.
    + destruct (Nat.lt_ge_cases x (length c1)) as [Hlt|Hge];
        [|destruct (Nat.lt_ge_cases x (length c1 + length c2)) as [Hlt|Hge']];
        cases_nat; try lia; subst.
      * now rewrite nth_error_app1 by lia.
      * rewrite nth_error_app2 by lia. f_equal. lia.
      * rewrite nth_error_app2 by lia. f_equal. lia.
      * rewrite nth_error_app2 by lia.
        transitivity (@None A); [|symmetry]; apply nth_error_None; lia.
Qed.

(** The children of the parent once [merge] has closed the slot of the
    right node. *)
Lemma closed_gap {A : Type} (n : nat) (C1 C2 : list A) (l l' r r' : A) :
  length (C1 ++ l :: r :: C2) <= n ->
  slide (n - (length C1 + 1)) (length C1 + 1) 1
    (set (set (pad (n + 1) (C1 ++ l :: r :: C2)) (length C1) (Some l'))
         (length C1 + 1) (Some r')) =
  pad (n + 1) (C1 ++ l' :: C2).
Proof.
  intros Hl. rewrite length_app in Hl. simpl in Hl.
  destruct (slide_spec (n - (length C1 + 1)) (length C1 + 1) 1
              (set (set (pad (n + 1) (C1 ++ l :: r :: C2)) (length C1) (Some l'))
                   (length C1 + 1) (Some r'))) as (H1 & H2); try lia.
  { rewrite !length_set, length_pad; rewrite ?length_app; simpl; lia. }
  rewrite !length_set, length_pad in H1 by (rewrite ?length_app; simpl; lia).
  apply pad_intro; auto.
  - rewrite length_app. simpl. lia.
  - intros x Hx. rewrite H2, !get_set, !length_set, !get_pad.
    rewrite length_pad by (rewrite ?length_app; simpl; lia).
    destruct (Nat.lt_ge_cases x (length C1)) as [Hlt|Hge].
    + cases_nat; try lia; now rewrite !nth_error_app1 by lia.
    + rewrite (nth_error_app2 C1 (l' :: C2)) by lia.
      destruct (Nat.eq_dec x (length C1)) as [He|Hne].
      * rewrite He, Nat.sub_diag. cases_nat; try lia; reflexivity.
      * destruct (Nat.lt_ge_cases x n) as [Hxn|Hxn]; cases_nat; try lia;
          remember (x - length C1 - 1) as d eqn:Hd;
          replace (x - length C1) with (S d) by lia; cbn [nth_error];
          first [ rewrite nth_error_app2 by lia;
                  replace (x + 1 - length C1) with (S (S d)) by lia;
                  reflexivity
                | symmetry; apply nth_error_None; lia ].
Qed.

Lemma cut_out {A : Type} (E1 E2 : list A) (p : A) (i : nat) :
  length E1 = i ->
  firstn i (E1 ++ p :: E2) ++ skipn (S i) (E1 ++ p :: E2) = E1 ++ E2.
Proof.
  intros <-. rewrite firstn_exact. f_equal.
  replace (E1 ++ p :: E2) with ((E1 ++ [p]) ++ E2) by (now rewrite <- app_assoc).
  replace (S (length E1)) with (length (E1 ++ [p]))
    by (rewrite length_app; simpl; lia).
  apply skipn_exact.
Qed.

Section Rebalance.
Context {V : Type}.
Variable B : nat.

Lemma get_children_exact (es : list (Z * V)) (C1 C2 : list (Node.t V))
  (c : Node.t V) (i : nat) :
  i = length C1 ->
  get (Node.children (node_of B es (C1 ++ c :: C2))) i = Some c.
Proof.
  intros ->. cbn [node_of Node.children]. rewrite get_pad.
  apply nth_error_exact.
Qed.

(** [merge] of the children number [i] and [i + 1]. *)
Lemma merge_exact (E1 E2 : list (Z * V)) (p : Z * V)
  (C1 C2 : list (Node.t V)) (les res : list (Z * V))
  (lcs rcs : list (Node.t V)) (i : nat) :
  1 <= B -> i = length C1 -> length E1 = length C1 ->
  length (E1 ++ p :: E2) <= 2 * B - 1 ->
  length (C1 ++ node_of B les lcs :: node_of B res rcs :: C2) <= 2 * B ->
  length les + 1 + length res <= 2 * B - 1 ->
  Forall (fun e => (fst e < fst p)%Z) les ->
  (lcs = [] /\ rcs = [] \/
   length lcs = S (length les) /\ length rcs = S (length res)) ->
  BTreeMap.merge B
    (node_of B (E1 ++ p :: E2)
       (C1 ++ node_of B les lcs :: node_of B res rcs :: C2)) i i (i + 1) =
  Some (node_of B (E1 ++ E2)
          (C1 ++ node_of B (les ++ p :: res) (lcs ++ rcs) :: C2)).
Proof.
  intros HB Hi HE Hpl Hcl Hsz Hlow Hshape. subst i.
  unfold BTreeMap.merge.
  rewrite (remove_node_of B (E1 ++ p :: E2) _ (length C1) p)
    by (rewrite <- ?HE, ?nth_error_exact; auto; lia).
  rewrite (cut_out E1 E2 p (length C1)) by auto.
  cbn [fst snd]. unfold BTreeMap.deref.
  rewrite get_children_exact by reflexivity. rewrite bind_some.
  destruct p as [pk pv]. cbn [fst snd] in *.
  replace les with (les ++ []) at 1 by apply app_nil_r.
  rewrite insert_exact; auto.
  2:{ rewrite app_nil_r. lia. }
  rewrite bind_some.
  replace (C1 ++ node_of B les lcs :: node_of B res rcs :: C2)
    with ((C1 ++ [node_of B les lcs]) ++ node_of B res rcs :: C2)
    by (now rewrite <- app_assoc).
  rewrite get_children_exact by (rewrite length_app; simpl; lia).
  rewrite bind_some. rewrite <- app_assoc. cbn [app].
  rewrite !size_node_of by (rewrite ?length_app; simpl; lia).
  rewrite merge_loop_arrays.
  cbn [node_of Node.keys Node.values Node.children Node.set_children].
  unfold ret. f_equal. unfold Node.size.
  cbn [Node.keys Node.values Node.children].
  assert (Hk : fst (hand_over (length res) (length (les ++ [(pk, pv)])) 0
                      (pad (2 * B) (map fst (les ++ [(pk, pv)])),
                       pad (2 * B) (map fst res))) =
               pad (2 * B) (map fst (les ++ (pk, pv) :: res))).
  { replace (length res) with (length (map fst res)) by apply length_map.
    replace (length (les ++ [(pk, pv)])) with (length (map fst (les ++ [(pk, pv)])))
      by apply length_map.
    rewrite merged_slots.
    - now rewrite <- map_app, <- app_assoc.
    - rewrite !length_map, length_app. simpl. lia. }
  assert (Hv : fst (hand_over (length res) (length (les ++ [(pk, pv)])) 0
                      (pad (2 * B) (map snd (les ++ [(pk, pv)])),
                       pad (2 * B) (map snd res))) =
               pad (2 * B) (map snd (les ++ (pk, pv) :: res))).
  { replace (length res) with (length (map snd res)) by apply length_map.
    replace (length (les ++ [(pk, pv)])) with (length (map snd (les ++ [(pk, pv)])))
      by apply length_map.
    rewrite merged_slots.
    - now rewrite <- map_app, <- app_assoc.
    - rewrite !length_map, length_app. simpl. lia. }
  rewrite Hk, Hv. rewrite size_from_pad, length_map.
  replace (Nat.min (2 * B) (length (les ++ (pk, pv) :: res)))
    with (length (les ++ [(pk, pv)]) + length res)
    by (rewrite !length_app; simpl; lia).
  rewrite merged_children.
  2:{ rewrite length_app. simpl. lia. }
  2:{ rewrite length_app. simpl. destruct Hshape as [?|(? & ?)]; [left|right]; auto.
      split; lia. }
  replace (2 * B - (length C1 + 1)) with (2 * B + 1 - 1 - (length C1 + 1)) by lia.
  replace (pad (2 * B + 1) (C1 ++ node_of B les lcs :: node_of B res rcs :: C2))
    with (pad (2 * B + 1 - 1 + 1) (C1 ++ node_of B les lcs :: node_of B res rcs :: C2))
    by (f_equal; lia).
  rewrite close_gap_slide, closed_gap by lia.
  replace (2 * B + 1 - 1 + 1) with (2 * B + 1) by lia.
  reflexivity.
Qed.

Lemma insert_front (ces : list (Z * V)) (ccs : list (Node.t V)) (p : Z * V) :
  length ces < 2 * B ->
  Forall (fun x => (fst p < fst x)%Z) ces ->
  Node.insert B (Some (fst p)) (Some (snd p)) (node_of B ces ccs) =
  Some (node_of B (p :: ces) ccs).
Proof.
  intros Hl Hup. destruct p as [pk pv].
  pose proof (insert_exact B [] ces ccs pk pv) as H. cbn [app fst snd] in *.
  apply H; auto.
  destruct ces as [|x ces]; auto. inversion Hup; subst. lia.
Qed.

Lemma insert_back (ces : list (Z * V)) (ccs : list (Node.t V)) (p : Z * V) :
  length ces < 2 * B ->
  Forall (fun x => (fst x < fst p)%Z) ces ->
  Node.insert B (Some (fst p)) (Some (snd p)) (node_of B ces ccs) =
  Some (node_of B (ces ++ [p]) ccs).
Proof.
  intros Hl Hlow. destruct p as [pk pv].
  pose proof (insert_exact B ces [] ccs pk pv) as H.
  rewrite app_nil_r in H. cbn [fst snd] in *. apply H; auto.
Qed.

Lemma insert_between (E1 E2 : list (Z * V)) (cs : list (Node.t V)) (e : Z * V) :
  length (E1 ++ E2) < 2 * B ->
  Forall (fun x => (fst x < fst e)%Z) E1 ->
  Forall (fun x => (fst e < fst x)%Z) E2 ->
  Node.insert B (Some (fst e)) (Some (snd e)) (node_of B (E1 ++ E2) cs) =
  Some (node_of B (E1 ++ e :: E2) cs).
Proof.
  intros Hl Hlow Hup. destruct e as [k v]. cbn [fst snd] in *.
  apply insert_exact; auto.
  destruct E2 as [|x E2]; auto. inversion Hup; subst. lia.
Qed.

(** [borrow_from_left] for the child number [i]. *)
Lemma borrow_from_left_exact (E1 E2 : list (Z * V)) (p e : Z * V)
  (C1 C2 : list (Node.t V)) (les ces : list (Z * V))
  (lcs ccs : list (Node.t V)) (i : nat) :
  i = S (length C1) -> length E1 = length C1 ->
  length (E1 ++ p :: E2) <= 2 * B - 1 ->
  length (C1 ++ node_of B (les ++ [e]) lcs :: node_of B ces ccs :: C2)
    <= 2 * B + 1 ->
  length (les ++ [e]) <= 2 * B ->
  length ces < 2 * B ->
  Forall (fun x => (fst x < fst e)%Z) E1 ->
  Forall (fun x => (fst e < fst x)%Z) E2 ->
  Forall (fun x => (fst p < fst x)%Z) ces ->
  BTreeMap.borrow_from_left B
    (node_of B (E1 ++ p :: E2)
       (C1 ++ node_of B (les ++ [e]) lcs :: node_of B ces ccs :: C2))
    i i (i - 1) =
  Some (node_of B (E1 ++ e :: E2)
          (C1 ++ node_of B les lcs :: node_of B (p :: ces) ccs :: C2)).
Proof.
  intros -> HE Hpl Hcl Hll Hcl' Hlow Hup Hch.
  unfold BTreeMap.borrow_from_left, BTreeMap.deref.
  replace (S (length C1) - 1) with (length C1) by lia.
  rewrite get_children_exact by reflexivity. rewrite bind_some.
  rewrite size_node_of by exact Hll.
  rewrite length_app. cbn [length]. rewrite Nat.add_1_r.
  rewrite (remove_node_of B (les ++ [e]) lcs (length les) e)
    by (auto using nth_error_exact).
  rewrite (cut_out les [] e (length les)) by reflexivity. rewrite app_nil_r.
  rewrite (remove_node_of B (E1 ++ p :: E2) _ (length C1) p)
    by (rewrite <- ?HE, ?nth_error_exact; auto; lia).
  rewrite (cut_out E1 E2 p (length C1)) by auto.
  cbn [fst snd].
  rewrite insert_between; auto.
  2:{ rewrite length_app in *. cbn [length] in Hpl. lia. }
  rewrite bind_some.
  replace (C1 ++ node_of B (les ++ [e]) lcs :: node_of B ces ccs :: C2)
    with ((C1 ++ [node_of B (les ++ [e]) lcs]) ++ node_of B ces ccs :: C2)
    by (now rewrite <- app_assoc).
  rewrite get_children_exact by (rewrite length_app; simpl; lia).
  rewrite bind_some, insert_front; auto. rewrite bind_some.
  unfold ret. f_equal.
  cbn [node_of Node.children Node.set_children Node.keys Node.values].
  f_equal. rewrite <- app_assoc. cbn [app].
  rewrite set_child_exact by exact Hcl.
  replace (C1 ++ node_of B les lcs :: node_of B ces ccs :: C2)
    with ((C1 ++ [node_of B les lcs]) ++ node_of B ces ccs :: C2)
    by (now rewrite <- app_assoc).
  replace (S (length C1)) with (length (C1 ++ [node_of B les lcs]))
    by (rewrite length_app; simpl; lia).
  rewrite set_child_exact.
  - now rewrite <- app_assoc.
  - rewrite !length_app in *. cbn [length] in *. lia.
Qed.

(** [borrow_from_right] for the first child. *)
Lemma borrow_from_right_exact (E2 : list (Z * V)) (p e : Z * V)
  (C2 : list (Node.t V)) (res ces : list (Z * V))
  (rcs ccs : list (Node.t V)) :
  length (p :: E2) <= 2 * B - 1 ->
  length (node_of B ces ccs :: node_of B (e :: res) rcs :: C2) <= 2 * B + 1 ->
  length (e :: res) <= 2 * B ->
  length ces < 2 * B ->
  Forall (fun x => (fst e < fst x)%Z) E2 ->
  Forall (fun x => (fst x < fst p)%Z) ces ->
  BTreeMap.borrow_from_right B
    (node_of B (p :: E2)
       (node_of B ces ccs :: node_of B (e :: res) rcs :: C2))
    0 0 (0 + 1) =
  Some (node_of B (e :: E2)
          (node_of B (ces ++ [p]) ccs :: node_of B res rcs :: C2)).
Proof.
  intros Hpl Hcl Hrl Hcl' Hup Hch.
  unfold BTreeMap.borrow_from_right, BTreeMap.deref.
  pose proof (get_children_exact (p :: E2) [node_of B ces ccs] C2
                (node_of B (e :: res) rcs) (0 + 1) eq_refl) as Hr.
  pose proof (get_children_exact (p :: E2) []
                (node_of B (e :: res) rcs :: C2) (node_of B ces ccs) 0 eq_refl)
    as Hc.
  cbn [app length] in Hr, Hc.
  rewrite Hr, bind_some.
  rewrite (remove_node_of B (e :: res) rcs 0 e) by auto.
  rewrite (remove_node_of B (p :: E2) _ 0 p) by (auto; cbn [length] in *; lia).
  cbn [firstn skipn app fst snd].
  rewrite (insert_between [] E2); auto.
  2:{ cbn [length app] in *. lia. }
  rewrite bind_some.
  rewrite Hc, bind_some, insert_back; auto.
Qed.

Lemma get_children_node_of (es : list (Z * V)) (cs : list (Node.t V)) (i : nat) :
  get (Node.children (node_of B es cs)) i = nth_error cs i.
Proof. cbn [node_of Node.children]. apply get_pad. Qed.

Lemma size_packed (lvl : bool) (u : Node.t V) :
  packed B lvl u -> Node.size B u = length (entries u).
Proof.
  intros (Hu & Hl & _).
  transitivity (Node.size B (node_of B (entries u) (kids u))).
  - now rewrite <- Hu.
  - apply size_node_of. lia.
Qed.

Lemma packed_shape (lvl : bool) (l r : Node.t V) :
  packed B lvl l -> packed B lvl r ->
  kids l = [] /\ kids r = [] \/
  length (kids l) = S (length (entries l)) /\
  length (kids r) = S (length (entries r)).
Proof.
  intros (_ & _ & Hl) (_ & _ & Hr). destruct lvl; [left | right]; auto.
Qed.

Lemma merge_packed (lvl : bool) (E1 E2 : list (Z * V)) (p : Z * V)
  (C1 C2 : list (Node.t V)) (l r : Node.t V) (i : nat) :
  1 <= B -> i = length C1 -> length E1 = length C1 ->
  length (E1 ++ p :: E2) <= 2 * B - 1 ->
  length (C1 ++ l :: r :: C2) <= 2 * B ->
  packed B lvl l -> packed B lvl r ->
  length (entries l) + 1 + length (entries r) <= 2 * B - 1 ->
  Forall (fun e => (fst e < fst p)%Z) (entries l) ->
  BTreeMap.merge B (node_of B (E1 ++ p :: E2) (C1 ++ l :: r :: C2)) i i (i + 1) =
  Some (node_of B (E1 ++ E2) (C1 ++ merged B l p r :: C2)).
Proof.
  intros HB Hi HE Hpl Hcl Pl Pr Hsz Hlow.
  pose proof (packed_shape lvl l r Pl Pr) as Hshape.
  destruct Pl as (Hl & _ & _), Pr as (Hr & _ & _).
  unfold merged.
  remember (entries l) as les. remember (kids l) as lcs.
  remember (entries r) as res. remember (kids r) as rcs.
  subst l r. apply merge_exact; auto.
Qed.

Lemma borrow_from_left_packed (lvl : bool) (E1 E2 : list (Z * V)) (p e : Z * V)
  (C1 C2 : list (Node.t V)) (l c : Node.t V) (les : list (Z * V)) (i : nat) :
  1 <= B -> i = S (length C1) -> length E1 = length C1 ->
  length (E1 ++ p :: E2) <= 2 * B - 1 ->
  length (C1 ++ l :: c :: C2) <= 2 * B + 1 ->
  packed B lvl l -> packed B lvl c ->
  entries l = les ++ [e] ->
  Forall (fun x => (fst x < fst e)%Z) E1 ->
  Forall (fun x => (fst e < fst x)%Z) E2 ->
  Forall (fun x => (fst p < fst x)%Z) (entries c) ->
  BTreeMap.borrow_from_left B
    (node_of B (E1 ++ p :: E2) (C1 ++ l :: c :: C2)) i i (i - 1) =
  Some (node_of B (E1 ++ e :: E2)
          (C1 ++ node_of B les (kids l)
              :: node_of B (p :: entries c) (kids c) :: C2)).
Proof.
  intros HB Hi HE Hpl Hcl (Hl & Hll & _) (Hc & Hcl' & _) Hles Hlow Hup Hch.
  rewrite Hles in Hl, Hll.
  remember (kids l) as lcs. remember (entries c) as ces.
  remember (kids c) as ccs. subst l c.
  apply borrow_from_left_exact; auto; lia.
Qed.

Lemma borrow_from_right_packed (lvl : bool) (E2 : list (Z * V)) (p e : Z * V)
  (C2 : list (Node.t V)) (c r : Node.t V) (res : list (Z * V)) :
  1 <= B ->
  length (p :: E2) <= 2 * B - 1 ->
  length (c :: r :: C2) <= 2 * B + 1 ->
  packed B lvl c -> packed B lvl r ->
  entries r = e :: res ->
  Forall (fun x => (fst e < fst x)%Z) E2 ->
  Forall (fun x => (fst x < fst p)%Z) (entries c) ->
  BTreeMap.borrow_from_right B
    (node_of B (p :: E2) (c :: r :: C2)) 0 0 (0 + 1) =
  Some (node_of B (e :: E2)
          (node_of B (entries c ++ [p]) (kids c)
             :: node_of B res (kids r) :: C2)).
Proof.
  intros HB Hpl Hcl (Hc & Hcl' & _) (Hr & Hrl & _) Hres Hup Hch.
  rewrite Hres in Hr, Hrl.
  remember (kids r) as rcs. remember (entries c) as ces.
  remember (kids c) as ccs. subst r c.
  apply borrow_from_right_exact; auto; lia.
Qed.

(** What the order of the listing says around one separator [p] of a node:
    [a] and [b] are the listings of the two children next to it. *)
Lemma around_separator (L1 L2 : list (list (Z * V))) (E1 E2 : list (Z * V))
  (p : Z * V) (a b : list (Z * V)) :
  length L1 = length E1 -> length L2 = length E2 ->
  asc (interleave (L1 ++ a :: b :: L2) (E1 ++ p :: E2)) ->
  Forall (fun x => (fst x < fst p)%Z) a /\
  Forall (fun y => (fst p < fst y)%Z) b /\
  (forall x y, In x E1 -> In y a -> (fst x < fst y)%Z) /\
  (forall x y, In x a -> In y E2 -> (fst x < fst y)%Z) /\
  (forall x y, In x b -> In y E2 -> (fst x < fst y)%Z).
Proof.
  intros H1 H2 Hasc.
  rewrite interleave_around in Hasc by exact H1.
  set (R := match E2 with
            | [] => interleave L2 []
            | e :: E2' => e :: interleave L2 E2'
            end) in *.
  assert (HR : forall y, In y E2 -> In y R).
  { intros y Hy. subst R. destruct E2 as [|e E2']; [destruct Hy|].
    destruct Hy as [->|Hy]; [now left | right].
    apply in_interleave_entry; auto. }
  change (interleave (b :: L2) E2) with (b ++ R) in Hasc.
  apply asc_app in Hasc. destruct Hasc as (_ & Hasc & HP).
  apply asc_app in Hasc. destruct Hasc as (_ & Hasc & Ha).
  apply asc_cons in Hasc. destruct Hasc as (Hp & Hasc).
  apply asc_app in Hasc. destruct Hasc as (_ & _ & Hb).
  repeat match goal with |- _ /\ _ => split end.
  - apply Forall_forall. intros x Hx. apply Ha; auto. now left.
  - apply Forall_forall. intros y Hy. apply Hp. apply in_or_app. now left.
  - intros x y Hx Hy. apply HP.
    + apply in_interleave_entry; auto.
    + apply in_or_app. now left.
  - intros x y Hx Hy. apply Ha; auto. right. apply in_or_app. right. now apply HR.
  - intros x y Hx Hy. apply Hb; auto.
Qed.

End Rebalance.

Lemma split_at_child {A : Type} (l : list A) (j : nat) (x : A) :
  nth_error l (S j) = Some x ->
  exists C1 y C2, l = C1 ++ y :: x :: C2 /\ length C1 = j.
Proof.
  intros H. destruct (nth_error_split l (S j) H) as (L1 & L2 & -> & HL).
  destruct (exists_last (l := L1)) as (C1 & y & ->).
  { intros ->. discriminate. }
  exists C1, y, L2. rewrite <- app_assoc. split; [reflexivity|].
  rewrite length_app in HL. simpl in HL. lia.
Qed.

Lemma split_at_entry {A : Type} (l : list A) (j : nat) :
  j < length l -> exists E1 p E2, l = E1 ++ p :: E2 /\ length E1 = j.
Proof.
  intros H. destruct (nth_error l j) as [p|] eqn:E.
  - destruct (nth_error_split l j E) as (E1 & E2 & -> & HL). now exists E1, p, E2.
  - apply nth_error_None in E. lia.
Qed.

Section RuleOrder.
Context {V : Type}.
Variable B : nat.

(** The case analysis of [check_child_underflow] on a parent of nodes of
    one level, the child number [idx] being short of entries: the call
    returns, and the node it returns is the one [rebalanced] describes. *)
Lemma underflow_rebalanced (lvl : bool) (pes : list (Z * V))
  (pcs : list (Node.t V)) (idx : nat) (child : Node.t V) :
  1 <= length pes <= 2 * B - 1 ->
  length pcs = S (length pes) ->
  Forall (packed B lvl) pcs ->
  asc (interleave (map entries pcs) pes) ->
  nth_error pcs idx = Some child ->
  length (entries child) < B - 1 ->
  exists parent',
    BTreeMap.check_child_underflow B (node_of B pes pcs) idx = Some parent' /\
    rebalanced B pes pcs idx child parent'.
Proof.
  intros Hpl Hcl Hpk Hasc Hnth Hunder.
  assert (HB : 1 <= B) by lia.
  assert (Pc : packed B lvl child).
  { eapply Forall_forall; [exact Hpk | eapply nth_error_In; exact Hnth]. }
  unfold BTreeMap.check_child_underflow.
  rewrite get_children_node_of, Hnth, (size_packed B lvl child Pc).
  destruct (Nat.ltb_spec (length (entries child)) (B - 1)) as [_|]; [|lia].
  unfold BTreeMap.sibling_small, BTreeMap.deref.
  rewrite !get_children_node_of.
  destruct idx as [|j].
  - destruct pcs as [|c [|r C2]]; try (cbn [length] in Hcl; lia).
    destruct pes as [|p E2]; [cbn [length] in Hpl; lia|].
    cbn [nth_error] in Hnth. injection Hnth as ->.
    assert (Pr : packed B lvl r).
    { inversion Hpk as [|? ? _ Hpk']; subst. now inversion Hpk'. }
    cbn [length] in Hpl, Hcl.
    destruct (around_separator [] (map entries C2) [] E2 p
                (entries child) (entries r)) as (Ha & Hb & _ & _ & Hb2);
      [reflexivity | rewrite length_map; lia | exact Hasc |].
    change (negb (0 =? 0)) with false.
    replace (0 <? 2 * B) with true by (symmetry; apply Nat.ltb_lt; lia).
    change (nth_error (child :: r :: C2) (0 + 1)) with (Some r).
    cbn [andb is_some bind ret]. rewrite (size_packed B lvl r Pr).
    destruct (Nat.leb_spec (length (entries r)) B) as [Hr|Hr].
    + pose proof (merge_packed B lvl [] E2 p [] C2 child r 0) as H.
      cbn [app length] in H. rewrite H; auto; try lia.
      eexists. split; [reflexivity|].
      apply (by_merge_right B (p :: E2) (child :: r :: C2) 0 child
               [] p E2 [] r C2); auto.
      intros C0 l HC. destruct C0; discriminate.
    + destruct (entries r) as [|e res] eqn:Hres; [cbn [length] in Hr; lia|].
      pose proof (borrow_from_right_packed B lvl E2 p e C2 child r res) as H.
      rewrite H; auto; cbn [length]; try lia.
      * eexists. split; [reflexivity|].
        apply (by_borrow_right B (p :: E2) (child :: r :: C2) 0 child
                 p E2 r C2 e res); auto.
        rewrite Hres. exact Hr.
      * apply Forall_forall. intros y Hy. apply Hb2; auto. now left.
  - destruct (split_at_child pcs j child Hnth) as (C1 & l & C2 & -> & HC1).
    destruct (split_at_entry pes j) as (E1 & p & E2 & -> & HE1).
    { rewrite length_app in Hcl. cbn [length] in Hcl. lia. }
    subst j. clear Hnth.
    assert (Pl : packed B lvl l).
    { eapply Forall_forall; [exact Hpk|]. apply in_or_app. right. now left. }
    repeat rewrite length_app in Hcl. rewrite length_app in Hpl.
    cbn [length] in Hcl, Hpl.
    rewrite map_app in Hasc. cbn [map] in Hasc.
    destruct (around_separator (map entries C1) (map entries C2) E1 E2 p
                (entries l) (entries child))
      as (Ha & Hb & HE1a & HaE2 & _);
      [rewrite length_map; lia | rewrite length_map; lia | exact Hasc |].
    change (negb (S (length C1) =? 0)) with true.
    assert (Hi : S (length C1) - 1 = length C1) by lia.
    rewrite !Hi, nth_error_exact. cbn [bind ret].
    rewrite (size_packed B lvl l Pl).
    assert (Hborrow :
      (forall r C3, C2 = r :: C3 -> B < length (entries r)) ->
      B < length (entries l) ->
      exists parent',
        BTreeMap.borrow_from_left B
          (node_of B (E1 ++ p :: E2) (C1 ++ l :: child :: C2))
          (S (length C1)) (S (length C1)) (length C1) = Some parent' /\
        rebalanced B (E1 ++ p :: E2) (C1 ++ l :: child :: C2)
          (S (length C1)) child parent').
    { intros Hbig Hl.
      destruct (exists_last (l := entries l)) as (les & e & Hles).
      { intros E. rewrite E in Hl. cbn [length] in Hl. lia. }
      pose proof (borrow_from_left_packed B lvl E1 E2 p e C1 C2 l child les
                    (S (length C1))) as H.
      rewrite Hi in H. rewrite H; auto.
      - eexists. split; [reflexivity|].
        apply (by_borrow_left B (E1 ++ p :: E2) (C1 ++ l :: child :: C2)
                 (S (length C1)) child E1 p E2 C1 l C2 e les); auto.
      - rewrite !length_app. cbn [length]. lia.
      - rewrite !length_app. cbn [length]. lia.
      - apply Forall_forall. intros x Hx. apply HE1a; auto.
        rewrite Hles. apply in_or_app. right. now left.
      - apply Forall_forall. intros y Hy. apply HaE2; auto.
        rewrite Hles. apply in_or_app. right. now left. }
    destruct (Nat.leb_spec (length (entries l)) B) as [Hl|Hl].
    + pose proof (merge_packed B lvl E1 E2 p C1 C2 l child (length C1)) as H.
      replace (length C1 + 1) with (S (length C1)) in H by lia.
      rewrite H;
        [| solve [auto | lia | repeat rewrite length_app; cbn [length]; lia] ..].
      eexists. split; [reflexivity|].
      apply (by_merge_left B (E1 ++ p :: E2) (C1 ++ l :: child :: C2)
               (S (length C1)) child E1 p E2 C1 l C2); auto.
    + destruct C2 as [|r C3].
      * replace (nth_error (C1 ++ [l; child]) (S (length C1) + 1))
          with (@None (Node.t V))
          by (symmetry; apply nth_error_None; rewrite length_app;
              cbn [length]; lia).
        cbn [is_some]. rewrite Bool.andb_false_r. cbn [bind ret].
        apply Hborrow; auto. intros r C3 E. discriminate.
      * assert (Pr : packed B lvl r).
        { eapply Forall_forall; [exact Hpk|].
          apply in_or_app. right. right. right. now left. }
        assert (Hnr : nth_error (C1 ++ l :: child :: r :: C3)
                        (S (length C1) + 1) = Some r).
        { replace (C1 ++ l :: child :: r :: C3)
            with ((C1 ++ [l; child]) ++ r :: C3) by (now rewrite <- app_assoc).
          replace (S (length C1) + 1) with (length (C1 ++ [l; child]))
            by (rewrite length_app; cbn [length]; lia).
          apply nth_error_exact. }
        cbn [length] in Hcl. rewrite Hnr. cbn [is_some].
        replace (S (length C1) <? 2 * B) with true
          by (symmetry; apply Nat.ltb_lt; lia).
        cbn [andb bind ret]. rewrite (size_packed B lvl r Pr).
        destruct (Nat.leb_spec (length (entries r)) B) as [Hr|Hr].
        -- destruct E2 as [|q E3]; [cbn [length] in Hcl; lia|].
           cbn [map length] in Hasc, Hcl, Hpl.
           destruct (around_separator (map entries (C1 ++ [l]))
                       (map entries C3) (E1 ++ [p]) E3 q
                       (entries child) (entries r)) as (Hc & _).
           { rewrite length_map, !length_app. cbn [length]. lia. }
           { rewrite length_map. lia. }
           { rewrite map_app. repeat rewrite <- app_assoc.
             cbn [map app]. exact Hasc. }
           replace (E1 ++ p :: q :: E3) with ((E1 ++ [p]) ++ q :: E3)
             by (now rewrite <- app_assoc).
           replace (C1 ++ l :: child :: r :: C3)
             with ((C1 ++ [l]) ++ child :: r :: C3)
             by (now rewrite <- app_assoc).
           assert (HlenC : S (length C1) = length (C1 ++ [l]))
             by (rewrite length_app; cbn [length]; lia).
           assert (HlenE : length (E1 ++ [p]) = length (C1 ++ [l]))
             by (rewrite !length_app; cbn [length]; lia).
           rewrite (merge_packed B lvl (E1 ++ [p]) E3 q (C1 ++ [l]) C3
                      child r (S (length C1)));
             [| solve [auto | lia
                      | repeat rewrite length_app; cbn [length]; lia] ..].
           eexists. split; [reflexivity|].
           apply (by_merge_right B _ _ (S (length C1)) child
                    (E1 ++ [p]) q E3 (C1 ++ [l]) r C3); auto.
           intros C0 l0 E. apply app_inj_tail in E. destruct E as (_ & <-).
           exact Hl.
        -- apply Hborrow; auto. intros r0 C4 E. injection E as <- <-. exact Hr.
Qed.

(** C2 (amended). A parent with entries [pes] (at least one) and children
    [pcs], all well-formed nodes of one level and ascending in the listing,
    whose child number [idx] holds fewer than [B - 1] entries: then
    [check_child_underflow] returns, and the parent it returns has applied
    exactly the first rule that applies, in the order merge with the left
    sibling, merge with the right sibling, borrow the largest entry of the
    left sibling, borrow the smallest entry of the right sibling; a
    borrowed entry goes to the parent in the place of the separating one,
    which goes to the child, at its front or at its end. *)
Theorem underflow_rule_order (lvl : bool) (pes : list (Z * V))
  (pcs : list (Node.t V)) (idx : nat) (child : Node.t V) :
  1 <= length pes <= 2 * B - 1 ->
  length pcs = S (length pes) ->
  Forall (packed B lvl) pcs ->
  asc (interleave (map entries pcs) pes) ->
  nth_error pcs idx = Some child ->
  length (entries child) < B - 1 ->
  exists parent',
    BTreeMap.check_child_underflow B (node_of B pes pcs) idx = Some parent' /\
    rule_applied B pes pcs idx child parent'.
Proof.
  intros Hpl Hcl Hpk Hasc Hnth Hunder.
  destruct (underflow_rebalanced lvl pes pcs idx child Hpl Hcl Hpk Hasc Hnth
              Hunder) as (parent' & Hrun & Hreb).
  exists parent'. split; [exact Hrun|].
  destruct Hreb.
  - eapply rule_merge_left; eassumption.
  - eapply rule_merge_right; eassumption.
  - eapply rule_borrow_left; eassumption.
  - eapply rule_borrow_right; eassumption.
Qed.
End RuleOrder.

(** The theorem above at the node {35, 40, 46} of the coverage test. *)
Lemma underflow_rule_order_witness :
  exists parent',
    BTreeMap.check_child_underflow 3 squeezed 2 = Some parent' /\
    rule_applied 3 (row [35; 40; 46]%Z) squeezed_leaves 2
      (node_of 3 (row [41]%Z) []) parent'.
Proof.
  apply (underflow_rule_order 3 true).
  - vm_compute. split; repeat constructor.
  - reflexivity.
  - repeat constructor; vm_compute; repeat constructor.
  - vm_compute. repeat constructor.
  - reflexivity.
  - vm_compute. repeat constructor.
Defined.

(** C2, as stated, fails: at the node {35, 40, 46} the underflowed leaf
    {41} has a left and a right sibling of four entries each, more than
    B = 3.  The stated order would borrow from the right sibling; the code
    borrows from the left one, and the two results differ. *)
Lemma underflow_borrows_left_first :
  map (Node.size 3) squeezed_leaves = [3; 4; 1; 4] /\
  BTreeMap.check_child_underflow 3 squeezed 2 =
    BTreeMap.borrow_from_left 3 squeezed 2 2 1 /\
  BTreeMap.check_child_underflow 3 squeezed 2 =
    Some (node_of 3 (row [35; 39; 46]%Z)
            (map (fun ks => node_of 3 (row ks) [])
               [ [32; 33; 34]; [36; 37; 38]; [40; 41]; [47; 48; 49; 50] ]%Z)) /\
  BTreeMap.check_child_underflow 3 squeezed 2 <>
    BTreeMap.borrow_from_right 3 squeezed 2 2 3.
Proof.
  repeat match goal with |- _ /\ _ => split end; try (vm_compute; reflexivity).
  vm_compute. discriminate.
Qed.

Lemma wf_preorder {V : Type} (B : nat) (m : BTreeMap.t V) (l : list (Z * V)) :
  1 <= B -> wf B m l -> BTreeMap.preorder B m [] = Some l.
Proof.
  intros HB (h & Hb & _). unfold BTreeMap.preorder.
  now rewrite (preorder_bt B h HB 0 (BTreeMap.root m) l []).
Qed.

Lemma empty_node_of {V : Type} (B : nat) : @Node.empty V B = node_of B [] [].
Proof.
  unfold Node.empty, node_of, pad. cbn [map length app].
  now rewrite !Nat.sub_0_r.
Qed.

(** The fresh map is well-formed, with nothing listed. *)
Lemma wf_new {V : Type} (B : nat) : wf B (@BTreeMap.new V B) [].
Proof.
  exists 0. split; [|exact I]. split; [simpl; lia | apply empty_node_of].
Qed.

(** C1 (amended). On a well-formed map with in-order listing [l],
    [insert key value] changes nothing and answers false when [key] is
    listed; otherwise the map stays well-formed, its listing gains
    [(key, value)] at its ordered place, and the answer is true exactly when
    the tree has grown by one level. *)
Theorem insert_if_absent {V : Type} (B : nat) (m : BTreeMap.t V)
  (l : list (Z * V)) (key : Z) (value : V) :
  1 <= B -> wf B m l ->
  BTreeMap.preorder B m [] = Some l /\
  (In key (map fst l) -> BTreeMap.insert B key value m = Some (false, m)) /\
  (~ In key (map fst l) ->
   exists b m',
     BTreeMap.insert B key value m = Some (b, m') /\
     wf B m' (ins key value l) /\
     BTreeMap.preorder B m' [] = Some (ins key value l) /\
     (b = true <->
      height (BTreeMap.root m') = S (height (BTreeMap.root m)))).
Proof.
  intros HB Hwf. split; [now apply wf_preorder|].
  destruct Hwf as (h & Hb & Hs).
  destruct (insert_bt B h m l key value HB Hb Hs)
    as [(Hin & Hr) | (Hin & b & m' & Hr & Hb')].
  - split; [auto | contradiction].
  - split; [contradiction|]. intros _. exists b, m'.
    assert (Hwf' : wf B m' (ins key value l)).
    { exists (if b then S h else h). split; auto. now apply asc_ins. }
    repeat split; auto.
    + now apply wf_preorder.
    + intros ->. rewrite (height_bt B _ _ _ _ Hb'), (height_bt B _ _ _ _ Hb).
      reflexivity.
    + intros Hh. rewrite (height_bt B _ _ _ _ Hb'), (height_bt B _ _ _ _ Hb) in Hh.
      destruct b; [reflexivity | lia].
Qed.

Lemma wf_full_leaf : wf 2 full_leaf full_leaf_entries.
Proof.
  exists 0. split.
  - split; [simpl; lia | reflexivity].
  - unfold asc. simpl. repeat constructor; lia.
Qed.

Lemma insert_if_absent_witness :
  let m := full_leaf in
  let l := full_leaf_entries in
  BTreeMap.preorder 2 m [] = Some l /\
  (In 40%Z (map fst l) ->
   BTreeMap.insert 2 40%Z (to_string 41) m = Some (false, m)) /\
  (~ In 40%Z (map fst l) ->
   exists b m',
     BTreeMap.insert 2 40%Z (to_string 41) m = Some (b, m') /\
     wf 2 m' (ins 40%Z (to_string 41) l) /\
     BTreeMap.preorder 2 m' [] = Some (ins 40%Z (to_string 41) l) /\
     (b = true <->
      height (BTreeMap.root m') = S (height (BTreeMap.root m)))).
Proof.
  exact (insert_if_absent 2 _ _ 40%Z (to_string 41)
           (le_S 1 1 (le_n 1)) wf_full_leaf).
Defined.

(** C1, as stated, fails: on the fresh map key 10 is absent and gets
    stored, and [insert] answers false. *)
Lemma insert_absent_answers_false :
  BTreeMap.preorder 2 (@BTreeMap.new String.string 2) [] = Some [] /\
  exists m',
    BTreeMap.insert 2 10%Z (to_string 11) (BTreeMap.new 2) = Some (false, m') /\
    BTreeMap.preorder 2 m' [] = Some [(10%Z, to_string 11)].
Proof.
  split; [reflexivity|]. eexists. split; vm_compute; reflexivity.
Qed.

(** C10. [insert] answers true exactly when the root, as [add_recursive]
    leaves it before its final [split], holds [2B] keys and is split; the
    tree is then one level higher, and otherwise keeps its height, also
    when an absent key has been stored. *)
Theorem insert_true_iff_root_split {V : Type} (B : nat) (m : BTreeMap.t V)
  (l : list (Z * V)) (key : Z) (value : V) :
  1 <= B -> wf B m l ->
  exists b m',
    BTreeMap.insert B key value m = Some (b, m') /\
    (b = true <->
     exists u', add_no_split B key value (BTreeMap.root m) = Some (Some u') /\
                overflowed B u') /\
    height (BTreeMap.root m') =
    (if b then S (height (BTreeMap.root m)) else height (BTreeMap.root m)) /\
    (~ In key (map fst l) -> BTreeMap.preorder B m' [] = Some (ins key value l)).
Proof.
  intros HB (h & Hb & Hs).
  destruct (insert_bt B h m l key value HB Hb Hs)
    as [(Hin & Hr) | (Hin & b & m' & Hr & Hb')].
  - exists false, m. repeat split; auto.
    + discriminate.
    + intros Ho. pose proof (insert_true_iff B m m key value false HB Hr) as Hiff.
      apply Hiff. exact Ho.
    + contradiction.
  - exists b, m'. split; auto. split.
    + exact (insert_true_iff B m m' key value b HB Hr).
    + split.
      * rewrite (height_bt B _ _ _ _ Hb'), (height_bt B _ _ _ _ Hb).
        now destruct b.
      * intros _. apply wf_preorder; auto.
        exists (if b then S h else h). split; auto. now apply asc_ins.
Qed.

Lemma insert_true_iff_root_split_witness :
  let m := full_leaf in
  let l := full_leaf_entries in
  exists b m',
    BTreeMap.insert 2 40%Z (to_string 41) m = Some (b, m') /\
    (b = true <->
     exists u', add_no_split 2 40%Z (to_string 41) (BTreeMap.root m)
                = Some (Some u') /\
                overflowed 2 u') /\
    height (BTreeMap.root m') =
    (if b then S (height (BTreeMap.root m)) else height (BTreeMap.root m)) /\
    (~ In 40%Z (map fst l) ->
     BTreeMap.preorder 2 m' [] = Some (ins 40%Z (to_string 41) l)).
Proof.
  exact (insert_true_iff_root_split 2 _ _ 40%Z (to_string 41)
           (le_S 1 1 (le_n 1)) wf_full_leaf).
Defined.

(** ** The coverage test of the harness, replayed *)

(** The layout asserted by the first [check_btree_correctness]. *)
Lemma filled_layout :
  (m <- Test.filled ;; r <- BTreeMap.bfs Test.B_FACTOR m [] ;; ret (layer_keys r))
  = Some Test.expected_keys.
Proof. vm_compute. reflexivity. Qed.

(** C3, as stated, fails: after [erase(44)] the leaf layer of the snapshot
    does not hold 13 nodes. *)
Lemma erase_44_not_13_leaves :
  ~ (exists r root middle leaves,
       (m <- Test.filled ;;
        '(_, m') <- BTreeMap.erase Test.B_FACTOR 44 m ;;
        BTreeMap.bfs Test.B_FACTOR m' []) = Some r /\
       layer_keys r = [root; middle; leaves] /\
       root = [[15; 31]%Z] /\ length middle = 3 /\ length leaves = 13).
Proof.
  intros (r & root & middle & leaves & Hr & Hl & _ & _ & Hn).
  vm_compute in Hr. inversion Hr; subst r. clear Hr.
  vm_compute in Hl. inversion Hl; subst. vm_compute in Hn. discriminate.
Qed.

(** C3 (amended). With B = 3, after the insertions of the test and
    [erase(44)], which returns the value stored under 44, the snapshot is
    the one the test expects: three layers, the root [{15, 31}], 3 nodes in
    the middle and 12 leaves; 43 and 45 share the leaf [{41, 42, 43, 45}],
    and their separator 43 has left the parent [{35, 40, 46}]. *)
Theorem erase_44_layout :
  (m <- Test.filled ;;
   '(v, m') <- BTreeMap.erase Test.B_FACTOR 44 m ;;
   r <- BTreeMap.bfs Test.B_FACTOR m' [] ;;
   ret (v, layer_keys r))
  = Some (Some (Some (to_string 45)), Test.expected_keys_1) /\
  map (@length (list Z)) Test.expected_keys_1 = [1; 3; 12] /\
  nth 0 Test.expected_keys_1 [] = [[15; 31]%Z] /\
  nth 2 (nth 1 Test.expected_keys_1 []) [] = [35; 40; 46]%Z /\
  nth 10 (nth 2 Test.expected_keys_1 []) [] = [41; 42; 43; 45]%Z.
Proof. vm_compute. repeat split; reflexivity. Qed.

(** ** A short script that reaches the borrowing of an internal node *)

(** Before the erase, the script has built a sound three-level tree. *)
Lemma script_before_erase :
  (t <- Script.before_erase ;; r <- BTreeMap.bfs 2 t [] ;; ret (layer_keys r))
  = Some [ [ [40] ]; [ [20]; [60; 80; 100] ];
           [ [10]; [30]; [50]; [70]; [90]; [110; 120] ] ]%Z /\
  Script.listing Script.before_erase =
  Some [10; 20; 30; 40; 50; 60; 70; 80; 90; 100; 110; 120]%Z /\
  (t <- Script.before_erase ;; ret (occupancy 2 true (BTreeMap.root t)))
  = Some true /\
  (t <- Script.before_erase ;; ret (leaf_depths 0 (BTreeMap.root t)))
  = Some [2; 2; 2; 2; 2; 2].
Proof. vm_compute. repeat split; reflexivity. Qed.

(** After the erase: [borrow_from_right] has moved 60 up and 40 down, and
    no child pointer. *)
Lemma script_after_erase :
  (t <- Script.after_erase ;; r <- BTreeMap.bfs 2 t [] ;; ret (layer_keys r))
  = Some [ [ [60] ]; [ [40]; [80; 100] ];
           [ [20; 30]; [50]; [70]; [90]; [110; 120] ] ]%Z.
Proof. vm_compute. reflexivity. Qed.

(** C4 (the code at the failing input). Key 50 is inserted with the value
    "51" and never erased; [find(50)] returns it before [erase(10)], and
    returns empty after it. *)
Theorem find_loses_key :
  (t <- Script.before_erase ;; BTreeMap.find 2 50 t)
  = Some (Some (to_string 51)) /\
  (t <- Script.after_erase ;; BTreeMap.find 2 50 t) = Some None.
Proof. vm_compute. split; reflexivity. Qed.

(** C5 (the code at the failing input). After the script, key 50 is stored
    in the tree, and [erase(50)] returns empty and removes nothing. *)
Theorem erase_misses_key :
  (exists t, Script.after_erase = Some t /\ stored 2 50 t) /\
  (t <- Script.after_erase ;;
   '(v, t') <- BTreeMap.erase 2 50 t ;;
   l <- BTreeMap.preorder 2 t' [] ;; ret (v, map fst l))
  = Some (None, [20; 30; 40; 60; 50; 80; 70; 100; 90; 110; 120]%Z).
Proof.
  split.
  - eexists. split; [vm_compute; reflexivity|].
    eexists. split; [vm_compute; reflexivity|].
    vm_compute. tauto.
  - vm_compute. reflexivity.
Qed.

(** C6 (the code at the failing input). After the script the in-order
    traversal is not ascending: 60 comes before 50. *)
Theorem preorder_not_ascending :
  Script.listing Script.after_erase =
  Some [20; 30; 40; 60; 50; 80; 70; 100; 90; 110; 120]%Z /\
  ~ ascending [20; 30; 40; 60; 50; 80; 70; 100; 90; 110; 120]%Z /\
  sanity [20; 30; 40; 60; 50; 80; 70; 100; 90; 110; 120]%Z = false.
Proof.
  split; [vm_compute; reflexivity|]. split; [|reflexivity].
  simpl. intros (_ & _ & _ & H & _).
  inversion H as [|? ? Hlt _]. lia.
Qed.

(** C7 (the code at the failing input). After the script the internal
    node [{40}] is left with one child, fewer than B = 2; the occupancy
    check fails on the tree, and on that node. *)
Theorem occupancy_broken :
  (t <- Script.after_erase ;; ret (occupancy 2 true (BTreeMap.root t)))
  = Some false /\
  (t <- Script.after_erase ;;
   c <- get (Node.children (BTreeMap.root t)) 0 ;;
   ret (Node.size 2 c, Node.is_leaf c, populated (Node.children c)))
  = Some (1, false, 1).
Proof. vm_compute. split; reflexivity. Qed.

(** C8 (the code at the failing input). Three more insertions split the
    damaged node; its right half [{42, 43}] has no child, so it is a leaf,
    one level above the other leaves. *)
Theorem leaves_not_level :
  (t <- Script.after_more ;; r <- BTreeMap.bfs 2 t [] ;; ret (layer_keys r))
  = Some [ [ [41; 60] ]; [ [40]; [42; 43]; [80; 100] ];
           [ [20; 30]; [50]; [70]; [90]; [110; 120] ] ]%Z /\
  (t <- Script.after_more ;; ret (leaf_depths 0 (BTreeMap.root t)))
  = Some [2; 1; 2; 2; 2; 2] /\
  (forall t, Script.after_more = Some t -> ~ balanced (BTreeMap.root t)).
Proof.
  split; [vm_compute; reflexivity|]. split; [vm_compute; reflexivity|].
  intros t Ht (d & Hd).
  assert (Hl : leaf_depths 0 (BTreeMap.root t) = [2; 1; 2; 2; 2; 2]).
  { vm_compute in Ht. inversion Ht; subst t. vm_compute. reflexivity. }
  rewrite Hl in Hd. inversion Hd as [|? ? H2 Hd']. inversion Hd' as [|? ? H1 _].
  congruence.
Qed.

(** ** Searching a well-formed tree *)

Section Descent.
Context {V : Type}.
Variable B : nat.

(** The child the search goes down to when [k] is not an entry of the node:
    the entries, children and listings on both sides of it. *)
Lemma descend (h' m : nat) (es : list (Z * V)) (cs : list (Node.t V))
  (ls : list (list (Z * V))) (k : Z) :
  m <= length es <= 2 * B - 1 -> length cs = S (length es) ->
  Forall2 (bt B h' (B - 1)) cs ls -> asc (interleave ls es) ->
  ~ In k (map fst es) ->
  exists E1 E2 C1 ci C2 L1 li L2 T,
    es = E1 ++ E2 /\ cs = C1 ++ ci :: C2 /\ ls = L1 ++ li :: L2 /\
    length E1 = lead k (map fst es) /\ length C1 = length E1 /\
    length L1 = length E1 /\ length L2 = length E2 /\
    Forall2 (bt B h' (B - 1)) C1 L1 /\ bt B h' (B - 1) ci li /\
    Forall2 (bt B h' (B - 1)) C2 L2 /\
    T = match E2 with
        | [] => interleave L2 []
        | e :: E2' => e :: interleave L2 E2'
        end /\
    interleave ls es = interleave L1 E1 ++ li ++ T /\
    Forall (fun e => (fst e < k)%Z) (interleave L1 E1) /\
    Forall (fun e => (k < fst e)%Z) T /\
    Forall (fun e => (fst e < k)%Z) E1 /\
    Forall (fun e => (k < fst e)%Z) E2.
Proof.
  intros Hm Hcs Hall Hs Hin.
  pose proof (Forall2_length Hall) as Hls.
  assert (Hes : asc es) by (apply (asc_interleave_entries ls); auto; lia).
  pose proof (lead_le k (map fst es)) as Hi. rewrite length_map in Hi.
  pose proof (lead_prefix k (map fst es)) as Hpre.
  set (i := lead k (map fst es)) in *.
  assert (HE : es = firstn i es ++ skipn i es) by (now rewrite firstn_skipn).
  remember (firstn i es) as E1 eqn:HeqE1.
  remember (skipn i es) as E2 eqn:HeqE2.
  assert (HE1 : length E1 = i) by (rewrite HeqE1, length_firstn; lia).
  assert (Hlow : Forall (fun e => (fst e < k)%Z) E1).
  { rewrite HeqE1. rewrite firstn_map in Hpre.
    apply Forall_map in Hpre. exact Hpre. }
  assert (Hhigh : match E2 with [] => True | e :: _ => (k < fst e)%Z end).
  { destruct E2 as [|e E2']; auto.
    assert (Hnth : nth_error (map fst es) i = Some (fst e)).
    { rewrite nth_error_map, HE, <- HE1, nth_error_exact. reflexivity. }
    pose proof (lead_next _ _ _ Hnth).
    assert (fst e <> k).
    { intros <-. apply Hin. eapply nth_error_In; eauto. }
    lia. }
  destruct (nth_error cs i) as [ci|] eqn:Hci.
  2:{ apply nth_error_None in Hci. lia. }
  destruct (nth_error_split cs i Hci) as (C1 & C2 & HC & HC1).
  rewrite HC in Hall. apply Forall2_app_inv_l in Hall.
  destruct Hall as (L1 & L2' & HL1 & HL2 & HL).
  destruct L2' as [|li L2]; [inversion HL2|].
  apply Forall2_cons_iff in HL2. destruct HL2 as (Hbi & HL2'').
  pose proof (Forall2_length HL1) as HlL1.
  assert (HL2E2 : length L2 = length E2).
  { apply Forall2_length in HL2''. rewrite <- HL2''.
    rewrite HC, length_app in Hcs. simpl in Hcs.
    rewrite HE, length_app in Hcs. lia. }
  assert (Hlist : interleave ls es =
                  interleave L1 E1 ++ li ++
                  match E2 with
                  | [] => interleave L2 []
                  | e :: E2' => e :: interleave L2 E2'
                  end).
  { rewrite HL, HE at 1. apply interleave_around. lia. }
  assert (HT : Forall (fun e => (k < fst e)%Z)
                 match E2 with
                 | [] => interleave L2 []
                 | e :: E2' => e :: interleave L2 E2'
                 end).
  { rewrite Hlist in Hs.
    apply asc_app in Hs. destruct Hs as (_ & Hs & _).
    apply asc_app in Hs. destruct Hs as (_ & Hs & _).
    clear HeqE2 Hlist HE. destruct E2 as [|e E2'].
    - destruct L2; [constructor | discriminate].
    - apply suffix_above; auto. }
  exists E1, E2, C1, ci, C2, L1, li, L2.
  eexists.
  repeat match goal with |- _ /\ _ => split end; try reflexivity; auto; try lia.
  - rewrite Hlist in Hs.
    apply (prefix_below k L1 E1
             (li ++ match E2 with
                    | [] => interleave L2 []
                    | e :: E2' => e :: interleave L2 E2'
                    end)); auto. lia.
  - clear HeqE2 Hlist HE Hhigh. destruct E2 as [|e E2']; [constructor|].
    rewrite Forall_forall in HT. apply Forall_forall. intros x [<-|Hx].
    + apply HT. now left.
    + apply HT. right. apply in_interleave_entry; auto.
Qed.

Lemma lookup_app (k : Z) (l1 l2 : list (Z * V)) :
  lookup k (l1 ++ l2) =
  match lookup k l1 with Some v => Some v | None => lookup k l2 end.
Proof.
  induction l1 as [|e l1 IH]; cbn [lookup app]; [reflexivity|].
  destruct (fst e =? k)%Z; auto.
Qed.

Lemma lookup_none (k : Z) (l : list (Z * V)) :
  ~ In k (map fst l) -> lookup k l = None.
Proof.
  induction l as [|e l IH]; cbn [lookup map]; [reflexivity|].
  intros Hn. destruct (Z.eqb_spec (fst e) k) as [E|E].
  - exfalso. apply Hn. now left.
  - apply IH. intros H. apply Hn. now right.
Qed.

Lemma lookup_in (k : Z) (v : V) (l : list (Z * V)) :
  asc l -> In (k, v) l -> lookup k l = Some v.
Proof.
  induction l as [|e l IH]; intros Hs Hin; [destruct Hin|].
  apply asc_cons in Hs. destruct Hs as (Hlt & Hs).
  cbn [lookup]. destruct Hin as [->|Hin].
  - cbn [fst snd]. now rewrite Z.eqb_refl.
  - destruct (Z.eqb_spec (fst e) k) as [E|E].
    + specialize (Hlt _ Hin). cbn [fst] in Hlt. lia.
    + auto.
Qed.

Lemma lookup_some (k : Z) (v : V) (l : list (Z * V)) :
  lookup k l = Some v -> In (k, v) l.
Proof.
  induction l as [|e l IH]; cbn [lookup]; [discriminate|].
  destruct (Z.eqb_spec (fst e) k) as [E|E].
  - intros [= <-]. left. destruct e. cbn [fst snd] in *. now subst.
  - intros H. right. auto.
Qed.

Lemma lookup_below (k : Z) (l : list (Z * V)) :
  Forall (fun e => (fst e < k)%Z) l -> lookup k l = None.
Proof.
  intros H. apply lookup_none. intros Hin. apply in_map_iff in Hin.
  destruct Hin as (e & <- & He). rewrite Forall_forall in H.
  specialize (H _ He). lia.
Qed.

Lemma lookup_above (k : Z) (l : list (Z * V)) :
  Forall (fun e => (k < fst e)%Z) l -> lookup k l = None.
Proof.
  intros H. apply lookup_none. intros Hin. apply in_map_iff in Hin.
  destruct Hin as (e & <- & He). rewrite Forall_forall in H.
  specialize (H _ He). lia.
Qed.

Lemma find_recursive_eq (k : Z) (u : Node.t V) :
  BTreeMap.find_recursive B k u =
  let i := BTreeMap.find_it (Node.keys u) (2 * B - 1) k in
  if (i <? 0)%Z
  then
    match get (Node.values u) (Z.to_nat (- (i + 1))) with
    | Some v => ret (Some v)
    | None => None
    end
  else
    match get (Node.children u) (Z.to_nat i) with
    | Some c => BTreeMap.find_recursive B k c
    | None => ret None
    end.
Proof.
  destruct u as [ks vs cs]. cbn [BTreeMap.find_recursive].
  rewrite on_child_get. reflexivity.
Qed.

(** The value next to a key an ascending node holds. *)
Lemma value_at_lead (k : Z) (es : list (Z * V)) :
  asc es -> In k (map fst es) ->
  exists v, nth_error (map snd es) (lead k (map fst es)) = Some v /\
            In (k, v) es.
Proof.
  intros Hs Hin. pose proof (lead_found k (map fst es) Hs Hin) as Hk.
  rewrite nth_error_map in Hk.
  destruct (nth_error es (lead k (map fst es))) as [[k' v]|] eqn:E;
    [|discriminate].
  cbn in Hk. injection Hk as ->.
  exists v. split.
  - now rewrite nth_error_map, E.
  - eapply nth_error_In; eauto.
Qed.

(** [find_recursive] on a B-tree with an ascending listing. *)
Lemma find_recursive_bt (h : nat) :
  1 <= B ->
  forall (m : nat) (u : Node.t V) (l : list (Z * V)) (k : Z),
  bt B h m u l -> asc l ->
  BTreeMap.find_recursive B k u = Some (lookup k l).
Proof.
  intros HB. induction h as [|h IH]; intros m u l k Hb Hs.
  - destruct Hb as (Hl & ->). rewrite find_recursive_eq.
    cbn [node_of Node.keys Node.values Node.children]. cbv zeta.
    rewrite find_it_spec by (auto; rewrite length_map; lia).
    destruct (in_dec Z.eq_dec k (map fst l)) as [Hin|Hin].
    + destruct (located_found k (map fst l) Hs Hin) as (-> & _).
      destruct (Z.ltb_spec (- (Z.of_nat (lead k (map fst l)) + 1)) 0); [|lia].
      replace (Z.to_nat (- (- (Z.of_nat (lead k (map fst l)) + 1) + 1)))
        with (lead k (map fst l)) by lia.
      rewrite get_pad.
      destruct (value_at_lead k l Hs Hin) as (v & -> & Hv).
      now rewrite (lookup_in k v l Hs Hv).
    + rewrite (located_absent k (map fst l) Hin).
      destruct (Z.ltb_spec (Z.of_nat (lead k (map fst l))) 0); [lia|].
      rewrite Nat2Z.id, get_pad.
      replace (nth_error (@nil (Node.t V)) (lead k (map fst l)))
        with (@None (Node.t V)) by (now destruct (lead k (map fst l))).
      now rewrite lookup_none.
  - destruct Hb as (es & cs & ls & -> & -> & Hm & Hcs & Hall).
    assert (Hes : asc es).
    { apply (asc_interleave_entries ls); auto.
      apply Forall2_length in Hall. lia. }
    rewrite find_recursive_eq.
    cbn [node_of Node.keys Node.values Node.children]. cbv zeta.
    rewrite find_it_spec by (auto; rewrite length_map; lia).
    destruct (in_dec Z.eq_dec k (map fst es)) as [Hin|Hin].
    + destruct (located_found k (map fst es) Hes Hin) as (-> & _).
      destruct (Z.ltb_spec (- (Z.of_nat (lead k (map fst es)) + 1)) 0); [|lia].
      replace (Z.to_nat (- (- (Z.of_nat (lead k (map fst es)) + 1) + 1)))
        with (lead k (map fst es)) by lia.
      rewrite get_pad.
      destruct (value_at_lead k es Hes Hin) as (v & -> & Hv).
      rewrite (lookup_in k v (interleave ls es) Hs); auto.
      apply in_interleave_entry; auto.
      apply Forall2_length in Hall. lia.
    + rewrite (located_absent k (map fst es) Hin).
      destruct (Z.ltb_spec (Z.of_nat (lead k (map fst es))) 0); [lia|].
      rewrite Nat2Z.id, get_pad.
      destruct (descend h m es cs ls k Hm Hcs Hall Hs Hin)
        as (E1 & E2 & C1 & ci & C2 & L1 & li & L2 & T & HE & HC & HL & HE1 &
            HC1 & HL1 & HL2 & HbC1 & Hbi & HbC2 & HT & Hlist & HP & HTk & _).
      rewrite <- HE1, <- HC1, HC, nth_error_exact.
      rewrite Hlist in Hs |- *.
      apply asc_app in Hs. destruct Hs as (_ & Hs & _).
      apply asc_app in Hs. destruct Hs as (Hli & _ & _).
      rewrite (IH (B - 1) ci li k Hbi Hli).
      rewrite !lookup_app, (lookup_below k _ HP), (lookup_above k _ HTk).
      now destruct (lookup k li).
Qed.

Lemma lookup_none_iff (k : Z) (l : list (Z * V)) :
  lookup k l = None <-> ~ In k (map fst l).
Proof.
  split; [|apply lookup_none].
  induction l as [|e l IH]; cbn [lookup map]; [tauto|].
  destruct (Z.eqb_spec (fst e) k) as [E|E]; [discriminate|].
  intros H [H'|H']; [contradiction|]. now apply IH.
Qed.

Lemma lookup_ins_other (k k' : Z) (v : V) (l : list (Z * V)) :
  k <> k' -> lookup k (ins k' v l) = lookup k l.
Proof.
  intros Hne. induction l as [|e l IH]; cbn [ins lookup fst snd].
  - destruct (Z.eqb_spec k' k); [congruence | reflexivity].
  - destruct (fst e <? k')%Z; cbn [lookup fst snd].
    + now rewrite IH.
    + destruct (Z.eqb_spec k' k); [congruence | reflexivity].
Qed.

Lemma asc_ins_new (l : list (Z * V)) (e : Z * V) : asc l -> asc (ins_new l e).
Proof.
  intros Hs. unfold ins_new. destruct (lookup (fst e) l) eqn:E; auto.
  apply asc_ins; auto. now apply lookup_none_iff.
Qed.

Lemma lookup_ins_new (k : Z) (l : list (Z * V)) (e : Z * V) :
  asc l ->
  lookup k (ins_new l e) =
  match lookup k l with
  | Some x => Some x
  | None => if (fst e =? k)%Z then Some (snd e) else None
  end.
Proof.
  intros Hs. unfold ins_new.
  destruct (Z.eqb_spec (fst e) k) as [<-|Hne].
  - destruct (lookup (fst e) l) eqn:E; auto.
    apply lookup_ins; auto. now apply lookup_none_iff.
  - destruct (lookup (fst e) l) eqn:E.
    + now destruct (lookup k l).
    + rewrite lookup_ins_other by congruence. now destruct (lookup k l).
Qed.

Lemma asc_fold_ins_new (kvs l : list (Z * V)) :
  asc l -> asc (fold_left ins_new kvs l).
Proof.
  revert l. induction kvs as [|e kvs IH]; intros l Hs; cbn [fold_left]; auto.
  apply IH. now apply asc_ins_new.
Qed.

(** After the insertions a key has the value of its first insertion,
    unless it was listed before. *)
Lemma lookup_fold_ins_new (k : Z) (kvs l : list (Z * V)) :
  asc l ->
  lookup k (fold_left ins_new kvs l) =
  match lookup k l with
  | Some x => Some x
  | None => lookup k kvs
  end.
Proof.
  revert l. induction kvs as [|e kvs IH]; intros l Hs; cbn [fold_left lookup].
  - now destruct (lookup k l).
  - rewrite IH by (now apply asc_ins_new). rewrite lookup_ins_new by exact Hs.
    destruct (lookup k l); auto. now destruct (fst e =? k)%Z.
Qed.

(** [insert] on a B-tree, with the occupancy of the root. *)
Lemma insert_bt_root (h : nat) (t : BTreeMap.t V) (l : list (Z * V))
  (k : Z) (v : V) :
  1 <= B -> bt B h (root_min h) (BTreeMap.root t) l -> asc l ->
  exists b t' h',
    BTreeMap.insert B k v t = Some (b, t') /\
    bt B h' (root_min h') (BTreeMap.root t') (ins_new l (k, v)) /\
    h <= h'.
Proof.
  intros HB Hb Hs.
  destruct (add_recursive_bt B h HB (root_min h) (BTreeMap.root t) l k v Hb Hs)
    as (r & Hr & Hadded).
  unfold BTreeMap.insert. rewrite Hr, bind_some. unfold ins_new.
  cbn [fst snd].
  destruct Hadded as [(Hin & ->) | (Hin & [(u' & -> & Hb') | Hsplit])].
  - exists false, t, h. split; [now destruct t|]. split; auto.
    destruct (lookup k l) eqn:E; auto.
    apply lookup_none_iff in E. contradiction.
  - apply lookup_none_iff in Hin. rewrite Hin.
    exists false, (BTreeMap.mk u'), h. auto.
  - apply lookup_none_iff in Hin. rewrite Hin.
    destruct Hsplit as (es1 & x & es2 & cs1 & cs2 & l1 & l2 &
                        -> & Hes1 & Hcs1 & Hb1 & Hb2 & Hins).
    rewrite (remove_node_of B (es1 ++ [x]) cs1 (B - 1) x)
      by (rewrite <- ?Hes1, ?nth_error_exact, ?length_app; simpl; auto; lia).
    rewrite <- Hes1, firstn_exact.
    replace (skipn (S (length es1)) (es1 ++ [x])) with (@nil (Z * V)).
    2:{ rewrite skipn_all2; auto. rewrite length_app. simpl. lia. }
    rewrite app_nil_r. cbn [fst snd].
    rewrite new_root_node_of by exact HB.
    exists true, (BTreeMap.mk (node_of B [x] [node_of B es1 cs1; node_of B es2 cs2])),
      (S h).
    split; [reflexivity|]. split; [|lia]. cbn [BTreeMap.root root_min].
    exists [x], [node_of B es1 cs1; node_of B es2 cs2], [l1; l2].
    repeat split; auto.
    + rewrite Hins. simpl. now rewrite app_nil_r.
    + simpl. lia.
Qed.

Lemma run_inserts_bt (kvs : list (Z * V)) :
  1 <= B ->
  forall (h : nat) (t : BTreeMap.t V) (l : list (Z * V)),
  bt B h (root_min h) (BTreeMap.root t) l -> asc l ->
  exists t' h',
    run B (inserts kvs) t = Some t' /\
    bt B h' (root_min h') (BTreeMap.root t') (fold_left ins_new kvs l) /\
    h <= h'.
Proof.
  intros HB. induction kvs as [|[k v] kvs IH]; intros h t l Hb Hs.
  - exists t, h. cbn. auto.
  - destruct (insert_bt_root h t l k v HB Hb Hs) as (b & t1 & h1 & Hi & Hb1 & Hh).
    destruct (IH h1 t1 (ins_new l (k, v)) Hb1 (asc_ins_new l (k, v) Hs))
      as (t' & h' & Hr & Hb' & Hh').
    exists t', h'. cbn [inserts map run step fst snd fold_left].
    rewrite Hi. cbn [bind]. split; [exact Hr|]. split; [exact Hb'|lia].
Qed.

End Descent.

(** ** The shape of a B-tree *)

Section Shape.
Context {V : Type}.
Variable B : nat.

Lemma bt_weaken (h m m' : nat) (u : Node.t V) (l : list (Z * V)) :
  m' <= m -> bt B h m u l -> bt B h m' u l.
Proof.
  intros Hm. destruct h as [|h]; cbn [bt].
  - intros (Hl & ->). split; [lia | reflexivity].
  - intros (es & cs & ls & -> & -> & Hl & Hcs & Hall).
    exists es, cs, ls. repeat split; auto; lia.
Qed.

Lemma occupancy_eq (is_root : bool) (u : Node.t V) :
  occupancy B is_root u =
  (Node.size B u <=? 2 * B - 1)
  && (is_root || (B - 1 <=? Node.size B u))
  && (is_root || Node.is_leaf u
      || ((B <=? populated (Node.children u))
          && (populated (Node.children u) <=? 2 * B)))
  && forallb (fun c => match c with
                       | Some c => occupancy B false c
                       | None => true
                       end) (Node.children u).
Proof. destruct u. reflexivity. Qed.

Lemma populated_pad {A : Type} (n : nat) (l : list A) :
  populated (pad n l) = length l.
Proof.
  unfold populated, pad. rewrite filter_app, length_app.
  assert (H1 : filter is_some (map Some l) = map Some l).
  { induction l as [|x l IH]; cbn [map filter is_some]; [reflexivity|].
    now rewrite IH. }
  assert (H2 : forall r, filter (@is_some A) (repeat None r) = []).
  { induction r as [|r IH]; cbn [repeat filter is_some]; auto. }
  rewrite H1, H2, length_map. cbn [length]. lia.
Qed.

Lemma forallb_pad {A : Type} (f : A -> bool) (n : nat) (l : list A) :
  forallb (fun c => match c with Some c => f c | None => true end) (pad n l) =
  forallb f l.
Proof.
  unfold pad. rewrite forallb_app.
  assert (H2 : forall r,
             forallb (fun c : option A => match c with Some c => f c | None => true end)
               (repeat None r) = true).
  { induction r as [|r IH]; cbn [repeat forallb]; auto. }
  rewrite H2, andb_true_r.
  induction l as [|x l IH]; cbn [map forallb]; [reflexivity|]. now rewrite IH.
Qed.

Lemma Forall2_in_left {A C : Type} (R : A -> C -> Prop) (l1 : list A)
  (l2 : list C) (x : A) :
  Forall2 R l1 l2 -> In x l1 -> exists y, In y l2 /\ R x y.
Proof.
  induction 1 as [|a c l1 l2 Hac _ IH]; intros Hin; [destruct Hin|].
  destruct Hin as [->|Hin].
  - exists c. split; [now left | exact Hac].
  - destruct (IH Hin) as (y & Hy & Hr). exists y. split; [now right | exact Hr].
Qed.

(** A B-tree satisfies the occupancy check. *)
Lemma occupancy_bt (h : nat) :
  1 <= B ->
  forall (m : nat) (is_root : bool) (u : Node.t V) (l : list (Z * V)),
  bt B h m u l -> (is_root = true \/ B - 1 <= m) ->
  occupancy B is_root u = true.
Proof.
  intros HB. induction h as [|h IH]; intros m is_root u l Hb Hm.
  - destruct Hb as (Hl & ->). rewrite occupancy_eq.
    rewrite size_node_of by lia. rewrite is_leaf_node_of.
    cbn [node_of Node.children]. rewrite forallb_pad. cbn [forallb].
    rewrite orb_true_r, orb_true_l, !andb_true_r.
    apply andb_true_intro. split.
    + apply Nat.leb_le. lia.
    + destruct Hm as [->|Hm]; [reflexivity|].
      apply orb_true_intro. right. apply Nat.leb_le. lia.
  - destruct Hb as (es & cs & ls & -> & -> & Hl & Hcs & Hall).
    rewrite occupancy_eq.
    rewrite size_node_of by lia. rewrite is_leaf_node_of.
    cbn [node_of Node.children]. rewrite forallb_pad, populated_pad.
    repeat (apply andb_true_intro; split).
    + apply Nat.leb_le. lia.
    + destruct Hm as [->|Hm]; [reflexivity|].
      apply orb_true_intro. right. apply Nat.leb_le. lia.
    + destruct Hm as [->|Hm]; [reflexivity|].
      apply orb_true_intro. right.
      apply andb_true_intro. split; apply Nat.leb_le; lia.
    + apply forallb_forall. intros c Hc.
      destruct (Forall2_in_left _ _ _ _ Hall Hc) as (lc & _ & Hbc).
      apply (IH (B - 1) false c lc Hbc). right. lia.
Qed.

Lemma leaf_depths_eq (d : nat) (u : Node.t V) :
  leaf_depths d u =
  if Node.is_leaf u then [d]
  else flat_map (fun c => match c with
                          | Some c => leaf_depths (S d) c
                          | None => []
                          end) (Node.children u).
Proof. destruct u. reflexivity. Qed.

Lemma in_pad {A : Type} (n : nat) (l : list A) (x : option A) :
  In x (pad n l) -> x = None \/ exists c, x = Some c /\ In c l.
Proof.
  unfold pad. intros H. apply in_app_or in H. destruct H as [H|H].
  - apply in_map_iff in H. destruct H as (c & <- & Hc). right. eauto.
  - apply repeat_spec in H. now left.
Qed.

(** In a B-tree of height [h] every leaf is [h] levels down. *)
Lemma leaf_depths_bt (h : nat) :
  forall (m d : nat) (u : Node.t V) (l : list (Z * V)),
  bt B h m u l -> Forall (fun x => x = d + h) (leaf_depths d u).
Proof.
  induction h as [|h IH]; intros m d u l Hb.
  - destruct Hb as (_ & ->). rewrite leaf_depths_eq, is_leaf_node_of.
    constructor; [lia | constructor].
  - destruct Hb as (es & cs & ls & -> & -> & Hl & Hcs & Hall).
    rewrite leaf_depths_eq, is_leaf_node_of.
    destruct cs as [|c0 cs']; [cbn [length] in Hcs; lia|].
    cbn [node_of Node.children].
    apply Forall_flat_map. apply Forall_forall. intros x Hx.
    apply in_pad in Hx. destruct Hx as [->|(c & -> & Hc)]; [constructor|].
    destruct (Forall2_in_left _ _ _ _ Hall Hc) as (lc & _ & Hbc).
    replace (d + S h) with (S d + h) by lia.
    apply (IH (B - 1) (S d) c lc Hbc).
Qed.

Lemma length_interleave {E : Type} (ls : list (list E)) :
  forall es, length ls = S (length es) ->
  length (interleave ls es) = length es + length (concat ls).
Proof.
  induction ls as [|x ls IH]; intros es Hl; [discriminate|].
  cbn [interleave concat]. rewrite !length_app.
  destruct es as [|e es].
  - destruct ls; [|discriminate]. cbn. lia.
  - cbn [length] in *. rewrite IH by lia. lia.
Qed.

Lemma concat_upper {E : Type} (X : nat) (ls : list (list E)) :
  Forall (fun x => S (length x) <= X) ls ->
  length (concat ls) + length ls <= length ls * X.
Proof.
  induction 1 as [|x ls Hx _ IH]; cbn [concat length]; [lia|].
  rewrite length_app. lia.
Qed.

Lemma concat_lower {E : Type} (X : nat) (ls : list (list E)) :
  Forall (fun x => X <= S (length x)) ls ->
  length ls * X <= length (concat ls) + length ls.
Proof.
  induction 1 as [|x ls Hx _ IH]; cbn [concat length]; [lia|].
  rewrite length_app. lia.
Qed.

Lemma Forall2_right {A C : Type} (R : A -> C -> Prop) (P : C -> Prop)
  (l1 : list A) (l2 : list C) :
  (forall a c, R a c -> P c) -> Forall2 R l1 l2 -> Forall P l2.
Proof. intros H. induction 1; constructor; eauto. Qed.

(** A B-tree of height [h] lists fewer than [(2B)^(h+1)] entries. *)
Lemma size_upper (h : nat) :
  1 <= B ->
  forall (m : nat) (u : Node.t V) (l : list (Z * V)),
  bt B h m u l -> S (length l) <= (2 * B) ^ S h.
Proof.
  intros HB. induction h as [|h IH]; intros m u l Hb.
  - destruct Hb as (Hl & _). rewrite Nat.pow_1_r. lia.
  - destruct Hb as (es & cs & ls & -> & -> & Hl & Hcs & Hall).
    pose proof (Forall2_length Hall) as Hls.
    rewrite length_interleave by lia.
    assert (Hup : Forall (fun x => S (length x) <= (2 * B) ^ S h) ls).
    { apply (Forall2_right (bt B h (B - 1)) _ cs ls); [|exact Hall].
      intros c lc Hc. exact (IH (B - 1) c lc Hc). }
    pose proof (concat_upper _ _ Hup) as Hc.
    rewrite (Nat.pow_succ_r' _ (S h)).
    assert (length ls * (2 * B) ^ S h <= 2 * B * (2 * B) ^ S h)
      by (apply Nat.mul_le_mono_r; lia).
    lia.
Qed.

(** A B-tree of height [h] whose root holds [m] entries or more lists at
    least [(m + 1) * B^h - 1] entries. *)
Lemma size_lower (h : nat) :
  1 <= B ->
  forall (m : nat) (u : Node.t V) (l : list (Z * V)),
  bt B h m u l -> S m * B ^ h <= S (length l).
Proof.
  intros HB. induction h as [|h IH]; intros m u l Hb.
  - destruct Hb as (Hl & _). rewrite Nat.pow_0_r. lia.
  - destruct Hb as (es & cs & ls & -> & -> & Hl & Hcs & Hall).
    pose proof (Forall2_length Hall) as Hls.
    rewrite length_interleave by lia.
    assert (Hlow : Forall (fun x => B ^ S h <= S (length x)) ls).
    { assert (HBh : S (B - 1) * B ^ h = B ^ S h).
      { rewrite (Nat.pow_succ_r' B h). f_equal. lia. }
      apply (Forall2_right (bt B h (B - 1)) _ cs ls); [|exact Hall].
      intros c lc Hc. rewrite <- HBh. exact (IH (B - 1) c lc Hc). }
    pose proof (concat_lower _ _ Hlow) as Hc.
    assert (S m * B ^ S h <= length ls * B ^ S h)
      by (apply Nat.mul_le_mono_r; lia).
    lia.
Qed.

End Shape.

(** ** The breadth-first snapshot *)

Lemma zip_app_nil_r {A : Type} (R : list (list A)) : zip_app R [] = R.
Proof. now destruct R. Qed.

Lemma zip_app_assoc {A : Type} (R a b : list (list A)) :
  zip_app (zip_app R a) b = zip_app R (zip_app a b).
Proof.
  revert a b. induction R as [|r R IH]; intros a b; [reflexivity|].
  destruct a as [|x a]; [now rewrite zip_app_nil_r|].
  destruct b as [|y b]; [now rewrite !zip_app_nil_r|].
  cbn [zip_app]. now rewrite IH, app_assoc.
Qed.

Lemma zip_app_map {A C : Type} (f g : C -> list A) (l : list C) :
  zip_app (map f l) (map g l) = map (fun x => f x ++ g x) l.
Proof.
  induction l as [|x l IH]; cbn [map zip_app]; [reflexivity|]. now rewrite IH.
Qed.

Lemma deposit_seq {A : Type} (L : nat) (a b R : list (list A)) :
  L <= length R ->
  deposit L b (deposit L a R) = deposit L (zip_app a b) R.
Proof.
  intros HL. unfold deposit.
  assert (Hf : length (firstn L R) = L) by (rewrite length_firstn; lia).
  rewrite firstn_app, Hf, Nat.sub_diag, firstn_all2 by lia.
  cbn [firstn]. rewrite app_nil_r.
  rewrite skipn_app, Hf, Nat.sub_diag, skipn_all2 by lia.
  cbn [skipn app]. now rewrite zip_app_assoc.
Qed.

Lemma deposit_cons {A : Type} (L : nat) (x : list A) (Z R : list (list A)) :
  L <= length R ->
  deposit (S L) Z (deposit L [x] R) = deposit L (x :: Z) R.
Proof.
  revert R. induction L as [|L IH]; intros R HL.
  - unfold deposit. cbn [firstn skipn app].
    destruct R as [|r R]; cbn [zip_app firstn skipn app]; [reflexivity|].
    now rewrite zip_app_nil_r.
  - destruct R as [|r R]; [cbn [length] in HL; lia|].
    cbn [length] in HL. specialize (IH R ltac:(lia)).
    unfold deposit in *. cbn [firstn skipn app] in *.
    now rewrite IH.
Qed.

Lemma length_deposit {A : Type} (L : nat) (a R : list (list A)) :
  L <= length R -> length R <= length (deposit L a R).
Proof.
  intros HL. unfold deposit. rewrite length_app, length_firstn.
  assert (H : forall (X Y : list (list A)), length X <= length (zip_app X Y)).
  { induction X as [|x X IH]; intros [|y Y]; cbn [zip_app length]; try lia.
    specialize (IH Y). lia. }
  specialize (H (skipn L R) a). rewrite length_skipn in H. lia.
Qed.

Lemma length_deposit_lt {A : Type} (L : nat) (x : list A) (R : list (list A)) :
  L <= length R -> L < length (deposit L [x] R).
Proof.
  intros HL. unfold deposit. rewrite length_app, length_firstn.
  destruct (skipn L R) as [|r R'] eqn:E; cbn [zip_app length]; lia.
Qed.

Section Bfs.
Context {V : Type}.
Variable B : nat.

Lemma push_layer_deposit (layer : nat) (node : TreeNode V)
  (R : list (list (TreeNode V))) :
  layer <= length R ->
  Node.push_layer layer node R = deposit layer [[node]] R.
Proof.
  revert R. unfold Node.push_layer, deposit.
  induction layer as [|layer IH]; intros R HL.
  - destruct R as [|r R]; cbn; [reflexivity|]. now rewrite zip_app_nil_r.
  - destruct R as [|r R]; [cbn [length] in HL; lia|].
    cbn [length] in HL. specialize (IH R ltac:(lia)).
    cbn [firstn skipn app length nth set].
    change (S layer <? S (length R)) with (layer <? length R).
    destruct (layer <? length R).
    + cbn [app]. f_equal. exact IH.
    + cbn [app] in *. f_equal. exact IH.
Qed.

Lemma snapshot_node_of (es : list (Z * V)) (cs : list (Node.t V)) (n : nat) :
  forall i, length es <= i + n ->
  Node.snapshot n i (node_of B es cs) = Some (skipn i es).
Proof.
  induction n as [|n IH]; intros i Hl; cbn [Node.snapshot].
  - now rewrite skipn_all2 by lia.
  - cbn [node_of Node.keys Node.values]. rewrite !get_pad, !nth_error_map.
    destruct (nth_error es i) as [[k v]|] eqn:E; cbn [option_map fst snd].
    + rewrite IH by lia. cbn [bind ret].
      destruct (nth_error_split es i E) as (a & b & -> & <-).
      rewrite skipn_exact.
      replace (a ++ (k, v) :: b) with ((a ++ [(k, v)]) ++ b)
        by (now rewrite <- app_assoc).
      replace (S (length a)) with (length (a ++ [(k, v)]))
        by (rewrite length_app; cbn [length]; lia).
      now rewrite skipn_exact.
    + apply nth_error_None in E. now rewrite skipn_all2 by lia.
Qed.

Lemma bfs_children_each {R : Type} (f : Node.t V -> R -> M R)
  (cs : list (Node.t V)) :
  forall (n r : nat) (result : R),
  length cs <= n ->
  Node.bfs_children f n (map Some cs ++ repeat None r) result =
  each f cs result.
Proof.
  induction cs as [|c cs IH]; intros n r result Hl.
  - cbn [map app each]. destruct n, r; reflexivity.
  - cbn [length] in Hl. destruct n as [|n]; [lia|].
    cbn [map app each Node.bfs_children].
    destruct (f c result) as [result'|]; cbn [bind]; [|reflexivity].
    apply IH. lia.
Qed.

Lemma bfs_children_pad {R : Type} (f : Node.t V -> R -> M R)
  (cs : list (Node.t V)) (n n' : nat) (result : R) :
  length cs <= n ->
  Node.bfs_children f n (pad n' cs) result = each f cs result.
Proof. intros Hl. unfold pad. now apply bfs_children_each. Qed.

Lemma bfs_eq (u : Node.t V) (layer : nat) (result : list (list (TreeNode V))) :
  Node.bfs B u layer result =
  match get (Node.keys u) 0 with
  | None => ret result
  | Some _ =>
      node <- Node.snapshot (2 * B - 1) 0 u ;;
      Node.bfs_children (fun c r => Node.bfs B c (S layer) r) (2 * B)
        (Node.children u) (Node.push_layer layer node result)
  end.
Proof. destruct u. reflexivity. Qed.

Lemma levels_succ (h : nat) (u : Node.t V) :
  levels (S h) u =
  [entries u] :: map (fun d => flat_map (nodes_at d) (kids u)) (seq 0 (S h)).
Proof.
  unfold levels. change (seq 0 (S (S h))) with (0 :: seq 1 (S h)).
  cbn [map nodes_at]. f_equal.
  rewrite <- seq_shift, map_map. reflexivity.
Qed.

Lemma below_cons (h : nat) (c : Node.t V) (cs : list (Node.t V)) :
  below h (c :: cs) =
  map (fun d => flat_map (nodes_at d) (c :: cs)) (seq 0 (S h)).
Proof.
  revert c. induction cs as [|c' cs IH]; intros c.
  - cbn [below flat_map]. rewrite zip_app_nil_r. unfold levels.
    apply map_ext. intros d. now rewrite app_nil_r.
  - change (below h (c :: c' :: cs))
      with (zip_app (levels h c) (below h (c' :: cs))).
    rewrite IH. unfold levels. now rewrite zip_app_map.
Qed.

Lemma each_deposit (h L : nat) (f : Node.t V -> list (list (TreeNode V)) ->
                                  M (list (list (TreeNode V))))
  (cs : list (Node.t V)) :
  (forall c R, In c cs -> L <= length R ->
               f c R = Some (deposit L (levels h c) R)) ->
  forall R, L <= length R ->
  each f cs R = Some (deposit L (below h cs) R).
Proof.
  induction cs as [|c cs IH]; intros Hf R HL.
  - cbn [each below]. unfold deposit. unfold ret.
    now rewrite zip_app_nil_r, firstn_skipn.
  - cbn [each below]. rewrite Hf by (auto; now left). cbn [bind].
    rewrite IH.
    + now rewrite deposit_seq.
    + intros c' R' Hc. apply Hf. now right.
    + pose proof (length_deposit L (levels h c) R HL). lia.
Qed.

(** [bfs] on a B-tree all of whose nodes hold an entry. *)
Lemma bfs_bt (h : nat) :
  2 <= B ->
  forall (m : nat) (u : Node.t V) (l : list (Z * V)) (layer : nat)
         (R : list (list (TreeNode V))),
  1 <= m -> bt B h m u l -> layer <= length R ->
  Node.bfs B u layer R = Some (deposit layer (levels h u) R).
Proof.
  intros HB. induction h as [|h IH]; intros m u l layer R Hm Hb HL.
  - destruct Hb as (Hl & ->). rewrite bfs_eq.
    cbn [node_of Node.keys]. rewrite get_pad.
    destruct l as [|e l]; [cbn [length] in Hl; lia|].
    cbn [map nth_error].
    change (Node.mk (pad (2 * B) (fst e :: map fst l))
              (pad (2 * B) (map snd (e :: l))) (pad (2 * B + 1) []))
      with (node_of B (e :: l) (@nil (Node.t V))).
    rewrite snapshot_node_of by lia. cbn [skipn bind].
    cbn [node_of Node.children].
    rewrite bfs_children_pad by (cbn [length]; lia).
    cbn [each]. unfold ret.
    rewrite push_layer_deposit by exact HL.
    unfold levels. cbn [seq map nodes_at]. now rewrite entries_node_of.
  - destruct Hb as (es & cs & ls & -> & -> & Hl & Hcs & Hall).
    rewrite bfs_eq. cbn [node_of Node.keys]. rewrite get_pad.
    destruct es as [|e es]; [cbn [length] in Hl; lia|].
    cbn [map nth_error].
    change (Node.mk (pad (2 * B) (fst e :: map fst es))
              (pad (2 * B) (map snd (e :: es))) (pad (2 * B + 1) cs))
      with (node_of B (e :: es) cs).
    rewrite snapshot_node_of by lia. cbn [skipn bind].
    cbn [node_of Node.children].
    rewrite bfs_children_pad by lia.
    rewrite push_layer_deposit by exact HL.
    rewrite (each_deposit h (S layer)).
    + rewrite deposit_cons by exact HL.
      rewrite levels_succ, entries_node_of, kids_node_of.
      destruct cs as [|c cs]; [cbn [length] in Hcs; lia|].
      now rewrite below_cons.
    + intros c R' Hc HR'.
      destruct (Forall2_in_left _ _ _ _ Hall Hc) as (lc & _ & Hbc).
      apply (IH (B - 1) c lc (S layer) R'); auto. lia.
    + apply length_deposit_lt. exact HL.
Qed.

End Bfs.

(** ** Erasing *)

Section Erase.
Context {V : Type}.
Variable B : nat.

Lemma erase_recursive_eq (k : Z) (u : Node.t V) :
  BTreeMap.erase_recursive B k u =
  let i := BTreeMap.find_it (Node.keys u) (2 * B - 1) k in
  if (i <? 0)%Z
  then BTreeMap.erase_here B (Z.to_nat (- (i + 1))) u
  else
    match get (Node.children u) (Z.to_nat i) with
    | Some c =>
        '(r, c') <- BTreeMap.erase_recursive B k c ;;
        let u1 :=
          Node.set_children u
            (set (Node.children u) (Z.to_nat i) (Some c')) in
        match r with
        | Some _ =>
            u2 <- BTreeMap.check_child_underflow B u1 (Z.to_nat i) ;;
            ret (r, u2)
        | None => ret (None, u1)
        end
    | None => ret (None, u)
    end.
Proof.
  destruct u as [ks vs cs]. cbn [BTreeMap.erase_recursive].
  rewrite on_child_get. reflexivity.
Qed.

Lemma remove_smallest_eq (u : Node.t V) :
  BTreeMap.remove_smallest B u =
  match get (Node.children u) 0 with
  | Some c =>
      '(e, c') <- BTreeMap.remove_smallest B c ;;
      u' <- BTreeMap.check_child_underflow B
              (Node.set_children u (set (Node.children u) 0 (Some c'))) 0 ;;
      ret (e, u')
  | None => ret (Node.remove B 0 u)
  end.
Proof.
  destruct u as [ks vs cs]. cbn [BTreeMap.remove_smallest].
  rewrite on_child_get. reflexivity.
Qed.

Lemma set_child_same (es : list (Z * V)) (cs : list (Node.t V)) (i : nat)
  (c : Node.t V) :
  nth_error cs i = Some c ->
  Node.set_children (node_of B es cs)
    (set (Node.children (node_of B es cs)) i (Some c)) = node_of B es cs.
Proof.
  intros H. unfold node_of, Node.set_children.
  cbn [Node.children Node.keys Node.values]. f_equal.
  transitivity (set (pad (2 * B + 1) cs) i (get (pad (2 * B + 1) cs) i));
    [now rewrite get_pad, H | apply set_same].
Qed.

Lemma set_child_node_of (es : list (Z * V)) (C1 C2 : list (Node.t V))
  (c c' : Node.t V) (i : nat) :
  i = length C1 -> length (C1 ++ c :: C2) <= 2 * B + 1 ->
  Node.set_children (node_of B es (C1 ++ c :: C2))
    (set (Node.children (node_of B es (C1 ++ c :: C2))) i (Some c')) =
  node_of B es (C1 ++ c' :: C2).
Proof.
  intros -> Hl.
  change (Node.children (node_of B es (C1 ++ c :: C2)))
    with (pad (2 * B + 1) (C1 ++ c :: C2)).
  now rewrite set_child_exact by exact Hl.
Qed.

(** A key that is not listed: nothing is removed, nothing changes. *)
Lemma erase_recursive_absent (h : nat) :
  1 <= B ->
  forall (m : nat) (u : Node.t V) (l : list (Z * V)) (k : Z),
  bt B h m u l -> asc l -> ~ In k (map fst l) ->
  BTreeMap.erase_recursive B k u = Some (None, u).
Proof.
  intros HB. induction h as [|h IH]; intros m u l k Hb Hs Hin.
  - destruct Hb as (Hl & ->). rewrite erase_recursive_eq.
    cbn [node_of Node.keys Node.children]. cbv zeta.
    rewrite find_it_spec by (try exact Hs; rewrite length_map; lia).
    rewrite (located_absent k (map fst l) Hin).
    destruct (Z.ltb_spec (Z.of_nat (lead k (map fst l))) 0); [lia|].
    rewrite Nat2Z.id, get_pad.
    replace (nth_error (@nil (Node.t V)) (lead k (map fst l)))
      with (@None (Node.t V)) by (now destruct (lead k (map fst l))).
    reflexivity.
  - destruct Hb as (es & cs & ls & -> & -> & Hm & Hcs & Hall).
    assert (Hes : asc es).
    { apply (asc_interleave_entries ls); auto.
      apply Forall2_length in Hall. lia. }
    assert (Hines : ~ In k (map fst es)).
    { intros H. apply Hin. apply in_map_iff in H. destruct H as (e & <- & He).
      apply in_map. apply in_interleave_entry; auto.
      apply Forall2_length in Hall. lia. }
    rewrite erase_recursive_eq.
    change (Node.keys (node_of B es cs)) with (pad (2 * B) (map fst es)).
    cbv zeta.
    rewrite find_it_spec by (auto; rewrite length_map; lia).
    rewrite (located_absent k (map fst es) Hines).
    destruct (Z.ltb_spec (Z.of_nat (lead k (map fst es))) 0); [lia|].
    rewrite Nat2Z.id.
    destruct (descend B h m es cs ls k Hm Hcs Hall Hs Hines)
      as (E1 & E2 & C1 & ci & C2 & L1 & li & L2 & T & HE & HC & HL & HE1 &
          HC1 & HL1 & HL2 & HbC1 & Hbi & HbC2 & HT & Hlist & HP & HTk & _).
    assert (Hci : nth_error cs (lead k (map fst es)) = Some ci).
    { rewrite <- HE1, <- HC1, HC. apply nth_error_exact. }
    change (Node.children (node_of B es cs)) with (pad (2 * B + 1) cs) at 1.
    rewrite get_pad, Hci.
    rewrite Hlist in Hs, Hin.
    apply asc_app in Hs. destruct Hs as (_ & Hs & _).
    apply asc_app in Hs. destruct Hs as (Hli & _ & _).
    rewrite (IH (B - 1) ci li k Hbi Hli).
    + cbn [bind]. unfold ret. now rewrite set_child_same.
    + intros Hk. apply Hin. rewrite !map_app, !in_app_iff. tauto.
Qed.

Lemma del_absent (k : Z) (l : list (Z * V)) :
  ~ In k (map fst l) -> del k l = l.
Proof.
  induction l as [|e l IH]; cbn [del map]; [reflexivity|].
  intros Hn. destruct (Z.eqb_spec (fst e) k) as [E|E].
  - exfalso. apply Hn. now left.
  - f_equal. apply IH. intros H. apply Hn. now right.
Qed.

Lemma del_app_left (k : Z) (l1 l2 : list (Z * V)) :
  ~ In k (map fst l1) -> del k (l1 ++ l2) = l1 ++ del k l2.
Proof.
  induction l1 as [|e l1 IH]; cbn [del map app]; [reflexivity|].
  intros Hn. destruct (Z.eqb_spec (fst e) k) as [E|E].
  - exfalso. apply Hn. now left.
  - f_equal. apply IH. intros H. apply Hn. now right.
Qed.

Lemma del_app_right (k : Z) (l1 l2 : list (Z * V)) :
  In k (map fst l1) -> del k (l1 ++ l2) = del k l1 ++ l2.
Proof.
  induction l1 as [|e l1 IH]; cbn [del map app]; [intros []|].
  intros Hin. destruct (Z.eqb_spec (fst e) k) as [E|E]; [reflexivity|].
  cbn [app]. f_equal. apply IH. destruct Hin; [contradiction | assumption].
Qed.

Lemma del_here (k : Z) (v : V) (l1 l2 : list (Z * V)) :
  ~ In k (map fst l1) -> del k (l1 ++ (k, v) :: l2) = l1 ++ l2.
Proof.
  intros Hn. rewrite del_app_left by exact Hn. cbn [del fst].
  now rewrite Z.eqb_refl.
Qed.

Lemma below_not_in (k : Z) (l : list (Z * V)) :
  Forall (fun e => (fst e < k)%Z) l -> ~ In k (map fst l).
Proof.
  intros H Hin. apply in_map_iff in Hin. destruct Hin as (e & <- & He).
  rewrite Forall_forall in H. specialize (H _ He). lia.
Qed.

Lemma above_not_in (k : Z) (l : list (Z * V)) :
  Forall (fun e => (k < fst e)%Z) l -> ~ In k (map fst l).
Proof.
  intros H Hin. apply in_map_iff in Hin. destruct Hin as (e & <- & He).
  rewrite Forall_forall in H. specialize (H _ He). lia.
Qed.

Lemma asc_del (k : Z) (l : list (Z * V)) : asc l -> asc (del k l).
Proof.
  induction l as [|e l IH]; cbn [del]; auto.
  intros Hs. apply asc_cons in Hs. destruct Hs as (Hlt & Hs).
  destruct (fst e =? k)%Z; auto.
  apply asc_cons. split; auto.
  intros y Hy. apply Hlt. clear - Hy. induction l as [|x l IH]; [destruct Hy|].
  cbn [del] in Hy. destruct (fst x =? k)%Z; [now right|].
  destruct Hy as [->|Hy]; [now left | right; auto].
Qed.

Lemma length_del (k : Z) (l : list (Z * V)) :
  In k (map fst l) -> S (length (del k l)) = length l.
Proof.
  induction l as [|e l IH]; cbn [del map length]; [intros []|].
  intros Hin. destruct (Z.eqb_spec (fst e) k) as [E|E]; [reflexivity|].
  cbn [length]. f_equal. apply IH. destruct Hin; [contradiction | assumption].
Qed.

Lemma lookup_del (k k' : Z) (l : list (Z * V)) :
  asc l -> lookup k' (del k l) = if (k =? k')%Z then None else lookup k' l.
Proof.
  induction l as [|e l IH]; intros Hs; cbn [del lookup].
  - now destruct (k =? k')%Z.
  - apply asc_cons in Hs. destruct Hs as (Hlt & Hs).
    destruct (Z.eqb_spec (fst e) k) as [E|E].
    + subst k. destruct (Z.eqb_spec (fst e) k') as [E'|E']; [|reflexivity].
      apply lookup_none. intros Hin. apply in_map_iff in Hin.
      destruct Hin as (y & Hy1 & Hy2). specialize (Hlt _ Hy2). lia.
    + cbn [lookup]. rewrite IH by exact Hs.
      destruct (Z.eqb_spec (fst e) k') as [E'|E']; [|reflexivity].
      destruct (Z.eqb_spec k k'); [congruence | reflexivity].
Qed.

(** Erasing a key of a leaf. *)
Lemma erase_recursive_leaf (l : list (Z * V)) (k : Z) :
  1 <= B -> length l <= 2 * B - 1 -> asc l -> In k (map fst l) ->
  BTreeMap.erase_recursive B k (node_of B l []) =
  Some (Some (lookup k l), node_of B (del k l) []).
Proof.
  intros HB Hl Hs Hin. rewrite erase_recursive_eq.
  cbn [node_of Node.keys Node.children]. cbv zeta.
  rewrite find_it_spec by (auto; rewrite length_map; lia).
  destruct (located_found k (map fst l) Hs Hin) as (-> & Hk).
  destruct (Z.ltb_spec (- (Z.of_nat (lead k (map fst l)) + 1)) 0); [|lia].
  replace (Z.to_nat (- (- (Z.of_nat (lead k (map fst l)) + 1) + 1)))
    with (lead k (map fst l)) by lia.
  pose proof (lead_prefix k (map fst l)) as Hpre.
  rewrite nth_error_map in Hk.
  destruct (nth_error l (lead k (map fst l))) as [[k' v]|] eqn:E;
    [|discriminate].
  cbn in Hk. injection Hk as ->.
  destruct (nth_error_split l _ E) as (a & b & -> & Ha).
  rewrite <- Ha in *. rewrite map_app in Hpre.
  rewrite <- (length_map fst a), firstn_exact in Hpre.
  unfold BTreeMap.erase_here.
  change (Node.mk (pad (2 * B) (map fst (a ++ (k, v) :: b)))
            (pad (2 * B) (map snd (a ++ (k, v) :: b))) (pad (2 * B + 1) []))
    with (node_of B (a ++ (k, v) :: b) (@nil (Node.t V))).
  rewrite (remove_node_of B (a ++ (k, v) :: b) [] (length a) (k, v))
    by (auto using nth_error_exact; lia).
  rewrite is_leaf_node_of. cbn [negb fst snd]. unfold ret.
  rewrite (cut_out a b (k, v) (length a)) by reflexivity.
  assert (Hna : ~ In k (map fst a)).
  { intros H'. rewrite Forall_forall in Hpre. specialize (Hpre _ H'). lia. }
  rewrite del_here by exact Hna.
  rewrite (lookup_in k v (a ++ (k, v) :: b) Hs)
    by (apply in_or_app; right; now left).
  reflexivity.
Qed.

Lemma leaf_ok_bt (cs : list (Node.t V)) :
  Forall (leaf_ok B) cs -> Forall2 (bt B 0 (B - 1)) cs (map entries cs).
Proof.
  induction 1 as [|c cs (Hc & Hl) _ IH]; cbn [map]; constructor; auto.
  split; auto.
Qed.

Lemma leaf_ok_packed (c : Node.t V) :
  c = node_of B (entries c) [] -> length (entries c) <= 2 * B - 1 ->
  packed B true c.
Proof.
  intros Hc Hl. assert (Hk : kids c = []) by (rewrite Hc; apply kids_node_of).
  split; [|split]; auto. now rewrite Hk.
Qed.

Lemma leaf_ok_node_of (es : list (Z * V)) :
  B - 1 <= length es <= 2 * B - 1 -> leaf_ok B (node_of B es []).
Proof. intros H. split; now rewrite entries_node_of. Qed.

Lemma app_same_length {A : Type} (a a' b b' : list A) :
  length a = length a' -> a ++ b = a' ++ b' -> a = a' /\ b = b'.
Proof.
  revert a'. induction a as [|x a IH]; intros [|x' a'] Hl H;
    try discriminate; cbn [app] in *; auto.
  injection H as -> H. destruct (IH a' ltac:(cbn in Hl; lia) H) as (-> & ->).
  auto.
Qed.

Lemma bt_of_leaves (es : list (Z * V)) (cs : list (Node.t V))
  (l : list (Z * V)) :
  length es <= 2 * B - 1 -> length cs = S (length es) ->
  Forall (leaf_ok B) cs -> l = interleave (map entries cs) es ->
  bt B 1 0 (node_of B es cs) l.
Proof.
  intros Hl Hc Hok ->. exists es, cs, (map entries cs).
  repeat split; auto; try lia. now apply leaf_ok_bt.
Qed.

Lemma Forall_app3 {A : Type} (P : A -> Prop) (a : list A) (x : A) (b : list A) :
  Forall P a -> P x -> Forall P b -> Forall P (a ++ x :: b).
Proof. intros. apply Forall_app. split; auto. Qed.

(** What the rebalancing makes of a parent of leaves is a B-tree with the
    same listing. *)
Lemma rebalanced_leaves (pes : list (Z * V)) (X Y : list (Node.t V))
  (child parent' : Node.t V) :
  2 <= B -> length pes <= 2 * B - 1 ->
  length (X ++ child :: Y) = S (length pes) ->
  Forall (leaf_ok B) X -> Forall (leaf_ok B) Y ->
  child = node_of B (entries child) [] ->
  B - 2 <= length (entries child) < B - 1 ->
  rebalanced B pes (X ++ child :: Y) (length X) child parent' ->
  bt B 1 0 parent' (interleave (map entries (X ++ child :: Y)) pes).
Proof.
  intros HB Hpl Hcl HX HY Hchild Hsz Hreb.
  assert (Hkc : kids child = []) by (rewrite Hchild; apply kids_node_of).
  inversion Hreb as
    [E1 p E2 C1 l C2 Hpes Hpcs HE Hidx Hl Hp'
    |E1 p E2 C1 r C2 Hpes Hpcs HE Hidx Hleft Hr Hp'
    |E1 p E2 C1 l C2 e les Hpes Hpcs HE Hidx Hl Hright Hles Hp'
    |p E2 r C2 e res Hpes Hpcs Hidx Hr Hres Hp']; clear Hreb.
  - (* merge with the left sibling *)
    replace (C1 ++ l :: child :: C2) with ((C1 ++ [l]) ++ child :: C2) in Hpcs
      by (now rewrite <- app_assoc).
    apply app_same_length in Hpcs;
      try (rewrite length_app; cbn [length]; lia).
    destruct Hpcs as (-> & HYC). injection HYC as ->.
    apply Forall_app in HX. destruct HX as (HC1 & Hl').
    inversion Hl' as [|? ? (Hlf & Hll) _]; subst.
    assert (Hkl : kids l = []) by (rewrite Hlf; apply kids_node_of).
    unfold merged. rewrite Hkl, Hkc. cbn [app].
    repeat rewrite length_app in Hcl. repeat rewrite length_app in Hpl.
    cbn [length] in Hcl, Hpl.
    apply bt_of_leaves.
    + rewrite length_app. lia.
    + rewrite !length_app. cbn [length]. lia.
    + apply Forall_app3; auto. apply leaf_ok_node_of.
      rewrite length_app. cbn [length]. lia.
    + rewrite !map_app. cbn [map]. rewrite entries_node_of.
      rewrite <- !app_assoc. cbn [app].
      rewrite !interleave_around by (rewrite length_map; lia).
      cbn [interleave]. now rewrite <- !app_assoc.
  - (* merge with the right sibling *)
    apply app_same_length in Hpcs; try lia.
    destruct Hpcs as (-> & HYC). injection HYC as ->.
    inversion HY as [|? ? (Hrf & Hrl) HC2]; subst.
    assert (Hkr : kids r = []) by (rewrite Hrf; apply kids_node_of).
    unfold merged. rewrite Hkr, Hkc. cbn [app].
    repeat rewrite length_app in Hcl. repeat rewrite length_app in Hpl.
    cbn [length] in Hcl, Hpl.
    apply bt_of_leaves.
    + rewrite length_app. lia.
    + rewrite !length_app. cbn [length]. lia.
    + apply Forall_app3; auto. apply leaf_ok_node_of.
      rewrite length_app. cbn [length]. lia.
    + rewrite !map_app. cbn [map]. rewrite entries_node_of.
      rewrite !interleave_around by (rewrite length_map; lia).
      cbn [interleave]. now rewrite <- !app_assoc.
  - (* borrow from the left sibling *)
    replace (C1 ++ l :: child :: C2) with ((C1 ++ [l]) ++ child :: C2) in Hpcs
      by (now rewrite <- app_assoc).
    apply app_same_length in Hpcs;
      try (rewrite length_app; cbn [length]; lia).
    destruct Hpcs as (-> & HYC). injection HYC as ->.
    apply Forall_app in HX. destruct HX as (HC1 & Hl').
    inversion Hl' as [|? ? (Hlf & Hll) _]; subst.
    assert (Hkl : kids l = []) by (rewrite Hlf; apply kids_node_of).
    rewrite Hkl, Hkc.
    repeat rewrite length_app in Hcl. repeat rewrite length_app in Hpl.
    cbn [length] in Hcl, Hpl.
    rewrite Hles, length_app in Hl, Hll. cbn [length] in Hl, Hll.
    apply bt_of_leaves.
    + rewrite length_app. cbn [length]. lia.
    + rewrite !length_app. cbn [length]. lia.
    + apply Forall_app3; auto; [apply leaf_ok_node_of; lia|].
      constructor; auto. apply leaf_ok_node_of. cbn [length]. lia.
    + rewrite !map_app. cbn [map]. rewrite !entries_node_of, Hles.
      rewrite <- !app_assoc. cbn [app].
      rewrite !interleave_around by (rewrite length_map; lia).
      cbn [interleave]. rewrite <- !app_assoc. reflexivity.
  - (* borrow from the right sibling *)
    destruct X as [|x X]; [|cbn [length] in Hidx; lia].
    cbn [app] in *. injection Hpcs as ->.
    inversion HY as [|? ? (Hrf & Hrl) HC2]; subst.
    assert (Hkr : kids r = []) by (rewrite Hrf; apply kids_node_of).
    rewrite Hkr, Hkc.
    cbn [length] in Hcl, Hpl.
    rewrite Hres in Hr, Hrl. cbn [length] in Hr, Hrl.
    apply bt_of_leaves.
    + cbn [length]. lia.
    + cbn [length]. lia.
    + constructor; [apply leaf_ok_node_of; rewrite length_app; cbn [length]; lia|].
      constructor; auto. apply leaf_ok_node_of. lia.
    + cbn [map]. rewrite !entries_node_of, Hres.
      cbn [interleave]. rewrite <- !app_assoc. reflexivity.
Qed.

(** [check_child_underflow] on a parent of leaves, one of which may be one
    entry short. *)
Lemma underflow_leaves (pes : list (Z * V)) (X Y : list (Node.t V))
  (child : Node.t V) :
  2 <= B -> 1 <= length pes <= 2 * B - 1 ->
  length (X ++ child :: Y) = S (length pes) ->
  asc (interleave (map entries (X ++ child :: Y)) pes) ->
  Forall (leaf_ok B) X -> Forall (leaf_ok B) Y ->
  child = node_of B (entries child) [] ->
  B - 2 <= length (entries child) <= 2 * B - 1 ->
  exists parent',
    BTreeMap.check_child_underflow B (node_of B pes (X ++ child :: Y))
      (length X) = Some parent' /\
    bt B 1 0 parent' (interleave (map entries (X ++ child :: Y)) pes).
Proof.
  intros HB Hpl Hcl Hs HX HY Hchild Hsz.
  assert (Hpk : Forall (packed B true) (X ++ child :: Y)).
  { apply Forall_app3.
    - eapply Forall_impl; [|exact HX]. intros c (Hc & Hl).
      apply leaf_ok_packed; auto; lia.
    - apply leaf_ok_packed; auto; lia.
    - eapply Forall_impl; [|exact HY]. intros c (Hc & Hl).
      apply leaf_ok_packed; auto; lia. }
  destruct (le_lt_dec (B - 1) (length (entries child))) as [Hok|Hshort].
  - exists (node_of B pes (X ++ child :: Y)). split.
    + unfold BTreeMap.check_child_underflow.
      rewrite get_children_node_of, nth_error_exact.
      rewrite (size_packed B true child)
        by (apply leaf_ok_packed; auto; lia).
      destruct (Nat.ltb_spec (length (entries child)) (B - 1)); [lia|].
      reflexivity.
    + apply bt_of_leaves; auto; try lia.
      apply Forall_app3; auto. split; auto. lia.
  - destruct (underflow_rebalanced B true pes (X ++ child :: Y) (length X) child)
      as (parent' & Hrun & Hreb); auto.
    + apply nth_error_exact.
    + exists parent'. split; [exact Hrun|].
      apply rebalanced_leaves; auto; lia.
Qed.

Lemma bt_leaves (cs : list (Node.t V)) (ls : list (list (Z * V))) :
  Forall2 (bt B 0 (B - 1)) cs ls -> ls = map entries cs /\ Forall (leaf_ok B) cs.
Proof.
  induction 1 as [|c lc cs ls (Hl & Hc) _ (IH1 & IH2)]; cbn [map]; auto.
  assert (He : entries c = lc) by (rewrite Hc; apply entries_node_of).
  split.
  - now rewrite He, IH1.
  - constructor; auto. split; rewrite He; auto.
Qed.

Lemma asc_split (l1 l2 : list (Z * V)) (k : Z) (v : V) :
  asc (l1 ++ (k, v) :: l2) ->
  Forall (fun e => (fst e < k)%Z) l1 /\ Forall (fun e => (k < fst e)%Z) l2.
Proof.
  intros Hs. apply asc_app in Hs. destruct Hs as (_ & Hs & H1).
  apply asc_cons in Hs. destruct Hs as (H2 & _).
  split; apply Forall_forall; intros e He.
  - apply (H1 e (k, v)); auto. now left.
  - apply (H2 e He).
Qed.

(** Erasing a key that the root of a two-level tree holds. *)
Lemma erase_recursive_root (es : list (Z * V)) (cs : list (Node.t V)) (k : Z) :
  2 <= B -> 1 <= length es <= 2 * B - 1 -> length cs = S (length es) ->
  Forall (leaf_ok B) cs -> asc (interleave (map entries cs) es) ->
  In k (map fst es) ->
  exists u',
    BTreeMap.erase_recursive B k (node_of B es cs) =
      Some (Some (lookup k (interleave (map entries cs) es)), u') /\
    bt B 1 0 u' (del k (interleave (map entries cs) es)).
Proof.
  intros HB Hm Hcs Hok Hs Hin.
  assert (Hes : asc es).
  { apply (asc_interleave_entries (map entries cs)); auto.
    rewrite length_map. lia. }
  rewrite erase_recursive_eq.
  change (Node.keys (node_of B es cs)) with (pad (2 * B) (map fst es)).
  cbv zeta.
  rewrite find_it_spec by (auto; rewrite length_map; lia).
  destruct (located_found k (map fst es) Hes Hin) as (-> & Hk).
  destruct (Z.ltb_spec (- (Z.of_nat (lead k (map fst es)) + 1)) 0); [|lia].
  replace (Z.to_nat (- (- (Z.of_nat (lead k (map fst es)) + 1) + 1)))
    with (lead k (map fst es)) by lia.
  rewrite nth_error_map in Hk.
  destruct (nth_error es (lead k (map fst es))) as [[k' v]|] eqn:E;
    [|discriminate].
  cbn in Hk. injection Hk as ->.
  destruct (nth_error_split es _ E) as (E1 & E2 & -> & HE1).
  rewrite <- HE1. clear E HE1.
  repeat rewrite length_app in Hcs. rewrite length_app in Hm.
  cbn [length] in Hcs, Hm.
  destruct (nth_error cs (S (length E1))) as [c|] eqn:Hc.
  2:{ apply nth_error_None in Hc. lia. }
  destruct (split_at_child cs (length E1) c Hc) as (C1 & ci & C2 & -> & HC1).
  clear Hc.
  apply Forall_app in Hok. destruct Hok as (HokC1 & Hok).
  inversion Hok as [|? ? Hokci Hok']; subst.
  inversion Hok' as [|? ? (Hcf & Hcl) HokC2]; subst. clear Hok Hok'.
  repeat rewrite length_app in Hcs. cbn [length] in Hcs.
  destruct (entries c) as [|b lc'] eqn:Hlc; [cbn [length] in Hcl; lia|].
  cbn [length] in Hcl. clear Hlc. subst c.
  (* the order around the key *)
  rewrite map_app in Hs |- *. cbn [map] in Hs |- *.
  rewrite entries_node_of in Hs |- *.
  destruct (around_separator (map entries C1) (map entries C2) E1 E2 (k, v)
              (entries ci) (b :: lc')) as (Ha & Hb & _ & _ & HbE2);
    [rewrite length_map; lia | rewrite length_map; lia | exact Hs |].
  cbn [fst] in Ha, Hb.
  destruct (asc_split E1 E2 k v Hes) as (HE1k & _).
  assert (Hlist : interleave (map entries C1 ++ entries ci :: (b :: lc') :: map entries C2)
                    (E1 ++ (k, v) :: E2) =
                  (interleave (map entries C1) E1 ++ entries ci) ++
                  (k, v) :: (b :: lc') ++
                  match E2 with
                  | [] => interleave (map entries C2) []
                  | e :: E2' => e :: interleave (map entries C2) E2'
                  end).
  { rewrite interleave_around by (rewrite length_map; lia).
    cbn [interleave]. now rewrite <- !app_assoc. }
  rewrite Hlist in Hs |- *.
  destruct (asc_split _ _ k v Hs) as (Hbefore & _).
  rewrite (lookup_in k v _ Hs) by (apply in_or_app; right; now left).
  rewrite del_here by (now apply below_not_in).
  (* the steps of the code *)
  unfold BTreeMap.erase_here.
  rewrite (remove_node_of B (E1 ++ (k, v) :: E2) _ (length E1) (k, v))
    by (auto using nth_error_exact; rewrite length_app; cbn [length]; lia).
  rewrite (cut_out E1 E2 (k, v) (length E1)) by reflexivity.
  rewrite is_leaf_node_of.
  destruct (C1 ++ ci :: node_of B (b :: lc') [] :: C2) as [|c0 cs0] eqn:Hcs0;
    [destruct C1; discriminate|]. rewrite <- Hcs0. clear Hcs0 c0 cs0.
  cbn [negb fst snd]. unfold BTreeMap.deref.
  replace (C1 ++ ci :: node_of B (b :: lc') [] :: C2)
    with ((C1 ++ [ci]) ++ node_of B (b :: lc') [] :: C2)
    by (now rewrite <- app_assoc).
  rewrite get_children_exact by (rewrite length_app; cbn [length]; lia).
  cbn [bind].
  rewrite remove_smallest_eq.
  rewrite (get_children_node_of B (b :: lc') [] 0). cbn [nth_error].
  unfold ret at 1.
  rewrite (remove_node_of B (b :: lc') [] 0 b) by (auto; cbn [length]; lia).
  cbn [firstn skipn app bind fst snd].
  rewrite (set_child_node_of (E1 ++ E2) (C1 ++ [ci]) C2)
    by (repeat rewrite length_app; cbn [length]; lia).
  rewrite (insert_between B E1 E2 _ b).
  2:{ rewrite length_app. lia. }
  2:{ eapply Forall_impl; [|exact HE1k]. intros x Hx.
      inversion Hb; subst. cbn beta in *. lia. }
  2:{ apply Forall_forall. intros x Hx. apply HbE2; auto. now left. }
  cbn [bind].
  set (T := match E2 with
            | [] => interleave (map entries C2) []
            | e :: E2' => e :: interleave (map entries C2) E2'
            end) in *.
  assert (Hnew :
    interleave (map entries ((C1 ++ [ci]) ++ node_of B lc' [] :: C2))
      (E1 ++ b :: E2) =
    (interleave (map entries C1) E1 ++ entries ci) ++ (b :: lc') ++ T).
  { rewrite !map_app. cbn [map]. rewrite entries_node_of.
    rewrite <- app_assoc. cbn [app].
    rewrite interleave_around by (rewrite length_map; lia).
    cbn [interleave]. now rewrite <- !app_assoc. }
  assert (Hs' : asc ((interleave (map entries C1) E1 ++ entries ci) ++
                     (b :: lc') ++ T)).
  { apply asc_app in Hs. destruct Hs as (H1 & H2 & H3).
    apply asc_cons in H2. destruct H2 as (_ & H2).
    apply asc_app. split; [exact H1|]. split; [exact H2|].
    intros x y Hx Hy. apply H3; auto. now right. }
  destruct (underflow_leaves (E1 ++ b :: E2) (C1 ++ [ci]) C2 (node_of B lc' []))
    as (parent' & Hrun & Hbt); auto.
  - rewrite length_app. cbn [length]. lia.
  - repeat rewrite length_app. cbn [length]. lia.
  - now rewrite Hnew.
  - apply Forall_app3; auto.
  - now rewrite entries_node_of.
  - rewrite entries_node_of. lia.
  - replace (length E1 + 1) with (length (C1 ++ [ci]))
      by (rewrite length_app; cbn [length]; lia).
    rewrite Hrun. cbn [bind]. unfold ret.
    eexists. split; [reflexivity|]. rewrite Hnew in Hbt. exact Hbt.
Qed.

(** Erasing a key that a leaf of a two-level tree holds. *)
Lemma erase_recursive_child (es : list (Z * V)) (cs : list (Node.t V)) (k : Z) :
  2 <= B -> 1 <= length es <= 2 * B - 1 -> length cs = S (length es) ->
  Forall (leaf_ok B) cs -> asc (interleave (map entries cs) es) ->
  ~ In k (map fst es) -> In k (map fst (interleave (map entries cs) es)) ->
  exists u',
    BTreeMap.erase_recursive B k (node_of B es cs) =
      Some (Some (lookup k (interleave (map entries cs) es)), u') /\
    bt B 1 0 u' (del k (interleave (map entries cs) es)).
Proof.
  intros HB Hm Hcs Hok Hs Hines Hin.
  assert (Hes : asc es).
  { apply (asc_interleave_entries (map entries cs)); auto.
    rewrite length_map. lia. }
  pose proof (leaf_ok_bt cs Hok) as Hall.
  rewrite erase_recursive_eq.
  change (Node.keys (node_of B es cs)) with (pad (2 * B) (map fst es)).
  cbv zeta.
  rewrite find_it_spec by (auto; rewrite length_map; lia).
  rewrite (located_absent k (map fst es) Hines).
  destruct (Z.ltb_spec (Z.of_nat (lead k (map fst es))) 0); [lia|].
  rewrite Nat2Z.id.
  destruct (descend B 0 1 es cs (map entries cs) k Hm Hcs Hall Hs Hines)
    as (E1 & E2 & C1 & ci & C2 & L1 & li & L2 & T & HE & HC & HL & HE1 &
        HC1 & HL1 & HL2 & HbC1 & Hbi & HbC2 & HT & Hlist & HP & HTk & _).
  rewrite Hlist in Hs, Hin |- *.
  assert (Hli : asc li).
  { apply asc_app in Hs. destruct Hs as (_ & Hs & _).
    apply asc_app in Hs. now destruct Hs. }
  assert (Hinli : In k (map fst li)).
  { rewrite !map_app, !in_app_iff in Hin.
    destruct Hin as [Hin|[Hin|Hin]]; auto; exfalso.
    - now apply (below_not_in k _ HP).
    - now apply (above_not_in k _ HTk). }
  destruct Hbi as (Hlil & Hci).
  rewrite <- HE1, <- HC1. subst cs ci.
  rewrite get_children_exact by reflexivity.
  rewrite erase_recursive_leaf by (auto; lia). cbn [bind].
  rewrite set_child_node_of by (auto; lia).
  rewrite !lookup_app, (lookup_below k _ HP), (lookup_above k _ HTk).
  rewrite del_app_left by (now apply below_not_in).
  rewrite del_app_right by exact Hinli.
  destruct (lookup k li) as [v|] eqn:Hv.
  2:{ apply lookup_none_iff in Hv. contradiction. }
  apply Forall_app in Hok. destruct Hok as (HokC1 & Hok).
  apply Forall_cons_iff in Hok. destruct Hok as (Hokci & HokC2).
  apply bt_leaves in HbC1, HbC2.
  destruct HbC1 as (-> & _), HbC2 as (-> & _).
  pose proof (length_del k li Hinli) as Hdel.
  assert (Hnew :
    interleave (map entries (C1 ++ node_of B (del k li) [] :: C2)) es =
    interleave (map entries C1) E1 ++ del k li ++ T).
  { rewrite map_app. cbn [map]. rewrite entries_node_of.
    rewrite HE at 1. rewrite interleave_around by lia. now rewrite HT. }
  destruct (underflow_leaves es C1 C2 (node_of B (del k li) []))
    as (parent' & Hrun & Hbt); auto.
  - repeat rewrite length_app in *. cbn [length] in *. lia.
  - rewrite Hnew.
    replace (interleave (map entries C1) E1 ++ del k li ++ T)
      with (del k (interleave (map entries C1) E1 ++ li ++ T)).
    + now apply asc_del.
    + rewrite del_app_left by (now apply below_not_in).
      now rewrite del_app_right by exact Hinli.
  - now rewrite entries_node_of.
  - rewrite entries_node_of. lia.
  - rewrite Hrun. cbn [bind]. unfold ret.
    eexists. split; [reflexivity|]. rewrite Hnew in Hbt. exact Hbt.
Qed.

(** [erase_recursive] on a tree of two levels. *)
Lemma erase_recursive_two_levels (u : Node.t V) (l : list (Z * V)) (k : Z) :
  2 <= B -> bt B 1 1 u l -> asc l -> In k (map fst l) ->
  exists u',
    BTreeMap.erase_recursive B k u = Some (Some (lookup k l), u') /\
    bt B 1 0 u' (del k l).
Proof.
  intros HB (es & cs & ls & -> & -> & Hm & Hcs & Hall) Hs Hin.
  apply bt_leaves in Hall. destruct Hall as (-> & Hok).
  destruct (in_dec Z.eq_dec k (map fst es)) as [Hines|Hines].
  - now apply erase_recursive_root.
  - now apply erase_recursive_child.
Qed.

(** [erase] on a map of at most two levels. *)
Lemma erase_grown (h : nat) (m : BTreeMap.t V) (l : list (Z * V)) (k : Z) :
  2 <= B -> h <= 1 -> grown B h m l ->
  exists m' h',
    BTreeMap.erase B k m = Some (option_map Some (lookup k l), m') /\
    h' <= h /\ grown B h' m' (del k l).
Proof.
  intros HB Hh (Hb & Hs). unfold BTreeMap.erase.
  destruct (in_dec Z.eq_dec k (map fst l)) as [Hin|Hin].
  - destruct (lookup k l) as [v|] eqn:Hv.
    2:{ apply lookup_none_iff in Hv. contradiction. }
    cbn [option_map].
    destruct h as [|[|h]]; [| |lia].
    + destruct Hb as (Hl & Hroot). rewrite Hroot.
      rewrite erase_recursive_leaf, Hv by (auto; lia). cbn [bind].
      rewrite get_children_node_of. cbn [nth_error is_some].
      rewrite andb_false_r. unfold ret.
      exists (BTreeMap.mk (node_of B (del k l) [])), 0.
      split; [reflexivity|]. split; [lia|]. split; [|now apply asc_del].
      cbn [BTreeMap.root root_min]. split; [|reflexivity].
      pose proof (length_del k l Hin). lia.
    + destruct (erase_recursive_two_levels (BTreeMap.root m) l k HB Hb Hs Hin)
        as (u' & Hrun & Hb').
      rewrite Hrun, Hv. cbn [bind].
      destruct Hb' as (es & cs & ls & -> & Hl & Hes & Hcs & Hall).
      rewrite size_node_of by lia. rewrite get_children_node_of.
      destruct es as [|e es].
      * destruct cs as [|c [|c' cs]]; try (cbn [length] in Hcs; lia).
        cbn [length Nat.eqb nth_error is_some andb BTreeMap.deref bind].
        unfold ret. exists (BTreeMap.mk c), 0.
        split; [reflexivity|]. split; [lia|].
        rewrite Hl. split; [|rewrite <- Hl; now apply asc_del].
        inversion Hall as [|? lc ? ? Hc Hnil]; subst. inversion Hnil; subst.
        cbn [interleave BTreeMap.root root_min]. rewrite app_nil_r.
        apply (bt_weaken B 0 (B - 1)); [lia | exact Hc].
      * cbn [length Nat.eqb andb]. unfold ret.
        exists (BTreeMap.mk (node_of B (e :: es) cs)), 1.
        split; [reflexivity|]. split; [lia|].
        split; [|now apply asc_del].
        cbn [BTreeMap.root root_min].
        exists (e :: es), cs, ls. cbn [length] in *.
        repeat split; auto; lia.
  - rewrite (erase_recursive_absent h ltac:(lia) _ _ l k Hb Hs Hin).
    rewrite (lookup_none k l Hin), (del_absent k l Hin).
    cbn [bind option_map].
    assert (Hkeep : (Node.size B (BTreeMap.root m) =? 0)
                    && is_some (get (Node.children (BTreeMap.root m)) 0) = false).
    { destruct h as [|[|h]]; [| |lia].
      - destruct Hb as (_ & ->). rewrite get_children_node_of.
        cbn [nth_error is_some]. apply andb_false_r.
      - destruct Hb as (es & cs & ls & -> & _ & Hes & _).
        cbn [root_min] in Hes. rewrite size_node_of by lia.
        destruct (Nat.eqb_spec (length es) 0); [lia | reflexivity]. }
    rewrite Hkeep. unfold ret. exists m, h.
    split; [now destruct m|]. split; [lia|]. split; auto.
Qed.

End Erase.

(** ** Runs of calls on small maps *)

Section Runs.
Context {V : Type}.
Variable B : nat.

Lemma peak_ge (ops : list (Op V)) (l : list (Z * V)) : length l <= peak ops l.
Proof. destruct ops; cbn [peak]; lia. Qed.

Lemma asc_apply_op (l : list (Z * V)) (o : Op V) : asc l -> asc (apply_op l o).
Proof.
  intros Hs. destruct o as [k v|k]; cbn [apply_op].
  - now apply asc_ins_new.
  - now apply asc_del.
Qed.

(** A map that insertions have raised to three levels or more lists at
    least [2 B^2 - 1] entries. *)
Lemma tall_is_large (h : nat) (m : BTreeMap.t V) (l : list (Z * V)) :
  1 <= B -> 2 <= h -> grown B h m l -> 2 * B * B <= S (length l).
Proof.
  intros HB Hh (Hb & _).
  pose proof (size_lower B h HB _ _ _ Hb) as Hlow.
  destruct h as [|[|h]]; try lia. cbn [root_min] in Hlow.
  assert (B * B <= B ^ S (S h)).
  { rewrite !Nat.pow_succ_r'.
    assert (1 <= B ^ h) by (apply Nat.neq_0_lt_0, Nat.pow_nonzero; lia).
    nia. }
  nia.
Qed.

Lemma step_small (o : Op V) (h : nat) (m : BTreeMap.t V) (l : list (Z * V)) :
  2 <= B -> h <= 1 -> grown B h m l ->
  length (apply_op l o) + 2 <= 2 * B * B ->
  exists m' h',
    step B o m = Some m' /\ h' <= 1 /\ grown B h' m' (apply_op l o).
Proof.
  intros HB Hh Hg Hsmall. destruct o as [k v|k]; cbn [step apply_op] in *.
  - destruct Hg as (Hb & Hs).
    destruct (insert_bt_root B h m l k v ltac:(lia) Hb Hs)
      as (b & m' & h' & Hi & Hb' & Hhh).
    rewrite Hi. cbn [bind]. exists m', h'. split; [reflexivity|].
    assert (Hg' : grown B h' m' (ins_new l (k, v))).
    { split; auto. now apply asc_ins_new. }
    split; auto.
    destruct (le_lt_dec h' 1) as [|Htall]; auto.
    pose proof (tall_is_large h' m' _ ltac:(lia) Htall Hg'). lia.
  - destruct (erase_grown B h m l k HB Hh Hg) as (m' & h' & He & Hhh & Hg').
    rewrite He. cbn [bind]. exists m', h'. split; [reflexivity|].
    split; [lia | exact Hg'].
Qed.

(** Calls on a map of at most two levels whose listing stays short. *)
Lemma run_small (ops : list (Op V)) :
  2 <= B ->
  forall (h : nat) (m : BTreeMap.t V) (l : list (Z * V)),
  h <= 1 -> grown B h m l -> peak ops l + 2 <= 2 * B * B ->
  exists m' h',
    run B ops m = Some m' /\ h' <= 1 /\
    grown B h' m' (fold_left apply_op ops l).
Proof.
  intros HB. induction ops as [|o ops IH]; intros h m l Hh Hg Hp.
  - exists m, h. cbn. auto.
  - cbn [peak] in Hp.
    pose proof (peak_ge ops (apply_op l o)) as Hge.
    destruct (step_small o h m l HB Hh Hg ltac:(lia)) as (m1 & h1 & Hst & Hh1 & Hg1).
    destruct (IH h1 m1 (apply_op l o) Hh1 Hg1 ltac:(lia))
      as (m' & h' & Hr & Hh' & Hg').
    exists m', h'. cbn [run fold_left]. rewrite Hst. cbn [bind]. auto.
Qed.

End Runs.

(** ** Nodes at their bounds *)

Lemma ascending_before (ks : list Z) :
  ascending ks ->
  forall m k, nth_error ks m = Some k ->
  Forall (fun x => (x < k)%Z) (firstn m ks) /\
  Forall (fun x => (k < x)%Z) (skipn (S m) ks).
Proof.
  induction ks as [|x ks IH]; intros Hs [|m] k H; cbn in H; try discriminate.
  - injection H as ->. destruct Hs as (Hx & _). cbn. split; [constructor | exact Hx].
  - destruct Hs as (Hx & Hs). destruct (IH Hs m k H) as (H1 & H2).
    cbn [firstn skipn]. split; [|exact H2].
    constructor; [|exact H1].
    rewrite Forall_forall in Hx. apply Hx. eapply nth_error_In; eauto.
Qed.

Lemma skipn_nth_error {A : Type} (l : list A) :
  forall i x, nth_error l i = Some x -> skipn i l = x :: skipn (S i) l.
Proof.
  induction l as [|y l IH]; intros [|i] x H; cbn in H; try discriminate.
  - now injection H as ->.
  - cbn [skipn]. now apply IH.
Qed.

Lemma ascending_skipn (ks : list Z) (n : nat) :
  ascending ks -> ascending (skipn n ks).
Proof.
  revert ks. induction n as [|n IH]; intros [|x ks] Hs; cbn [skipn]; auto.
  destruct Hs as (_ & Hs). auto.
Qed.

Lemma sanity_ascending (l : list Z) : sanity l = true <-> ascending l.
Proof.
  induction l as [|x [|y r] IH]; cbn [sanity ascending].
  - tauto.
  - split; auto.
  - rewrite andb_true_iff, IH, Z.ltb_lt. cbn [ascending]. split.
    + intros (Hxy & Hy & Hr). repeat split; auto.
      constructor; [exact Hxy|].
      eapply Forall_impl; [|exact Hy]. intros z Hz. cbn beta in Hz. lia.
    + intros (Hx & Hy & Hr). inversion Hx; subst. auto.
Qed.

Section NodeBounds.
Context {V : Type}.
Variable B : nat.

(** [insert] runs through a node whose slots are all taken by smaller
    keys, and leaves it as it is. *)
Lemma insert_from_full (es : list (Z * V)) (cs : list (Node.t V))
  (k : Z) (v : V) (n : nat) :
  forall i,
  i + n = length es -> Forall (fun e => (fst e < k)%Z) es ->
  Node.insert_from B n i (Some k) (Some v) (node_of B es cs) =
  Some (node_of B es cs).
Proof.
  induction n as [|n IH]; intros i Hn Hall; [reflexivity|].
  cbn [Node.insert_from].
  change (Node.keys (node_of B es cs)) with (pad (2 * B) (map fst es)).
  rewrite get_pad, nth_error_map.
  destruct (nth_error es i) as [e|] eqn:E.
  2:{ apply nth_error_None in E. lia. }
  cbn [option_map]. rewrite Compare_gt.
  rewrite Forall_forall in Hall.
  pose proof (Hall e (nth_error_In _ _ E)) as He.
  destruct (Z.ltb_spec (fst e) k); [|lia].
  apply IH; [lia | now apply Forall_forall].
Qed.

(** [remove] at a slot that holds nothing. *)
Lemma remove_beyond (es : list (Z * V)) (cs : list (Node.t V)) (i : nat) :
  1 <= B -> length es <= i -> i < 2 * B ->
  Node.remove B i (node_of B es cs) = ((None, None), node_of B es cs).
Proof.
  intros HB Hl Hi. unfold Node.remove.
  cbn [node_of Node.keys Node.values Node.children].
  rewrite !get_pad_ge by (rewrite length_map; lia).
  assert (Hk : set (pad (2 * B) (map fst es)) i None = pad (2 * B) (map fst es)).
  { transitivity (set (pad (2 * B) (map fst es)) i
                    (get (pad (2 * B) (map fst es)) i)); [|apply set_same].
    now rewrite get_pad_ge by (rewrite length_map; lia). }
  assert (Hv : set (pad (2 * B) (map snd es)) i None = pad (2 * B) (map snd es)).
  { transitivity (set (pad (2 * B) (map snd es)) i
                    (get (pad (2 * B) (map snd es)) i)); [|apply set_same].
    now rewrite get_pad_ge by (rewrite length_map; lia). }
  rewrite Hk, Hv. f_equal.
  replace (2 * B) with (S (2 * B - 1)) at 1 by lia.
  cbn [Node.remove_from Node.keys].
  rewrite get_pad_ge by (rewrite length_map; lia).
  cbn [is_some]. now rewrite andb_false_r.
Qed.

End NodeBounds.

(** * Further properties of the code *)

(** ** Sample maps *)

Lemma grown_full_leaf : grown 2 0 full_leaf full_leaf_entries.
Proof.
  split.
  - split; [simpl; lia | reflexivity].
  - unfold asc. simpl. repeat constructor; lia.
Qed.

Lemma grown_two_level : grown 2 1 two_level (row [10; 20; 30; 40]%Z).
Proof.
  split.
  - exists (row [20]%Z),
      [node_of 2 (row [10]%Z) []; node_of 2 (row [30; 40]%Z) []],
      [row [10]%Z; row [30; 40]%Z].
    repeat match goal with |- _ /\ _ => split end;
      try reflexivity; try (simpl; lia).
    repeat constructor; simpl; lia.
  - unfold asc. simpl. repeat constructor; lia.
Qed.

Lemma grown_wf {V : Type} (B h : nat) (m : BTreeMap.t V) (l : list (Z * V)) :
  grown B h m l -> wf B m l.
Proof.
  intros (Hb & Hs). exists h. split; auto.
  apply (bt_weaken B h (root_min h)); [lia | exact Hb].
Qed.

Lemma grown_new {V : Type} (B : nat) : grown B 0 (@BTreeMap.new V B) [].
Proof.
  split; [|exact I]. split; [simpl; lia | apply empty_node_of].
Qed.

(** ** The search *)

(** X1. [find_it] on an array that holds the ascending keys [ks], at most
    [2B - 1] of them, followed by nulls: when [k] is the key number [m] the
    answer is [-(m + 1)]; when [k] is not there the answer is the number
    [lo] of keys smaller than [k], all later keys being larger. *)
Theorem find_it_ascending (B n : nat) (ks : list Z) (k : Z) :
  ascending ks -> length ks <= 2 * B - 1 ->
  (forall m, nth_error ks m = Some k ->
     BTreeMap.find_it (pad n ks) (2 * B - 1) k = (- (Z.of_nat m + 1))%Z) /\
  (~ In k ks ->
     exists lo,
       BTreeMap.find_it (pad n ks) (2 * B - 1) k = Z.of_nat lo /\
       lo <= length ks /\
       Forall (fun x => (x < k)%Z) (firstn lo ks) /\
       Forall (fun x => (k < x)%Z) (skipn lo ks)).
Proof.
  intros Hs Hl. rewrite find_it_spec by assumption. split.
  - intros m Hm.
    destruct (located_found k ks Hs (nth_error_In _ _ Hm)) as (-> & _).
    destruct (ascending_before ks Hs m k Hm) as (Hbefore & _).
    rewrite (lead_stop k ks m Hbefore).
    + reflexivity.
    + apply Nat.lt_le_incl. apply nth_error_Some. congruence.
    + rewrite Hm. lia.
  - intros Hin. rewrite (located_absent k ks Hin).
    exists (lead k ks). split; [reflexivity|]. split; [apply lead_le|].
    split; [apply lead_prefix|].
    destruct (nth_error ks (lead k ks)) as [x|] eqn:E.
    + pose proof (lead_next k ks x E) as Hx.
      assert (x <> k) by (intros ->; apply Hin; eapply nth_error_In; eauto).
      destruct (ascending_before ks Hs _ x E) as (_ & Hafter).
      rewrite (skipn_nth_error ks _ x E).
      constructor; [lia|].
      eapply Forall_impl; [|exact Hafter]. intros y Hy. cbn beta in Hy. lia.
    + apply nth_error_None in E. rewrite skipn_all2 by exact E. constructor.
Qed.

Lemma find_it_ascending_witness :
  (forall m, nth_error [10; 20; 30]%Z m = Some 20%Z ->
     BTreeMap.find_it (pad 4 [10; 20; 30]%Z) (2 * 2 - 1) 20 =
     (- (Z.of_nat m + 1))%Z) /\
  (~ In 20%Z [10; 20; 30]%Z ->
     exists lo,
       BTreeMap.find_it (pad 4 [10; 20; 30]%Z) (2 * 2 - 1) 20 = Z.of_nat lo /\
       lo <= length [10; 20; 30]%Z /\
       Forall (fun x => (x < 20)%Z) (firstn lo [10; 20; 30]%Z) /\
       Forall (fun x => (20 < x)%Z) (skipn lo [10; 20; 30]%Z)).
Proof.
  apply (find_it_ascending 2 4 [10; 20; 30]%Z 20%Z).
  - simpl. repeat constructor; lia.
  - simpl. lia.
Defined.

(** X2. On a well-formed map with listing [l], [preorder] appends [l] to
    what [result] holds, and [find(k)] returns the value that the listing
    has for [k], or nothing when [k] is not listed. *)
Theorem find_agrees_with_preorder {V : Type} (B : nat) (m : BTreeMap.t V)
  (l acc : list (Z * V)) (k : Z) :
  1 <= B -> wf B m l ->
  BTreeMap.preorder B m acc = Some (acc ++ l) /\
  BTreeMap.find B k m = Some (lookup k l).
Proof.
  intros HB (h & Hb & Hs). split.
  - apply (preorder_bt B h HB 0 _ l acc Hb).
  - apply (find_recursive_bt B h HB 0 _ l k Hb Hs).
Qed.

Lemma find_agrees_with_preorder_witness :
  BTreeMap.preorder 2 full_leaf [] = Some ([] ++ full_leaf_entries) /\
  BTreeMap.find 2 20%Z full_leaf = Some (lookup 20%Z full_leaf_entries).
Proof.
  apply (find_agrees_with_preorder 2 full_leaf full_leaf_entries [] 20%Z).
  - lia.
  - exact wf_full_leaf.
Defined.

(** X3. One insertion into a well-formed map, then a search: the key
    inserted is found with the new value when it was not listed and with
    its old value when it was; every other key is found as before. *)
Theorem insert_then_find {V : Type} (B : nat) (m : BTreeMap.t V)
  (l : list (Z * V)) (k k' : Z) (v : V) :
  1 <= B -> wf B m l ->
  exists b m',
    BTreeMap.insert B k v m = Some (b, m') /\
    BTreeMap.find B k' m' =
      Some (if (k' =? k)%Z
            then match lookup k l with Some old => Some old | None => Some v end
            else lookup k' l).
Proof.
  intros HB (h & Hb & Hs).
  assert (Hfind : forall h' m1,
            bt B h' 0 (BTreeMap.root m1) (ins_new l (k, v)) ->
            BTreeMap.find B k' m1 =
            Some (if (k' =? k)%Z
                  then match lookup k l with Some old => Some old | None => Some v end
                  else lookup k' l)).
  { intros h' m1 Hb1. unfold BTreeMap.find.
    rewrite (find_recursive_bt B h' HB 0 _ _ k' Hb1 (asc_ins_new l (k, v) Hs)).
    rewrite lookup_ins_new by exact Hs. cbn [fst snd]. f_equal.
    destruct (Z.eqb_spec k' k) as [->|Hne].
    - rewrite Z.eqb_refl. reflexivity.
    - destruct (Z.eqb_spec k k'); [congruence|]. now destruct (lookup k' l). }
  destruct (insert_bt B h m l k v HB Hb Hs)
    as [(Hin & Hi) | (Hin & b & m' & Hi & Hb')].
  - exists false, m. split; [exact Hi|]. apply (Hfind h).
    unfold ins_new. cbn [fst snd].
    destruct (lookup k l) eqn:E; [exact Hb|].
    apply lookup_none_iff in E. contradiction.
  - exists b, m'. split; [exact Hi|]. apply (Hfind (if b then S h else h)).
    unfold ins_new. cbn [fst snd].
    apply lookup_none_iff in Hin. now rewrite Hin.
Qed.

Lemma insert_then_find_witness :
  exists b m',
    BTreeMap.insert 2 25%Z (to_string 26) full_leaf = Some (b, m') /\
    BTreeMap.find 2 25%Z m' =
      Some (if (25 =? 25)%Z
            then match lookup 25%Z full_leaf_entries with
                 | Some old => Some old
                 | None => Some (to_string 26)
                 end
            else lookup 25%Z full_leaf_entries).
Proof.
  apply (insert_then_find 2 full_leaf full_leaf_entries 25%Z 25%Z (to_string 26)).
  - lia.
  - exact wf_full_leaf.
Defined.

(** ** Sequences of insertions *)

Lemma run_inserts_new {V : Type} (B : nat) (kvs : list (Z * V)) :
  1 <= B ->
  exists m h,
    run B (inserts kvs) (BTreeMap.new B) = Some m /\
    grown B h m (fold_left ins_new kvs []).
Proof.
  intros HB.
  destruct (run_inserts_bt B kvs HB 0 (BTreeMap.new B) [])
    as (m & h & Hr & Hb & _).
  - apply grown_new.
  - exact I.
  - exists m, h. split; [exact Hr|]. split; [exact Hb|].
    now apply asc_fold_ins_new.
Qed.

Lemma lookup_iff_in {V : Type} (l : list (Z * V)) (k : Z) (v : V) :
  asc l -> (In (k, v) l <-> lookup k l = Some v).
Proof. intros Hs. split; [now apply lookup_in | apply lookup_some]. Qed.

(** X4. Any sequence of insertions into a fresh map is carried out, and a
    search then returns, for each key, the value of the first insertion of
    that key: a later insertion of the same key changes nothing. *)
Theorem inserts_first_value_wins {V : Type} (B : nat) (kvs : list (Z * V))
  (k : Z) :
  1 <= B ->
  exists m,
    run B (inserts kvs) (BTreeMap.new B) = Some m /\
    BTreeMap.find B k m = Some (lookup k kvs).
Proof.
  intros HB. destruct (run_inserts_new B kvs HB) as (m & h & Hr & Hb & Hs).
  exists m. split; [exact Hr|]. unfold BTreeMap.find.
  rewrite (find_recursive_bt B h HB _ _ _ k Hb Hs).
  now rewrite lookup_fold_ins_new by exact I.
Qed.

Lemma inserts_first_value_wins_witness :
  exists m,
    run 2 (inserts [(5, to_string 1); (3, to_string 2); (5, to_string 3)]%Z)
      (BTreeMap.new 2) = Some m /\
    BTreeMap.find 2 5%Z m =
      Some (lookup 5%Z [(5, to_string 1); (3, to_string 2); (5, to_string 3)]%Z).
Proof.
  apply (inserts_first_value_wins 2
           [(5, to_string 1); (3, to_string 2); (5, to_string 3)]%Z 5%Z).
  lia.
Defined.

(** X5. After any sequence of insertions into a fresh map, [preorder]
    lists the keys in strictly ascending order, each key inserted once
    with the value of its first insertion and nothing else, and the
    adjacent-pairs check of the stress test holds. *)
Theorem inserts_listed_in_order {V : Type} (B : nat) (kvs : list (Z * V)) :
  1 <= B ->
  exists m l,
    run B (inserts kvs) (BTreeMap.new B) = Some m /\
    BTreeMap.preorder B m [] = Some l /\
    asc l /\
    (forall k v, In (k, v) l <-> lookup k kvs = Some v) /\
    check_btree_sanity B m = Some true.
Proof.
  intros HB. destruct (run_inserts_new B kvs HB) as (m & h & Hr & Hg).
  pose proof (wf_preorder B m _ HB (grown_wf B h m _ Hg)) as Hpre.
  destruct Hg as (Hb & Hs).
  exists m, (fold_left ins_new kvs []).
  repeat match goal with |- _ /\ _ => split end; auto.
  - intros k v. rewrite (lookup_iff_in _ k v Hs).
    now rewrite lookup_fold_ins_new by exact I.
  - unfold check_btree_sanity. rewrite Hpre. cbn [bind]. unfold ret. f_equal.
    apply sanity_ascending. exact Hs.
Qed.

Lemma inserts_listed_in_order_witness :
  exists m l,
    run 2 (inserts [(5, to_string 1); (3, to_string 2); (5, to_string 3)]%Z)
      (BTreeMap.new 2) = Some m /\
    BTreeMap.preorder 2 m [] = Some l /\
    asc l /\
    (forall k v,
       In (k, v) l <->
       lookup k [(5, to_string 1); (3, to_string 2); (5, to_string 3)]%Z =
       Some v) /\
    check_btree_sanity 2 m = Some true.
Proof.
  apply (inserts_listed_in_order 2
           [(5, to_string 1); (3, to_string 2); (5, to_string 3)]%Z).
  lia.
Defined.

(** X6. After any sequence of insertions into a fresh map the tree keeps
    the shape of a B-tree: the occupancy bounds hold in every node and all
    leaves are at one depth. *)
Theorem inserts_keep_shape {V : Type} (B : nat) (kvs : list (Z * V)) :
  1 <= B ->
  exists m,
    run B (inserts kvs) (BTreeMap.new B) = Some m /\
    occupancy B true (BTreeMap.root m) = true /\
    balanced (BTreeMap.root m).
Proof.
  intros HB. destruct (run_inserts_new B kvs HB) as (m & h & Hr & Hb & _).
  exists m. split; [exact Hr|]. split.
  - apply (occupancy_bt B h HB _ true _ _ Hb). now left.
  - exists h. apply (leaf_depths_bt B h _ 0 _ _ Hb).
Qed.

Lemma inserts_keep_shape_witness :
  exists m,
    run 2 (inserts (row [10; 20; 30; 40; 50]%Z)) (BTreeMap.new 2) = Some m /\
    occupancy 2 true (BTreeMap.root m) = true /\
    balanced (BTreeMap.root m).
Proof.
  apply (inserts_keep_shape 2 (row [10; 20; 30; 40; 50]%Z)). lia.
Defined.

(** X7. After any sequence of insertions into a fresh map, with [n]
    entries listed and [h] levels below the root: [n + 1 <= (2B)^(h+1)],
    and when the root is not a leaf [2 B^h <= n + 1]; so the height is
    logarithmic in the number of entries. *)
Theorem inserts_height_bounds {V : Type} (B : nat) (kvs : list (Z * V)) :
  1 <= B ->
  exists m l,
    run B (inserts kvs) (BTreeMap.new B) = Some m /\
    BTreeMap.preorder B m [] = Some l /\
    S (length l) <= (2 * B) ^ S (height (BTreeMap.root m)) /\
    (1 <= height (BTreeMap.root m) ->
     2 * B ^ height (BTreeMap.root m) <= S (length l)).
Proof.
  intros HB. destruct (run_inserts_new B kvs HB) as (m & h & Hr & Hg).
  pose proof (wf_preorder B m _ HB (grown_wf B h m _ Hg)) as Hpre.
  destruct Hg as (Hb & Hs).
  exists m, (fold_left ins_new kvs []).
  rewrite (height_bt B h _ _ _ Hb).
  repeat match goal with |- _ /\ _ => split end; auto.
  - apply (size_upper B h HB _ _ _ Hb).
  - intros Hh. pose proof (size_lower B h HB _ _ _ Hb) as Hlow.
    destruct h as [|h]; [lia|]. cbn [root_min] in Hlow. exact Hlow.
Qed.

Lemma inserts_height_bounds_witness :
  exists m l,
    run 2 (inserts (row [10; 20; 30; 40; 50]%Z)) (BTreeMap.new 2) = Some m /\
    BTreeMap.preorder 2 m [] = Some l /\
    S (length l) <= (2 * 2) ^ S (height (BTreeMap.root m)) /\
    (1 <= height (BTreeMap.root m) ->
     2 * 2 ^ height (BTreeMap.root m) <= S (length l)).
Proof.
  apply (inserts_height_bounds 2 (row [10; 20; 30; 40; 50]%Z)). lia.
Defined.

(** ** Single nodes *)

(** X8. [Node::insert] into a node with a free slot puts the new entry
    before the first entry whose key is not smaller, moves the later
    entries one slot up and leaves the children alone; the node holds one
    entry more. *)
Theorem node_insert_ordered {V : Type} (B : nat) (es : list (Z * V))
  (cs : list (Node.t V)) (k : Z) (v : V) :
  length es < 2 * B ->
  exists u',
    Node.insert B (Some k) (Some v) (node_of B es cs) = Some u' /\
    u' = node_of B (firstn (lead k (map fst es)) es ++
                    (k, v) :: skipn (lead k (map fst es)) es) cs /\
    Node.size B u' = S (length es) /\
    Forall (fun e => (fst e < k)%Z) (firstn (lead k (map fst es)) es).
Proof.
  intros Hl. exists (node_of B (ins k v es) cs).
  split; [now apply insert_node_of|]. split; [now rewrite ins_lead|].
  split.
  - rewrite size_node_of; rewrite length_ins; lia.
  - pose proof (lead_prefix k (map fst es)) as H.
    rewrite firstn_map in H. now apply Forall_map in H.
Qed.

Lemma node_insert_ordered_witness :
  exists u',
    Node.insert 2 (Some 15%Z) (Some (to_string 16))
      (node_of 2 full_leaf_entries []) = Some u' /\
    u' = node_of 2 (firstn (lead 15%Z (map fst full_leaf_entries))
                      full_leaf_entries ++
                    (15%Z, to_string 16) ::
                    skipn (lead 15%Z (map fst full_leaf_entries))
                      full_leaf_entries) [] /\
    Node.size 2 u' = S (length full_leaf_entries) /\
    Forall (fun e => (fst e < 15)%Z)
      (firstn (lead 15%Z (map fst full_leaf_entries)) full_leaf_entries).
Proof.
  apply (node_insert_ordered 2 full_leaf_entries [] 15%Z (to_string 16)).
  simpl. lia.
Defined.

(** X9. [Node::insert] into a node whose [2B] slots all hold smaller keys
    changes nothing: the loop ends without a free slot and the new entry
    is dropped. *)
Theorem node_insert_at_capacity {V : Type} (B : nat) (es : list (Z * V))
  (cs : list (Node.t V)) (k : Z) (v : V) :
  length es = 2 * B -> Forall (fun e => (fst e < k)%Z) es ->
  Node.insert B (Some k) (Some v) (node_of B es cs) = Some (node_of B es cs).
Proof.
  intros Hl Hall. unfold Node.insert.
  apply insert_from_full; [lia | exact Hall].
Qed.

Lemma node_insert_at_capacity_witness :
  Node.insert 2 (Some 50%Z) (Some (to_string 51))
    (node_of 2 (row [10; 20; 30; 40]%Z) []) =
  Some (node_of 2 (row [10; 20; 30; 40]%Z) []).
Proof.
  apply (node_insert_at_capacity 2 (row [10; 20; 30; 40]%Z) [] 50%Z
           (to_string 51)).
  - reflexivity.
  - repeat constructor; simpl; lia.
Defined.

(** X10. [Node::remove(index)] on a node whose entries fill the first
    slots: at an index that holds an entry it returns that entry and moves
    the later entries one slot down; at a later index of the array it
    returns a pair of nulls and changes nothing.  The children are left
    alone. *)
Theorem node_remove_at {V : Type} (B : nat) (es : list (Z * V))
  (cs : list (Node.t V)) (i : nat) :
  1 <= B -> length es <= 2 * B -> i < 2 * B ->
  Node.remove B i (node_of B es cs) =
  match nth_error es i with
  | Some e =>
      ((Some (fst e), Some (snd e)),
       node_of B (firstn i es ++ skipn (S i) es) cs)
  | None => ((None, None), node_of B es cs)
  end.
Proof.
  intros HB Hl Hi. destruct (nth_error es i) as [e|] eqn:E.
  - now apply remove_node_of.
  - apply nth_error_None in E. now apply remove_beyond.
Qed.

Lemma node_remove_at_witness :
  Node.remove 2 1 (node_of 2 full_leaf_entries []) =
  match nth_error full_leaf_entries 1 with
  | Some e =>
      ((Some (fst e), Some (snd e)),
       node_of 2 (firstn 1 full_leaf_entries ++ skipn 2 full_leaf_entries) [])
  | None => ((None, None), node_of 2 full_leaf_entries [])
  end.
Proof.
  apply (node_remove_at 2 full_leaf_entries [] 1); simpl; lia.
Defined.

(** X11. [Node::insert] followed by [Node::remove] at the slot the entry
    went to gives back the entry and the node as it was. *)
Theorem node_insert_then_remove {V : Type} (B : nat) (es : list (Z * V))
  (cs : list (Node.t V)) (k : Z) (v : V) :
  length es < 2 * B ->
  exists u',
    Node.insert B (Some k) (Some v) (node_of B es cs) = Some u' /\
    Node.remove B (lead k (map fst es)) u' =
      ((Some k, Some v), node_of B es cs).
Proof.
  intros Hl. exists (node_of B (ins k v es) cs).
  split; [now apply insert_node_of|].
  pose proof (lead_le k (map fst es)) as Hi. rewrite length_map in Hi.
  rewrite ins_lead.
  set (i := lead k (map fst es)) in *.
  assert (Hf : length (firstn i es) = i) by (rewrite length_firstn; lia).
  rewrite (remove_node_of B _ cs i (k, v)).
  - rewrite (cut_out (firstn i es) (skipn i es) (k, v) i Hf).
    now rewrite firstn_skipn.
  - pose proof (nth_error_exact (firstn i es) (skipn i es) (k, v)) as H.
    now rewrite Hf in H.
  - rewrite length_app. cbn [length]. rewrite Hf, length_skipn. lia.
Qed.

Lemma node_insert_then_remove_witness :
  exists u',
    Node.insert 2 (Some 15%Z) (Some (to_string 16))
      (node_of 2 full_leaf_entries []) = Some u' /\
    Node.remove 2 (lead 15%Z (map fst full_leaf_entries)) u' =
      ((Some 15%Z, Some (to_string 16)), node_of 2 full_leaf_entries []).
Proof.
  apply (node_insert_then_remove 2 full_leaf_entries [] 15%Z (to_string 16)).
  simpl. lia.
Defined.

(** X12. [Node::add_child(child, index)] on a node with a free child slot
    puts the child at [index] and moves the later children one slot up;
    the entries are left alone. *)
Theorem node_add_child_at {V : Type} (B : nat) (es : list (Z * V))
  (cs : list (Node.t V)) (i : nat) (c : Node.t V) :
  length cs <= 2 * B -> i <= length cs ->
  Node.add_child B (Some c) i (node_of B es cs) =
  node_of B es (firstn i cs ++ c :: skipn i cs).
Proof. apply add_child_node_of. Qed.

Lemma node_add_child_at_witness :
  Node.add_child 2 (Some (node_of 2 (row [25]%Z) [])) 1
    (BTreeMap.root two_level) =
  node_of 2 (row [20]%Z)
    (firstn 1 [node_of 2 (row [10]%Z) []; node_of 2 (row [30; 40]%Z) []] ++
     node_of 2 (row [25]%Z) [] ::
     skipn 1 [node_of 2 (row [10]%Z) []; node_of 2 (row [30; 40]%Z) []]).
Proof.
  apply (node_add_child_at 2 (row [20]%Z)
           [node_of 2 (row [10]%Z) []; node_of 2 (row [30; 40]%Z) []] 1
           (node_of 2 (row [25]%Z) [])); simpl; lia.
Defined.

(** ** Rebalancing *)

Lemma packed_leaf {V : Type} (B : nat) (es : list (Z * V)) :
  length es <= 2 * B - 1 -> packed B true (node_of B es []).
Proof.
  intros Hl. apply leaf_ok_packed; rewrite entries_node_of; auto.
Qed.

(** X13. [merge] of two neighbouring children of one level, around their
    separator [p] in the parent, when the entries of both and [p] fit one
    node: the left child takes [p] and then the entries and the children
    of the right one, the parent loses [p] and the slot of the right
    child, and the later children of the parent move one slot down. *)
Theorem merge_joins_siblings {V : Type} (B : nat) (lvl : bool)
  (E1 E2 : list (Z * V)) (p : Z * V) (C1 C2 : list (Node.t V))
  (l r : Node.t V) :
  1 <= B -> length E1 = length C1 ->
  length (E1 ++ p :: E2) <= 2 * B - 1 ->
  length (C1 ++ l :: r :: C2) <= 2 * B ->
  packed B lvl l -> packed B lvl r ->
  length (entries l) + 1 + length (entries r) <= 2 * B - 1 ->
  Forall (fun e => (fst e < fst p)%Z) (entries l) ->
  BTreeMap.merge B (node_of B (E1 ++ p :: E2) (C1 ++ l :: r :: C2))
    (length C1) (length C1) (length C1 + 1) =
  Some (node_of B (E1 ++ E2)
          (C1 ++ node_of B (entries l ++ p :: entries r) (kids l ++ kids r)
              :: C2)).
Proof.
  intros HB HE Hpl Hcl Pl Pr Hsz Hlow.
  apply (merge_packed B lvl E1 E2 p C1 C2 l r (length C1)); auto.
Qed.

Lemma merge_joins_siblings_witness :
  BTreeMap.merge 2
    (node_of 2 ([] ++ (20%Z, to_string 21) :: [])
       ([] ++ node_of 2 (row [10]%Z) [] :: node_of 2 (row [30]%Z) [] :: []))
    (length (@nil (Node.t String.string)))
    (length (@nil (Node.t String.string)))
    (length (@nil (Node.t String.string)) + 1) =
  Some (node_of 2 ([] ++ [])
          ([] ++ node_of 2 (entries (node_of 2 (row [10]%Z) []) ++
                            (20%Z, to_string 21) ::
                            entries (node_of 2 (row [30]%Z) []))
                   (kids (node_of 2 (row [10]%Z) []) ++
                    kids (node_of 2 (row [30]%Z) []))
              :: [])).
Proof.
  apply (merge_joins_siblings 2 true [] [] (20%Z, to_string 21) [] []
           (node_of 2 (row [10]%Z) []) (node_of 2 (row [30]%Z) [])).
  - lia.
  - reflexivity.
  - simpl. lia.
  - simpl. lia.
  - apply packed_leaf. simpl. lia.
  - apply packed_leaf. simpl. lia.
  - rewrite !entries_node_of. simpl. lia.
  - rewrite entries_node_of. repeat constructor; simpl; lia.
Defined.

(** X14. [check_child_underflow] on a parent whose children are leaves,
    all within the occupancy bounds except that the child checked may be
    one entry short: the call returns a two-level B-tree within the bounds
    that lists the same entries in the same order. *)
Theorem underflow_on_leaves {V : Type} (B : nat) (pes : list (Z * V))
  (X Y : list (Node.t V)) (child : Node.t V) :
  2 <= B -> 1 <= length pes <= 2 * B - 1 ->
  length (X ++ child :: Y) = S (length pes) ->
  asc (interleave (map entries (X ++ child :: Y)) pes) ->
  Forall (leaf_ok B) X -> Forall (leaf_ok B) Y ->
  child = node_of B (entries child) [] ->
  B - 2 <= length (entries child) <= 2 * B - 1 ->
  exists parent',
    BTreeMap.check_child_underflow B (node_of B pes (X ++ child :: Y))
      (length X) = Some parent' /\
    bt B 1 0 parent' (interleave (map entries (X ++ child :: Y)) pes) /\
    occupancy B true parent' = true.
Proof.
  intros HB Hpl Hcl Hs HX HY Hchild Hsz.
  destruct (underflow_leaves B pes X Y child HB Hpl Hcl Hs HX HY Hchild Hsz)
    as (parent' & Hrun & Hbt).
  exists parent'. split; [exact Hrun|]. split; [exact Hbt|].
  apply (occupancy_bt B 1 ltac:(lia) 0 true parent' _ Hbt). now left.
Qed.

Lemma underflow_on_leaves_witness :
  exists parent',
    BTreeMap.check_child_underflow 2
      (node_of 2 (row [20]%Z)
         ([] ++ node_of 2 [] [] :: [node_of 2 (row [30; 40]%Z) []]))
      (length (@nil (Node.t String.string))) = Some parent' /\
    bt 2 1 0 parent'
      (interleave
         (map entries ([] ++ node_of 2 [] [] :: [node_of 2 (row [30; 40]%Z) []]))
         (row [20]%Z)) /\
    occupancy 2 true parent' = true.
Proof.
  apply (underflow_on_leaves 2 (row [20]%Z) []
           [node_of 2 (row [30; 40]%Z) []] (node_of 2 [] [])).
  - lia.
  - simpl. lia.
  - reflexivity.
  - unfold asc. simpl. repeat constructor; lia.
  - constructor.
  - repeat constructor; simpl; lia.
  - reflexivity.
  - simpl. lia.
Defined.

(** ** The breadth-first snapshot *)

(** X15. [bfs] on a B-tree of height [h] with [B >= 2] whose root holds an
    entry: the layers [0 .. h] of the tree, layer [d] being the nodes [d]
    levels below the root from left to right, are appended layer by layer
    to what [result] holds; on an empty [result] the answer has exactly
    [h + 1] layers. *)
Theorem bfs_lists_levels {V : Type} (B h r : nat) (m : BTreeMap.t V)
  (l : list (Z * V)) (result : list (list (TreeNode V))) :
  2 <= B -> 1 <= r -> bt B h r (BTreeMap.root m) l ->
  BTreeMap.bfs B m result =
    Some (zip_app result (levels h (BTreeMap.root m))) /\
  length (levels h (BTreeMap.root m)) = S h.
Proof.
  intros HB Hr Hb. split.
  - unfold BTreeMap.bfs.
    rewrite (bfs_bt B h HB r _ l 0 result Hr Hb) by lia. reflexivity.
  - unfold levels. now rewrite length_map, length_seq.
Qed.

Lemma bfs_lists_levels_witness :
  BTreeMap.bfs 2 two_level [] =
    Some (zip_app [] (levels 1 (BTreeMap.root two_level))) /\
  length (levels 1 (BTreeMap.root two_level)) = 2.
Proof.
  apply (bfs_lists_levels 2 1 1 two_level (row [10; 20; 30; 40]%Z) []).
  - lia.
  - lia.
  - exact (proj1 grown_two_level).
Defined.

(** ** The fresh map *)

(** X16. On the map the constructor makes, [find] and [erase] return
    nothing for every key, [erase] leaves the map as it is, and [preorder]
    and [bfs] leave [result] as it is: [bfs] adds no layer for a root
    without entries. *)
Theorem fresh_map_is_empty {V : Type} (B : nat) (k : Z)
  (acc : list (Z * V)) (result : list (list (TreeNode V))) :
  1 <= B ->
  BTreeMap.find B k (@BTreeMap.new V B) = Some None /\
  BTreeMap.erase B k (@BTreeMap.new V B) = Some (None, BTreeMap.new B) /\
  BTreeMap.preorder B (BTreeMap.new B) acc = Some acc /\
  BTreeMap.bfs B (BTreeMap.new B) result = Some result.
Proof.
  intros HB. pose proof (@grown_new V B) as (Hb & Hs).
  repeat match goal with |- _ /\ _ => split end.
  - unfold BTreeMap.find.
    now rewrite (find_recursive_bt B 0 HB 0 _ [] k Hb Hs).
  - unfold BTreeMap.erase.
    rewrite (erase_recursive_absent B 0 HB 0 _ [] k Hb Hs) by (intros []).
    cbn [bind]. unfold BTreeMap.new at 1 2. cbn [BTreeMap.root].
    rewrite empty_node_of, get_children_node_of. cbn [nth_error is_some].
    now rewrite andb_false_r.
  - unfold BTreeMap.preorder.
    rewrite (preorder_bt B 0 HB 0 _ [] acc Hb). now rewrite app_nil_r.
  - unfold BTreeMap.bfs, BTreeMap.new. cbn [BTreeMap.root].
    rewrite bfs_eq, empty_node_of.
    change (Node.keys (node_of B [] [])) with (pad (2 * B) (@nil Z)).
    now rewrite get_pad.
Qed.

Lemma fresh_map_is_empty_witness :
  BTreeMap.find 2 7%Z (@BTreeMap.new String.string 2) = Some None /\
  BTreeMap.erase 2 7%Z (@BTreeMap.new String.string 2) =
    Some (None, BTreeMap.new 2) /\
  BTreeMap.preorder 2 (@BTreeMap.new String.string 2) [] = Some [] /\
  BTreeMap.bfs 2 (@BTreeMap.new String.string 2) [] = Some [].
Proof.
  apply (fresh_map_is_empty 2 7%Z [] []). lia.
Defined.

(** ** Erasing *)

(** X17. [erase] of a key that is not listed, on a map of any height as
    insertions build it: nothing is returned and the map is left as it
    is. *)
Theorem erase_absent_key {V : Type} (B h : nat) (m : BTreeMap.t V)
  (l : list (Z * V)) (k : Z) :
  1 <= B -> grown B h m l -> ~ In k (map fst l) ->
  BTreeMap.erase B k m = Some (None, m).
Proof.
  intros HB (Hb & Hs) Hin. unfold BTreeMap.erase.
  rewrite (erase_recursive_absent B h HB _ _ l k Hb Hs Hin). cbn [bind].
  assert (Hkeep : (Node.size B (BTreeMap.root m) =? 0)
                  && is_some (get (Node.children (BTreeMap.root m)) 0) = false).
  { destruct h as [|h].
    - destruct Hb as (_ & ->). rewrite get_children_node_of.
      cbn [nth_error is_some]. apply andb_false_r.
    - destruct Hb as (es & cs & ls & -> & _ & Hes & _).
      cbn [root_min] in Hes. rewrite size_node_of by lia.
      destruct (Nat.eqb_spec (length es) 0); [lia | reflexivity]. }
  rewrite Hkeep. now destruct m.
Qed.

Lemma erase_absent_key_witness :
  BTreeMap.erase 2 25%Z two_level = Some (None, two_level).
Proof.
  apply (erase_absent_key 2 1 two_level (row [10; 20; 30; 40]%Z) 25%Z).
  - lia.
  - exact grown_two_level.
  - simpl. intros [H|[H|[H|[H|[]]]]]; discriminate.
Defined.

(** X18. [erase] on a map of at most two levels, with [B >= 2]: it returns
    the value listed for the key, or nothing when the key is not listed;
    afterwards the map lists the same entries without that key, is again a
    B-tree within the occupancy bounds, and is not higher than before. *)
Theorem erase_on_two_levels {V : Type} (B h : nat) (m : BTreeMap.t V)
  (l : list (Z * V)) (k : Z) :
  2 <= B -> h <= 1 -> grown B h m l ->
  exists m' h',
    BTreeMap.erase B k m = Some (option_map Some (lookup k l), m') /\
    h' <= h /\ grown B h' m' (del k l) /\
    BTreeMap.preorder B m' [] = Some (del k l).
Proof.
  intros HB Hh Hg.
  destruct (erase_grown B h m l k HB Hh Hg) as (m' & h' & He & Hhh & Hg').
  exists m', h'. repeat split; auto; try apply Hg'.
  apply wf_preorder; [lia|]. exact (grown_wf B h' m' _ Hg').
Qed.

Lemma erase_on_two_levels_witness :
  exists m' h',
    BTreeMap.erase 2 10%Z two_level =
      Some (option_map Some (lookup 10%Z (row [10; 20; 30; 40]%Z)), m') /\
    h' <= 1 /\ grown 2 h' m' (del 10%Z (row [10; 20; 30; 40]%Z)) /\
    BTreeMap.preorder 2 m' [] = Some (del 10%Z (row [10; 20; 30; 40]%Z)).
Proof.
  apply (erase_on_two_levels 2 1 two_level (row [10; 20; 30; 40]%Z) 10%Z).
  - lia.
  - lia.
  - exact grown_two_level.
Defined.

(** X19. After [erase(k)] on a map of at most two levels, [find(k)]
    returns nothing and every other key is found as before. *)
Theorem erase_then_find {V : Type} (B h : nat) (m : BTreeMap.t V)
  (l : list (Z * V)) (k k' : Z) :
  2 <= B -> h <= 1 -> grown B h m l ->
  exists r m',
    BTreeMap.erase B k m = Some (r, m') /\
    BTreeMap.find B k' m' = Some (if (k =? k')%Z then None else lookup k' l).
Proof.
  intros HB Hh Hg.
  destruct (erase_grown B h m l k HB Hh Hg) as (m' & h' & He & _ & Hb' & Hs').
  exists (option_map Some (lookup k l)), m'. split; [exact He|].
  unfold BTreeMap.find.
  rewrite (find_recursive_bt B h' ltac:(lia) _ _ _ k' Hb' Hs').
  now rewrite lookup_del by apply Hg.
Qed.

Lemma erase_then_find_witness :
  exists r m',
    BTreeMap.erase 2 20%Z two_level = Some (r, m') /\
    BTreeMap.find 2 20%Z m' =
      Some (if (20 =? 20)%Z then None
            else lookup 20%Z (row [10; 20; 30; 40]%Z)).
Proof.
  apply (erase_then_find 2 1 two_level (row [10; 20; 30; 40]%Z) 20%Z 20%Z).
  - lia.
  - lia.
  - exact grown_two_level.
Defined.

Lemma del_ins {V : Type} (k : Z) (v : V) (l : list (Z * V)) :
  del k (ins k v l) = l.
Proof.
  induction l as [|e l IH]; cbn [ins del fst].
  - now rewrite Z.eqb_refl.
  - destruct (Z.ltb_spec (fst e) k) as [Hlt|Hge]; cbn [del fst].
    + destruct (Z.eqb_spec (fst e) k); [lia|]. now rewrite IH.
    + now rewrite Z.eqb_refl.
Qed.

(** X20. [insert] of a key that is not listed, then [erase] of that key,
    on a map of at most two levels that stays below [2 B^2 - 1] entries:
    the erase returns the value inserted and the map lists what it listed
    before. *)
Theorem insert_then_erase {V : Type} (B h : nat) (m : BTreeMap.t V)
  (l : list (Z * V)) (k : Z) (v : V) :
  2 <= B -> h <= 1 -> grown B h m l -> ~ In k (map fst l) ->
  length l + 3 <= 2 * B * B ->
  exists b m1 m2,
    BTreeMap.insert B k v m = Some (b, m1) /\
    BTreeMap.erase B k m1 = Some (Some (Some v), m2) /\
    BTreeMap.preorder B m2 [] = Some l.
Proof.
  intros HB Hh (Hb & Hs) Hin Hsmall.
  destruct (insert_bt_root B h m l k v ltac:(lia) Hb Hs)
    as (b & m1 & h1 & Hi & Hb1 & _).
  assert (Hnew : ins_new l (k, v) = ins k v l).
  { unfold ins_new. cbn [fst snd]. apply lookup_none_iff in Hin.
    now rewrite Hin. }
  rewrite Hnew in Hb1.
  assert (Hs1 : asc (ins k v l)) by (now apply asc_ins).
  assert (Hg1 : grown B h1 m1 (ins k v l)) by (split; auto).
  assert (Hh1 : h1 <= 1).
  { destruct (le_lt_dec h1 1) as [|Htall]; auto.
    pose proof (tall_is_large B h1 m1 _ ltac:(lia) Htall Hg1) as Hbig.
    rewrite length_ins in Hbig. lia. }
  destruct (erase_grown B h1 m1 _ k HB Hh1 Hg1) as (m2 & h2 & He & _ & Hg2).
  exists b, m1, m2. split; [exact Hi|].
  rewrite lookup_ins in He by assumption. rewrite del_ins in Hg2.
  split; [exact He|].
  apply wf_preorder; [lia|]. exact (grown_wf B h2 m2 _ Hg2).
Qed.

Lemma insert_then_erase_witness :
  exists b m1 m2,
    BTreeMap.insert 2 25%Z (to_string 26) two_level = Some (b, m1) /\
    BTreeMap.erase 2 25%Z m1 = Some (Some (Some (to_string 26)), m2) /\
    BTreeMap.preorder 2 m2 [] = Some (row [10; 20; 30; 40]%Z).
Proof.
  apply (insert_then_erase 2 1 two_level (row [10; 20; 30; 40]%Z) 25%Z
           (to_string 26)).
  - lia.
  - lia.
  - exact grown_two_level.
  - simpl. intros [H|[H|[H|[H|[]]]]]; discriminate.
  - simpl. lia.
Defined.

(** X21. Any sequence of [insert] and [erase] calls on a fresh map, with
    [B >= 2], along which the map never lists more than [2 B^2 - 2]
    entries: every call is carried out, and at the end [preorder] lists
    exactly what the same calls make of a sorted list without duplicates,
    and [find] returns for every key the value listed. *)
Theorem small_map_model {V : Type} (B : nat) (ops : list (Op V)) :
  2 <= B -> peak ops [] + 2 <= 2 * B * B ->
  exists m,
    run B ops (BTreeMap.new B) = Some m /\
    BTreeMap.preorder B m [] = Some (fold_left apply_op ops []) /\
    asc (fold_left apply_op ops []) /\
    forall k, BTreeMap.find B k m = Some (lookup k (fold_left apply_op ops [])).
Proof.
  intros HB Hp.
  destruct (run_small B ops HB 0 (BTreeMap.new B) [] ltac:(lia)
              (grown_new B) Hp) as (m & h & Hr & _ & Hg).
  exists m. split; [exact Hr|].
  split; [apply wf_preorder; [lia | exact (grown_wf B h m _ Hg)]|].
  destruct Hg as (Hb & Hs). split; [exact Hs|].
  intros k. unfold BTreeMap.find.
  apply (find_recursive_bt B h ltac:(lia) _ _ _ k Hb Hs).
Qed.

Lemma small_map_model_witness :
  exists m,
    run 2 (map Script.put [10; 20; 30; 40; 50]%Z ++ [Erase 10%Z; Erase 40%Z])
      (BTreeMap.new 2) = Some m /\
    BTreeMap.preorder 2 m [] =
      Some (fold_left apply_op
              (map Script.put [10; 20; 30; 40; 50]%Z ++ [Erase 10%Z; Erase 40%Z])
              []) /\
    asc (fold_left apply_op
           (map Script.put [10; 20; 30; 40; 50]%Z ++ [Erase 10%Z; Erase 40%Z])
           []) /\
    forall k,
      BTreeMap.find 2 k m =
      Some (lookup k
              (fold_left apply_op
                 (map Script.put [10; 20; 30; 40; 50]%Z ++
                  [Erase 10%Z; Erase 40%Z]) [])).
Proof.
  apply (small_map_model 2
           (map Script.put [10; 20; 30; 40; 50]%Z ++ [Erase 10%Z; Erase 40%Z])).
  - lia.
  - vm_compute. lia.
Defined.

(** ** The check of the stress test *)

(** X22. [check_btree_sanity] holds exactly when the keys that [preorder]
    lists are strictly ascending: comparing every key with its successor
    is enough. *)
Theorem sanity_check_means_ascending {V : Type} (B : nat)
  (m : BTreeMap.t V) (l : list (Z * V)) :
  BTreeMap.preorder B m [] = Some l ->
  (check_btree_sanity B m = Some true <-> asc l).
Proof.
  intros Hpre. unfold check_btree_sanity. rewrite Hpre. cbn [bind].
  unfold ret, asc. rewrite <- sanity_ascending. split.
  - now intros [= ->].
  - now intros ->.
Qed.

Lemma sanity_check_means_ascending_witness :
  check_btree_sanity 2 full_leaf = Some true <-> asc full_leaf_entries.
Proof.
  apply (sanity_check_means_ascending 2 full_leaf full_leaf_entries).
  reflexivity.
Defined.

(** ** Borrowing *)

Lemma packed_node_of {V : Type} (B : nat) (lvl : bool) (es : list (Z * V))
  (cs : list (Node.t V)) :
  length es <= 2 * B - 1 ->
  (if lvl then cs = [] else length cs = S (length es)) ->
  packed B lvl (node_of B es cs).
Proof.
  intros Hl Hc. unfold packed. rewrite entries_node_of, kids_node_of. auto.
Qed.

(** X23. [borrow_from_left] for the child number [i] of a parent of nodes
    of one level: the last entry [e] of the left sibling goes up into the
    parent in place of the separator [p], and [p] goes down to the front
    of the child.  No child pointer moves: both nodes keep the children
    they had, so that between internal nodes the left sibling is left
    with two children more than entries and the child with as many
    children as entries. *)
Theorem borrow_from_left_moves_no_child {V : Type} (B : nat) (lvl : bool)
  (E1 E2 : list (Z * V)) (p e : Z * V) (C1 C2 : list (Node.t V))
  (l c : Node.t V) (les : list (Z * V)) (i : nat) :
  1 <= B -> i = S (length C1) -> length E1 = length C1 ->
  length (E1 ++ p :: E2) <= 2 * B - 1 ->
  length (C1 ++ l :: c :: C2) <= 2 * B + 1 ->
  packed B lvl l -> packed B lvl c ->
  entries l = les ++ [e] ->
  Forall (fun x => (fst x < fst e)%Z) E1 ->
  Forall (fun x => (fst e < fst x)%Z) E2 ->
  Forall (fun x => (fst p < fst x)%Z) (entries c) ->
  exists l' c',
    BTreeMap.borrow_from_left B
      (node_of B (E1 ++ p :: E2) (C1 ++ l :: c :: C2)) i i (i - 1) =
    Some (node_of B (E1 ++ e :: E2) (C1 ++ l' :: c' :: C2)) /\
    entries l' = les /\ kids l' = kids l /\
    entries c' = p :: entries c /\ kids c' = kids c /\
    (lvl = false ->
     length (kids l') = S (S (length (entries l'))) /\
     length (kids c') = length (entries c')).
Proof.
  intros HB Hi HE Hpl Hcl Pl Pc Hles Hlow Hup Hch.
  exists (node_of B les (kids l)), (node_of B (p :: entries c) (kids c)).
  split; [now apply (borrow_from_left_packed B lvl)|].
  rewrite !entries_node_of, !kids_node_of.
  repeat match goal with |- _ /\ _ => split end; auto.
  intros ->. destruct Pl as (_ & _ & Hkl), Pc as (_ & _ & Hkc).
  cbv iota in Hkl, Hkc. rewrite Hkl, Hkc, Hles, length_app.
  cbn [length]. lia.
Qed.

Lemma borrow_from_left_moves_no_child_witness :
  exists l' c',
    BTreeMap.borrow_from_left 2
      (node_of 2 ([] ++ (50%Z, to_string 51) :: [])
         ([] ++ node_of 2 (row [10; 20; 30]%Z)
                  [node_of 2 (row [5]%Z) []; node_of 2 (row [15]%Z) [];
                   node_of 2 (row [25]%Z) []; node_of 2 (row [35]%Z) []]
             :: node_of 2 [] [node_of 2 (row [60]%Z) []] :: []))
      1 1 (1 - 1) =
    Some (node_of 2 ([] ++ (30%Z, to_string 31) :: [])
            ([] ++ l' :: c' :: [])) /\
    entries l' = row [10; 20]%Z /\
    kids l' =
      kids (node_of 2 (row [10; 20; 30]%Z)
              [node_of 2 (row [5]%Z) []; node_of 2 (row [15]%Z) [];
               node_of 2 (row [25]%Z) []; node_of 2 (row [35]%Z) []]) /\
    entries c' =
      (50%Z, to_string 51) ::
      entries (node_of 2 [] [node_of 2 (row [60]%Z) []]) /\
    kids c' = kids (node_of 2 [] [node_of 2 (row [60]%Z) []]) /\
    (false = false ->
     length (kids l') = S (S (length (entries l'))) /\
     length (kids c') = length (entries c')).
Proof.
  apply (borrow_from_left_moves_no_child 2 false [] []
           (50%Z, to_string 51) (30%Z, to_string 31) [] []
           (node_of 2 (row [10; 20; 30]%Z)
              [node_of 2 (row [5]%Z) []; node_of 2 (row [15]%Z) [];
               node_of 2 (row [25]%Z) []; node_of 2 (row [35]%Z) []])
           (node_of 2 [] [node_of 2 (row [60]%Z) []])
           (row [10; 20]%Z) 1).
  - lia.
  - reflexivity.
  - reflexivity.
  - simpl. lia.
  - simpl. lia.
  - apply packed_node_of; simpl; lia.
  - apply packed_node_of; simpl; lia.
  - now rewrite entries_node_of.
  - constructor.
  - constructor.
  - rewrite entries_node_of. constructor.
Defined.

(** X24. [borrow_from_right] for the first child of a parent of nodes of
    one level: the first entry [e] of the right sibling goes up into the
    parent in place of the separator [p], and [p] goes down to the end of
    the child.  No child pointer moves: between internal nodes the child
    is left with as many children as entries and the right sibling with
    two children more than entries, its first child still holding the
    keys below [e]. *)
Theorem borrow_from_right_moves_no_child {V : Type} (B : nat) (lvl : bool)
  (E2 : list (Z * V)) (p e : Z * V) (C2 : list (Node.t V))
  (c r : Node.t V) (res : list (Z * V)) :
  1 <= B ->
  length (p :: E2) <= 2 * B - 1 ->
  length (c :: r :: C2) <= 2 * B + 1 ->
  packed B lvl c -> packed B lvl r ->
  entries r = e :: res ->
  Forall (fun x => (fst e < fst x)%Z) E2 ->
  Forall (fun x => (fst x < fst p)%Z) (entries c) ->
  exists c' r',
    BTreeMap.borrow_from_right B
      (node_of B (p :: E2) (c :: r :: C2)) 0 0 (0 + 1) =
    Some (node_of B (e :: E2) (c' :: r' :: C2)) /\
    entries c' = entries c ++ [p] /\ kids c' = kids c /\
    entries r' = res /\ kids r' = kids r /\
    (lvl = false ->
     length (kids c') = length (entries c') /\
     length (kids r') = S (S (length (entries r')))).
Proof.
  intros HB Hpl Hcl Pc Pr Hres Hup Hch.
  exists (node_of B (entries c ++ [p]) (kids c)), (node_of B res (kids r)).
  split; [now apply (borrow_from_right_packed B lvl)|].
  rewrite !entries_node_of, !kids_node_of.
  repeat match goal with |- _ /\ _ => split end; auto.
  intros ->. destruct Pc as (_ & _ & Hkc), Pr as (_ & _ & Hkr).
  cbv iota in Hkc, Hkr. rewrite Hkc, Hkr, Hres, length_app.
  cbn [length]. lia.
Qed.

Lemma borrow_from_right_moves_no_child_witness :
  exists c' r',
    BTreeMap.borrow_from_right 2
      (node_of 2 ((40%Z, to_string 41) :: [])
         (node_of 2 [] [node_of 2 (row [20; 30]%Z) []]
          :: node_of 2 (row [60; 80; 100]%Z)
               [node_of 2 (row [50]%Z) []; node_of 2 (row [70]%Z) [];
                node_of 2 (row [90]%Z) []; node_of 2 (row [110]%Z) []]
          :: []))
      0 0 (0 + 1) =
    Some (node_of 2 ((60%Z, to_string 61) :: []) (c' :: r' :: [])) /\
    entries c' =
      entries (node_of 2 [] [node_of 2 (row [20; 30]%Z) []]) ++
      [(40%Z, to_string 41)] /\
    kids c' = kids (node_of 2 [] [node_of 2 (row [20; 30]%Z) []]) /\
    entries r' = row [80; 100]%Z /\
    kids r' =
      kids (node_of 2 (row [60; 80; 100]%Z)
              [node_of 2 (row [50]%Z) []; node_of 2 (row [70]%Z) [];
               node_of 2 (row [90]%Z) []; node_of 2 (row [110]%Z) []]) /\
    (false = false ->
     length (kids c') = length (entries c') /\
     length (kids r') = S (S (length (entries r')))).
Proof.
  apply (borrow_from_right_moves_no_child 2 false []
           (40%Z, to_string 41) (60%Z, to_string 61) []
           (node_of 2 [] [node_of 2 (row [20; 30]%Z) []])
           (node_of 2 (row [60; 80; 100]%Z)
              [node_of 2 (row [50]%Z) []; node_of 2 (row [70]%Z) [];
               node_of 2 (row [90]%Z) []; node_of 2 (row [110]%Z) []])
           (row [80; 100]%Z)).
  - lia.
  - simpl. lia.
  - simpl. lia.
  - apply packed_node_of; simpl; lia.
  - apply packed_node_of; simpl; lia.
  - now rewrite entries_node_of.
  - constructor.
  - rewrite entries_node_of. constructor.
Defined.

(** ** The search on any tree *)

(** Induction over a node and the nodes below it. *)
Lemma node_ind' {V : Type} (P : Node.t V -> Prop) :
  (forall ks vs cs,
     (forall i c, get cs i = Some c -> P c) -> P (Node.mk ks vs cs)) ->
  forall u, P u.
Proof.
  intros step. fix IH 1. intros [ks vs cs]. apply step.
  assert (Hall : Forall (fun x => match x with
                                  | Some c => P c
                                  | None => True
                                  end) cs).
  { induction cs as [|x cs IHcs]; constructor; [|exact IHcs].
    destruct x as [c|]; [apply IH | exact I]. }
  clear IH. induction Hall as [|x cs Hx _ IHcs]; intros [|i] c Hc; cbn in Hc;
    try discriminate.
  - subst x. exact Hx.
  - exact (IHcs i c Hc).
Qed.

Lemma Compare_eq (a b : Z) : Compare a b = 0%Z -> a = b.
Proof.
  unfold Compare.
  destruct (Z.gtb_spec a b), (Z.ltb_spec a b); intros E; try discriminate; lia.
Qed.

Section Soundness.
Context {V : Type}.
Variable B : nat.

(** A negative answer of the binary search names a slot that holds the
    key, whatever the array. *)
Lemma find_it_loop_sound (keys : list (option Z)) (k : Z) (fuel : nat) :
  forall lo hi,
  (BTreeMap.find_it_loop fuel lo hi keys k < 0)%Z ->
  exists m,
    BTreeMap.find_it_loop fuel lo hi keys k = (- (Z.of_nat m + 1))%Z /\
    get keys m = Some k.
Proof.
  induction fuel as [|fuel IH]; intros lo hi; cbn [BTreeMap.find_it_loop].
  - lia.
  - destruct (hi =? lo); [lia|].
    destruct (get keys ((hi + lo) / 2)) as [km|] eqn:E.
    + destruct (Z.ltb_spec (Compare k km) 0); [apply IH|].
      destruct (Z.gtb_spec (Compare k km) 0); [apply IH|].
      intros _. exists ((hi + lo) / 2). split; [reflexivity|].
      rewrite E. f_equal. symmetry. apply Compare_eq. lia.
    + cbn. apply IH.
Qed.

Lemma find_recursive_sound (k : Z) (v : V) (u : Node.t V) :
  BTreeMap.find_recursive B k u = Some (Some v) -> holds u k v.
Proof.
  induction u as [ks vs cs IH] using node_ind'.
  rewrite find_recursive_eq. cbv zeta.
  cbn [Node.keys Node.values Node.children].
  destruct (Z.ltb_spec (BTreeMap.find_it ks (2 * B - 1) k) 0) as [Hneg|Hpos].
  - destruct (find_it_loop_sound ks k (2 * B - 1) 0 (2 * B - 1) Hneg)
      as (m & Hm & Hk).
    unfold BTreeMap.find_it. rewrite Hm.
    replace (Z.to_nat (- (- (Z.of_nat m + 1) + 1))) with m by lia.
    destruct (get vs m) as [v'|] eqn:Hv; [|discriminate].
    intros [= ->]. now apply holds_here with (i := m).
  - destruct (get cs (Z.to_nat (BTreeMap.find_it ks (2 * B - 1) k)))
      as [c|] eqn:Hc; [|discriminate].
    intros H. eapply holds_below; [exact Hc | eapply IH; eauto].
Qed.

Lemma erase_recursive_sound (k : Z) (v : V) (u u' : Node.t V) :
  BTreeMap.erase_recursive B k u = Some (Some (Some v), u') -> holds u k v.
Proof.
  revert u'. induction u as [ks vs cs IH] using node_ind'. intros u'.
  rewrite erase_recursive_eq. cbv zeta.
  cbn [Node.keys Node.values Node.children].
  destruct (Z.ltb_spec (BTreeMap.find_it ks (2 * B - 1) k) 0) as [Hneg|Hpos].
  - destruct (find_it_loop_sound ks k (2 * B - 1) 0 (2 * B - 1) Hneg)
      as (m & Hm & Hk).
    unfold BTreeMap.find_it. rewrite Hm.
    replace (Z.to_nat (- (- (Z.of_nat m + 1) + 1))) with m by lia.
    unfold BTreeMap.erase_here, Node.remove.
    cbn [Node.keys Node.values Node.children fst snd].
    intros H.
    assert (Hv : get vs m = Some v).
    { destruct (negb _) in H.
      - destruct (BTreeMap.deref _) in H; [|discriminate]. cbn [bind] in H.
        destruct (BTreeMap.remove_smallest _ _) as [[b c']|] in H;
          [|discriminate]. cbn [bind] in H.
        destruct (Node.insert _ _ _ _) in H; [|discriminate]. cbn [bind] in H.
        destruct (BTreeMap.check_child_underflow _ _ _) in H; [|discriminate].
        cbn [bind] in H. now injection H as -> _.
      - now injection H as -> _. }
    now apply holds_here with (i := m).
  - destruct (get cs (Z.to_nat (BTreeMap.find_it ks (2 * B - 1) k)))
      as [c|] eqn:Hc; [|discriminate].
    destruct (BTreeMap.erase_recursive B k c) as [[r c']|] eqn:Hr;
      [|discriminate]. cbn [bind].
    destruct r as [r|]; [|discriminate].
    destruct (BTreeMap.check_child_underflow _ _ _); [|discriminate].
    cbn [bind]. intros [= -> _].
    eapply holds_below; [exact Hc | eapply IH; eauto].
Qed.

End Soundness.

(** X25. Whatever the tree, well-formed or not: when [find(k)] returns a
    value, some node of the tree holds [k] in a slot and that value in the
    slot of the same index.  A search can miss a key, it cannot return the
    value of another key. *)
Theorem find_returns_stored_value {V : Type} (B : nat) (m : BTreeMap.t V)
  (k : Z) (v : V) :
  BTreeMap.find B k m = Some (Some v) -> holds (BTreeMap.root m) k v.
Proof. apply find_recursive_sound. Qed.

Lemma find_returns_stored_value_witness :
  holds (BTreeMap.root damaged) 20%Z (to_string 21).
Proof.
  apply (find_returns_stored_value 2 damaged 20%Z (to_string 21)).
  vm_compute. reflexivity.
Defined.

(** X26. Whatever the tree, well-formed or not: when [erase(k)] returns a
    value, some node of the tree held [k] in a slot and that value in the
    slot of the same index. *)
Theorem erase_returns_stored_value {V : Type} (B : nat)
  (m m' : BTreeMap.t V) (k : Z) (v : V) :
  BTreeMap.erase B k m = Some (Some (Some v), m') ->
  holds (BTreeMap.root m) k v.
Proof.
  unfold BTreeMap.erase.
  destruct (BTreeMap.erase_recursive B k (BTreeMap.root m)) as [[r u']|] eqn:E;
    [|discriminate].
  cbn [bind]. intros H. apply (erase_recursive_sound B k v _ u').
  rewrite E. destruct (_ && _) in H.
  - destruct (BTreeMap.deref _) in H; [|discriminate]. cbn [bind] in H.
    now injection H as -> _.
  - now injection H as -> _.
Qed.

Lemma erase_returns_stored_value_witness :
  holds (BTreeMap.root damaged) 20%Z (to_string 21).
Proof.
  apply (erase_returns_stored_value 2 damaged
           (match BTreeMap.erase 2 20%Z damaged with
            | Some (_, m') => m'
            | None => damaged
            end) 20%Z (to_string 21)).
  vm_compute. reflexivity.
Defined.

(** ** The answers of the binary search stay inside the arrays *)

Lemma find_it_loop_range (keys : list (option Z)) (k : Z) (fuel : nat) :
  forall lo hi, lo <= hi ->
  (exists i, BTreeMap.find_it_loop fuel lo hi keys k = Z.of_nat i /\
             lo <= i <= hi) \/
  (exists m, BTreeMap.find_it_loop fuel lo hi keys k = (- (Z.of_nat m + 1))%Z /\
             lo <= m < hi /\ get keys m = Some k).
Proof.
  induction fuel as [|fuel IH]; intros lo hi Hle; cbn [BTreeMap.find_it_loop].
  - left. exists lo. split; [reflexivity | lia].
  - destruct (Nat.eqb_spec hi lo) as [->|Hne].
    + left. exists lo. split; [reflexivity | lia].
    + assert (Hm : lo <= (hi + lo) / 2 < hi).
      { split.
        - apply Nat.div_le_lower_bound; lia.
        - apply Nat.Div0.div_lt_upper_bound; lia. }
      destruct (get keys ((hi + lo) / 2)) as [km|] eqn:E.
      * destruct (Z.ltb_spec (Compare k km) 0).
        { destruct (IH lo ((hi + lo) / 2) ltac:(lia))
            as [(i & Hi & Hr)|(m & Hi & Hr & Hk)].
          - left. exists i. split; [exact Hi | lia].
          - right. exists m. split; [exact Hi|]. split; [lia | exact Hk]. }
        destruct (Z.gtb_spec (Compare k km) 0).
        { destruct (IH ((hi + lo) / 2 + 1) hi ltac:(lia))
            as [(i & Hi & Hr)|(m & Hi & Hr & Hk)].
          - left. exists i. split; [exact Hi | lia].
          - right. exists m. split; [exact Hi|]. split; [lia | exact Hk]. }
        right. exists ((hi + lo) / 2). split; [reflexivity|]. split; [lia|].
        rewrite E. f_equal. symmetry. apply Compare_eq. lia.
      * cbn.
        destruct (IH lo ((hi + lo) / 2) ltac:(lia))
          as [(i & Hi & Hr)|(m & Hi & Hr & Hk)].
        -- left. exists i. split; [exact Hi | lia].
        -- right. exists m. split; [exact Hi|]. split; [lia | exact Hk].
Qed.

(** X27. Whatever the array holds, the answer of [find_it] on a range of
    [n] slots is either an index between 0 and [n], the child slot to go
    down to, or [-(m + 1)] for a slot [m] below [n] that
    holds the key: the callers index the [2B] values and the [2B + 1]
    children inside their arrays. *)
Theorem find_it_in_bounds (keys : list (option Z)) (n : nat) (k : Z) :
  (exists i, BTreeMap.find_it keys n k = Z.of_nat i /\ i <= n) \/
  (exists m, BTreeMap.find_it keys n k = (- (Z.of_nat m + 1))%Z /\
             m < n /\ get keys m = Some k).
Proof.
  unfold BTreeMap.find_it.
  destruct (find_it_loop_range keys k n 0 n (Nat.le_0_l _))
    as [(i & Hi & Hr)|(m & Hi & Hr & Hk)].
  - left. exists i. split; [exact Hi | lia].
  - right. exists m. split; [exact Hi|]. split; [lia | exact Hk].
Qed.

(** ** The smallest entry *)

Section Smallest.
Context {V : Type}.
Variable B : nat.

(** X28. [remove_smallest] on a tree of at most two levels, with
    [B >= 2], that lists [e] first: it returns [e] and leaves a B-tree of
    the same height that lists the rest, rebalanced when its first leaf
    ran short. *)
Theorem remove_smallest_takes_first (h : nat) (u : Node.t V) (e : Z * V)
  (l : list (Z * V)) :
  2 <= B -> h <= 1 -> bt B h (root_min h) u (e :: l) -> asc (e :: l) ->
  exists u',
    BTreeMap.remove_smallest B u = Some ((Some (fst e), Some (snd e)), u') /\
    bt B h 0 u' l.
Proof.
  intros HB Hh Hb Hs. destruct h as [|[|h]]; [| |lia].
  - destruct Hb as (Hl & ->). cbn [length] in Hl.
    rewrite remove_smallest_eq, get_children_node_of. cbn [nth_error].
    unfold ret.
    rewrite (remove_node_of B (e :: l) [] 0 e) by (auto; cbn [length]; lia).
    cbn [firstn skipn app].
    exists (node_of B l []). split; [reflexivity|].
    split; [lia | reflexivity].
  - destruct Hb as (es & cs & ls & -> & Hlist & Hes & Hcs & Hall).
    cbn [root_min] in Hes.
    apply bt_leaves in Hall. destruct Hall as (-> & Hok).
    destruct cs as [|c0 cs]; [cbn [length] in Hcs; lia|].
    apply Forall_cons_iff in Hok. destruct Hok as ((Hc0 & Hl0) & Hok).
    cbn [map interleave] in Hlist.
    destruct (entries c0) as [|b lc'] eqn:Hlc; [cbn [length] in Hl0; lia|].
    cbn [length] in Hl0.
    assert (He : b = e).
    { destruct es; cbn in Hlist; now injection Hlist. }
    subst b. clear Hlc. subst c0.
    rewrite remove_smallest_eq, get_children_node_of. cbn [nth_error].
    rewrite remove_smallest_eq, get_children_node_of. cbn [nth_error].
    unfold ret at 1.
    rewrite (remove_node_of B (e :: lc') [] 0 e) by (auto; cbn [length]; lia).
    cbn [firstn skipn app bind].
    pose proof (set_child_node_of B es [] cs (node_of B (e :: lc') [])
                  (node_of B lc' []) 0 eq_refl) as Hset.
    cbn [app] in Hset. rewrite Hset by (cbn [length] in *; lia).
    clear Hset.
    assert (Hnew : interleave (map entries (node_of B lc' [] :: cs)) es = l).
    { cbn [map interleave]. rewrite entries_node_of.
      destruct es as [|x es]; cbn [app] in Hlist |- *;
        now injection Hlist as <-. }
    destruct (underflow_leaves B es [] cs (node_of B lc' []))
      as (parent' & Hrun & Hbt); auto.
    + cbn [app]. rewrite Hnew. apply asc_cons in Hs. now destruct Hs.
    + now rewrite entries_node_of.
    + rewrite entries_node_of. lia.
    + cbn [app length] in Hrun, Hbt. rewrite Hrun. cbn [bind]. unfold ret.
      exists parent'. split; [reflexivity|]. now rewrite Hnew in Hbt.
Qed.

End Smallest.

Lemma remove_smallest_takes_first_witness :
  exists u',
    BTreeMap.remove_smallest 2 (BTreeMap.root two_level) =
      Some ((Some (fst (10%Z, to_string 11)), Some (snd (10%Z, to_string 11))),
            u') /\
    bt 2 1 0 u' (row [20; 30; 40]%Z).
Proof.
  apply (remove_smallest_takes_first 2 1 (BTreeMap.root two_level)
           (10%Z, to_string 11) (row [20; 30; 40]%Z)).
  - lia.
  - lia.
  - exact (proj1 grown_two_level).
  - exact (proj2 grown_two_level).
Defined.

